(** * HiGHS MIP solver data: incumbent and bound management

    A shallow embedding of [src/mip/HighsMipSolverData.cpp]: the
    incumbent and bound manager ([addIncumbent],
    [transformNewIntegerFeasibleSolution], [computeNewUpperLimit]), the
    root LP evaluation loop ([evaluateRootLp]), the restart procedure
    ([performRestart], [runSetup]), the limit checker ([checkLimits]) and
    the display conversion ([limitsToBounds]), together with the column
    and row feasibility checks ([solutionColFeasible],
    [solutionRowFeasible], [checkSolution], [trySolution]); and, for the
    further properties at the end, the heuristic budget
    ([moreHeuristicsAllowed], [percentageInactiveIntegers]), the row pass
    of [runSetup] and [setupDomainPropagation], the root basis of
    [performRestart] and [basisTransfer], and the bounds printed by
    [printDisplayLine].

    Conventions of the embedding.
    - A C++ [double] is a value of [double] below: the IEEE special values
      (NaN and the two infinities) are kept, finite values are rationals
      and finite arithmetic is exact (no rounding, no overflow, one zero).
      [HighsCDouble] is the same type.
    - [std::vector<T>] is [list T]; [HighsInt] and [int64_t] are [Z],
      without overflow.
    - The external collaborators (domain propagation, LP relaxation, node
      queue, clique table, reduced-cost fixing, presolve, postsolve stack,
      user callback, timer) live in an abstract [World]; their methods are
      the fields of a record [Collaborators], uninterpreted functions on
      that state.
    - A function that mutates [*this] takes the solver data and returns
      the new solver data next to its result.
    - Logging, developer assertions (but for those that close
      [printDisplayLine]) and the data handed to the user callback are
      not represented.

    The first part holds the definitions, the second the properties. *)

From Equations Require Import Equations.
From Stdlib Require Import ZArith QArith Qround Qabs Qreduction.
From Stdlib Require Import Lia Lqa List Bool.
Import ListNotations.

Set Implicit Arguments.

(* ================================================================== *)
(** * The [double] model                                               *)
(* ================================================================== *)

Module Double.

Inductive double : Type :=
| NaN
| NInf
| Fin (q : Q)
| PInf.

(** [kHighsInf] is [std::numeric_limits<double>::infinity()]. *)
Definition kHighsInf : double := PInf.

Definition Qltb (a b : Q) : bool := negb (Qle_bool b a).

Definition of_Z (z : Z) : double := Fin (inject_Z z).

Definition is_nan (x : double) : bool :=
  match x with NaN => true | _ => false end.

Definition is_finite (x : double) : bool :=
  match x with Fin _ => true | _ => false end.

(** ** Arithmetic *)

Definition dneg (x : double) : double :=
  match x with
  | NaN => NaN
  | NInf => PInf
  | PInf => NInf
  | Fin a => Fin (Qred (- a))
  end.

Definition dadd (x y : double) : double :=
  match x, y with
  | NaN, _ | _, NaN => NaN
  | PInf, NInf | NInf, PInf => NaN
  | PInf, _ | _, PInf => PInf
  | NInf, _ | _, NInf => NInf
  | Fin a, Fin b => Fin (Qred (a + b))
  end.

Definition dsub (x y : double) : double := dadd x (dneg y).

(** Sign of a value: [Gt] positive, [Lt] negative, [Eq] zero. *)
Definition Qsign (a : Q) : comparison := (a ?= 0)%Q.

Definition inf_of_sign (s : comparison) : double :=
  match s with Gt => PInf | Lt => NInf | Eq => NaN end.

Definition dsign (x : double) : option comparison :=
  match x with
  | NaN => None
  | NInf => Some Lt
  | PInf => Some Gt
  | Fin a => Some (Qsign a)
  end.

Definition sign_mul (s t : comparison) : comparison :=
  match s, t with
  | Eq, _ | _, Eq => Eq
  | Gt, Gt | Lt, Lt => Gt
  | _, _ => Lt
  end.

Definition dmul (x y : double) : double :=
  match x, y with
  | Fin a, Fin b => Fin (Qred (a * b))
  | _, _ =>
      match dsign x, dsign y with
      | Some s, Some t => inf_of_sign (sign_mul s t)
      | _, _ => NaN
      end
  end.

(** Division by the (positive) zero gives an infinity of the sign of
    the dividend, [0/0] and [inf/inf] give NaN. *)
Definition ddiv (x y : double) : double :=
  match x, y with
  | NaN, _ | _, NaN => NaN
  | Fin a, Fin b =>
      if Qeq_bool b 0 then inf_of_sign (Qsign a) else Fin (Qred (a / b))
  | Fin _, _ => Fin 0
  | _, Fin b =>
      match dsign x with
      | Some s => inf_of_sign (sign_mul s (if Qeq_bool b 0 then Gt else Qsign b))
      | None => NaN
      end
  | _, _ => NaN
  end.

Definition dabs (x : double) : double :=
  match x with
  | NaN => NaN
  | NInf | PInf => PInf
  | Fin a => Fin (Qred (Qabs a))
  end.

Definition dfloor (x : double) : double :=
  match x with
  | Fin a => Fin (inject_Z (Qfloor a))
  | _ => x
  end.

Definition dceil (x : double) : double :=
  match x with
  | Fin a => Fin (inject_Z (Qceiling a))
  | _ => x
  end.

(** [std::round]: to the nearest integer, halves away from zero. *)
Definition dround (x : double) : double :=
  match x with
  | Fin a =>
      if Qle_bool 0 a then Fin (inject_Z (Qfloor (a + (1 # 2))))
      else Fin (inject_Z (Qceiling (a - (1 # 2))))
  | _ => x
  end.

(** ** Comparisons (all false on NaN, except [!=]) *)

Definition dlt (x y : double) : bool :=
  match x, y with
  | NaN, _ | _, NaN => false
  | _, NInf => false
  | NInf, _ => true
  | PInf, _ => false
  | _, PInf => true
  | Fin a, Fin b => Qltb a b
  end.

Definition dle (x y : double) : bool :=
  match x, y with
  | NaN, _ | _, NaN => false
  | NInf, _ => true
  | _, PInf => true
  | _, NInf => false
  | PInf, _ => false
  | Fin a, Fin b => Qle_bool a b
  end.

Definition deq (x y : double) : bool :=
  match x, y with
  | NInf, NInf | PInf, PInf => true
  | Fin a, Fin b => Qeq_bool a b
  | _, _ => false
  end.

Definition dgt (x y : double) : bool := dlt y x.
Definition dge (x y : double) : bool := dle y x.
Definition dne (x y : double) : bool := negb (deq x y).

(** [std::min(a, b)] is [(b < a) ? b : a]; [std::max(a, b)] is
    [(a < b) ? b : a]. *)
Definition std_min (a b : double) : double := if dlt b a then b else a.
Definition std_max (a b : double) : double := if dlt a b then b else a.

End Double.
Export Double.

Declare Scope double_scope.
Delimit Scope double_scope with D.
Bind Scope double_scope with double.
Infix "+" := dadd : double_scope.
Infix "-" := dsub : double_scope.
Infix "*" := dmul : double_scope.
Infix "/" := ddiv : double_scope.
Notation "- x" := (dneg x) : double_scope.
Infix "<?" := dlt : double_scope.
Infix "<=?" := dle : double_scope.
Infix ">?" := dgt : double_scope.
Infix ">=?" := dge : double_scope.
Infix "==?" := deq (at level 70) : double_scope.
Infix "!=?" := dne (at level 70) : double_scope.

(** Literals used by the source. *)
Definition d0 : double := Fin 0.
Definition d1 : double := Fin 1.
Definition dhalf : double := Fin (1 # 2).
Definition d100 : double := Fin 100.

(* ================================================================== *)
(** * Data model                                                       *)
(* ================================================================== *)

Inductive HighsModelStatus : Type :=
| kNotset
| kInfeasible
| kUnboundedOrInfeasible
| kUnbounded
| kOptimal
| kObjectiveTarget
| kTimeLimit
| kSolutionLimit
| kInterrupt.

Definition HighsModelStatus_eqb (a b : HighsModelStatus) : bool :=
  match a, b with
  | kNotset, kNotset | kInfeasible, kInfeasible
  | kUnboundedOrInfeasible, kUnboundedOrInfeasible
  | kUnbounded, kUnbounded | kOptimal, kOptimal
  | kObjectiveTarget, kObjectiveTarget | kTimeLimit, kTimeLimit
  | kSolutionLimit, kSolutionLimit | kInterrupt, kInterrupt => true
  | _, _ => false
  end.

(** [HighsLpRelaxation::Status]. *)
Module Status.
Inductive t : Type :=
| kNotSet
| kOptimal
| kInfeasible
| kUnscaledDualFeasible
| kUnscaledPrimalFeasible
| kUnscaledInfeasible
| kUnbounded
| kError.

Definition eqb (a b : t) : bool :=
  match a, b with
  | kNotSet, kNotSet | kOptimal, kOptimal | kInfeasible, kInfeasible
  | kUnscaledDualFeasible, kUnscaledDualFeasible
  | kUnscaledPrimalFeasible, kUnscaledPrimalFeasible
  | kUnscaledInfeasible, kUnscaledInfeasible
  | kUnbounded, kUnbounded | kError, kError => true
  | _, _ => false
  end.
End Status.

Inductive HighsVarType : Type :=
| kContinuous
| kInteger
| kSemiContinuous
| kSemiInteger
| kImplicitInteger.

Definition is_kInteger (t : HighsVarType) : bool :=
  match t with kInteger => true | _ => false end.

Inductive ObjSense : Type :=
| kMinimize
| kMaximize.

(** [(int)sense_]: [kMinimize = 1], [kMaximize = -1]. *)
Definition int_of_sense (s : ObjSense) : Z :=
  match s with kMinimize => 1 | kMaximize => -1 end.

Definition is_kMaximize (s : ObjSense) : bool :=
  match s with kMaximize => true | kMinimize => false end.

Inductive CallbackType : Type :=
| kCallbackMipSolution
| kCallbackMipImprovingSolution
| kCallbackMipLogging
| kCallbackMipInterrupt.

(** [kHighsIInf] is [std::numeric_limits<HighsInt>::max()] for the
    default 32-bit [HighsInt]. *)
Definition kHighsIInf : Z := 2147483647.

(** Solution source tags (characters in the source). *)
Inductive SolutionSource : Type :=
| kSolutionSourceNone
| kSolutionSourceEmptyMip
| kSolutionSourceEvaluateNode
| kSolutionSourceOther.

(** Column-wise sparse matrix of the model. *)
Record HighsSparseMatrix : Type := mkHighsSparseMatrix {
  start_ : list Z;
  index_ : list Z;
  value_ : list double
}.

Record HighsLp : Type := mkHighsLp {
  num_col_ : Z;
  num_row_ : Z;
  a_matrix_ : HighsSparseMatrix;
  col_cost_ : list double;
  col_lower_ : list double;
  col_upper_ : list double;
  row_lower_ : list double;
  row_upper_ : list double;
  integrality_ : list HighsVarType;
  offset_ : double;
  sense_ : ObjSense
}.

Record HighsSolution : Type := mkHighsSolution {
  value_valid : bool;
  col_value : list double;
  row_value : list double
}.

Record HighsOptions : Type := mkHighsOptions {
  mip_feasibility_tolerance : double;
  primal_feasibility_tolerance : double;
  mip_abs_gap : double;
  mip_rel_gap : double;
  objective_bound : double;
  objective_target : double;
  time_limit : double;
  mip_max_nodes : Z;
  mip_max_leaves : Z;
  mip_max_improving_sols : Z
}.

Record HighsCallback : Type := mkHighsCallback {
  user_callback : bool;
  active : CallbackType -> bool
}.

Record HighsObjectiveFunction : Type := mkHighsObjectiveFunction {
  isIntegral : bool;
  integralScale : double
}.

(** The fields of [HighsMipSolver] that this file reads or writes. *)
Record HighsMipSolver : Type := mkHighsMipSolver {
  model_ : HighsLp;
  orig_model_ : HighsLp;
  options_mip_ : HighsOptions;
  callback_ : HighsCallback;
  submip : bool;
  solution_ : list double;
  solution_objective_ : double;
  bound_violation_ : double;
  integrality_violation_ : double;
  row_violation_ : double;
  modelstatus_ : HighsModelStatus
}.

Definition set_modelstatus_ (s : HighsModelStatus) (m : HighsMipSolver)
  : HighsMipSolver :=
  mkHighsMipSolver (model_ m) (orig_model_ m) (options_mip_ m) (callback_ m)
    (submip m) (solution_ m) (solution_objective_ m) (bound_violation_ m)
    (integrality_violation_ m) (row_violation_ m) s.

Definition set_model_ (lp : HighsLp) (m : HighsMipSolver) : HighsMipSolver :=
  mkHighsMipSolver lp (orig_model_ m) (options_mip_ m) (callback_ m)
    (submip m) (solution_ m) (solution_objective_ m) (bound_violation_ m)
    (integrality_violation_ m) (row_violation_ m) (modelstatus_ m).

(** The five assignments that store a solution in the original space
    (lines 837-841 and 900-904). *)
Definition store_solution (row_v bound_v int_v : double) (sol : list double)
    (obj : double) (m : HighsMipSolver) : HighsMipSolver :=
  mkHighsMipSolver (model_ m) (orig_model_ m) (options_mip_ m) (callback_ m)
    (submip m) sol obj bound_v int_v row_v (modelstatus_ m).

(** The fields of [HighsMipSolverData] that this file reads or writes,
    over the state [World] of the external collaborators. *)
Record HighsMipSolverData (World : Type) : Type := mkHighsMipSolverData {
  mipsolver : HighsMipSolver;
  world : World;
  feastol : double;
  epsilon : double;
  objectiveFunction : HighsObjectiveFunction;
  lower_bound : double;
  upper_bound : double;
  upper_limit : double;
  optimality_limit : double;
  incumbent : list double;
  pruned_treeweight : double;
  num_nodes : Z;
  num_leaves : Z;
  total_lp_iterations : Z;
  heuristic_lp_iterations : Z;
  sepa_lp_iterations : Z;
  sb_lp_iterations : Z;
  num_nodes_before_run : Z;
  num_leaves_before_run : Z;
  total_lp_iterations_before_run : Z;
  heuristic_lp_iterations_before_run : Z;
  sepa_lp_iterations_before_run : Z;
  sb_lp_iterations_before_run : Z;
  numImprovingSols : Z;
  numRestarts : Z;
  avgrootlpiters : double;
  integral_cols : list Z;
  integer_cols : list Z;
  implint_cols : list Z;
  continuous_cols : list Z;
  numintegercols : Z;
  ARstart_ : list Z;
  ARindex_ : list Z;
  ARvalue_ : list double
}.

Arguments mkHighsMipSolverData {World}.

(* ================================================================== *)
(** * Field updates                                                    *)
(* ================================================================== *)

Section Updates.
Context {World : Type}.
Abbreviation St := (HighsMipSolverData World).

Definition set_mipsolver (v : HighsMipSolver) (st : St) : St :=
  mkHighsMipSolverData
    v (world st) (feastol st) (epsilon st) (objectiveFunction st)
    (lower_bound st) (upper_bound st) (upper_limit st)
    (optimality_limit st) (incumbent st) (pruned_treeweight st)
    (num_nodes st) (num_leaves st) (total_lp_iterations st)
    (heuristic_lp_iterations st) (sepa_lp_iterations st)
    (sb_lp_iterations st) (num_nodes_before_run st)
    (num_leaves_before_run st) (total_lp_iterations_before_run st)
    (heuristic_lp_iterations_before_run st)
    (sepa_lp_iterations_before_run st) (sb_lp_iterations_before_run st)
    (numImprovingSols st) (numRestarts st) (avgrootlpiters st)
    (integral_cols st) (integer_cols st) (implint_cols st)
    (continuous_cols st) (numintegercols st) (ARstart_ st) (ARindex_ st)
    (ARvalue_ st).

Definition set_world (v : World) (st : St) : St :=
  mkHighsMipSolverData
    (mipsolver st) v (feastol st) (epsilon st) (objectiveFunction st)
    (lower_bound st) (upper_bound st) (upper_limit st)
    (optimality_limit st) (incumbent st) (pruned_treeweight st)
    (num_nodes st) (num_leaves st) (total_lp_iterations st)
    (heuristic_lp_iterations st) (sepa_lp_iterations st)
    (sb_lp_iterations st) (num_nodes_before_run st)
    (num_leaves_before_run st) (total_lp_iterations_before_run st)
    (heuristic_lp_iterations_before_run st)
    (sepa_lp_iterations_before_run st) (sb_lp_iterations_before_run st)
    (numImprovingSols st) (numRestarts st) (avgrootlpiters st)
    (integral_cols st) (integer_cols st) (implint_cols st)
    (continuous_cols st) (numintegercols st) (ARstart_ st) (ARindex_ st)
    (ARvalue_ st).

Definition set_objectiveFunction (v : HighsObjectiveFunction) (st : St) : St :=
  mkHighsMipSolverData
    (mipsolver st) (world st) (feastol st) (epsilon st) v (lower_bound st)
    (upper_bound st) (upper_limit st) (optimality_limit st) (incumbent st)
    (pruned_treeweight st) (num_nodes st) (num_leaves st)
    (total_lp_iterations st) (heuristic_lp_iterations st)
    (sepa_lp_iterations st) (sb_lp_iterations st) (num_nodes_before_run st)
    (num_leaves_before_run st) (total_lp_iterations_before_run st)
    (heuristic_lp_iterations_before_run st)
    (sepa_lp_iterations_before_run st) (sb_lp_iterations_before_run st)
    (numImprovingSols st) (numRestarts st) (avgrootlpiters st)
    (integral_cols st) (integer_cols st) (implint_cols st)
    (continuous_cols st) (numintegercols st) (ARstart_ st) (ARindex_ st)
    (ARvalue_ st).

Definition set_lower_bound (v : double) (st : St) : St :=
  mkHighsMipSolverData
    (mipsolver st) (world st) (feastol st) (epsilon st)
    (objectiveFunction st) v (upper_bound st) (upper_limit st)
    (optimality_limit st) (incumbent st) (pruned_treeweight st)
    (num_nodes st) (num_leaves st) (total_lp_iterations st)
    (heuristic_lp_iterations st) (sepa_lp_iterations st)
    (sb_lp_iterations st) (num_nodes_before_run st)
    (num_leaves_before_run st) (total_lp_iterations_before_run st)
    (heuristic_lp_iterations_before_run st)
    (sepa_lp_iterations_before_run st) (sb_lp_iterations_before_run st)
    (numImprovingSols st) (numRestarts st) (avgrootlpiters st)
    (integral_cols st) (integer_cols st) (implint_cols st)
    (continuous_cols st) (numintegercols st) (ARstart_ st) (ARindex_ st)
    (ARvalue_ st).

Definition set_upper_bound (v : double) (st : St) : St :=
  mkHighsMipSolverData
    (mipsolver st) (world st) (feastol st) (epsilon st)
    (objectiveFunction st) (lower_bound st) v (upper_limit st)
    (optimality_limit st) (incumbent st) (pruned_treeweight st)
    (num_nodes st) (num_leaves st) (total_lp_iterations st)
    (heuristic_lp_iterations st) (sepa_lp_iterations st)
    (sb_lp_iterations st) (num_nodes_before_run st)
    (num_leaves_before_run st) (total_lp_iterations_before_run st)
    (heuristic_lp_iterations_before_run st)
    (sepa_lp_iterations_before_run st) (sb_lp_iterations_before_run st)
    (numImprovingSols st) (numRestarts st) (avgrootlpiters st)
    (integral_cols st) (integer_cols st) (implint_cols st)
    (continuous_cols st) (numintegercols st) (ARstart_ st) (ARindex_ st)
    (ARvalue_ st).

Definition set_upper_limit (v : double) (st : St) : St :=
  mkHighsMipSolverData
    (mipsolver st) (world st) (feastol st) (epsilon st)
    (objectiveFunction st) (lower_bound st) (upper_bound st) v
    (optimality_limit st) (incumbent st) (pruned_treeweight st)
    (num_nodes st) (num_leaves st) (total_lp_iterations st)
    (heuristic_lp_iterations st) (sepa_lp_iterations st)
    (sb_lp_iterations st) (num_nodes_before_run st)
    (num_leaves_before_run st) (total_lp_iterations_before_run st)
    (heuristic_lp_iterations_before_run st)
    (sepa_lp_iterations_before_run st) (sb_lp_iterations_before_run st)
    (numImprovingSols st) (numRestarts st) (avgrootlpiters st)
    (integral_cols st) (integer_cols st) (implint_cols st)
    (continuous_cols st) (numintegercols st) (ARstart_ st) (ARindex_ st)
    (ARvalue_ st).

Definition set_optimality_limit (v : double) (st : St) : St :=
  mkHighsMipSolverData
    (mipsolver st) (world st) (feastol st) (epsilon st)
    (objectiveFunction st) (lower_bound st) (upper_bound st)
    (upper_limit st) v (incumbent st) (pruned_treeweight st) (num_nodes st)
    (num_leaves st) (total_lp_iterations st) (heuristic_lp_iterations st)
    (sepa_lp_iterations st) (sb_lp_iterations st) (num_nodes_before_run st)
    (num_leaves_before_run st) (total_lp_iterations_before_run st)
    (heuristic_lp_iterations_before_run st)
    (sepa_lp_iterations_before_run st) (sb_lp_iterations_before_run st)
    (numImprovingSols st) (numRestarts st) (avgrootlpiters st)
    (integral_cols st) (integer_cols st) (implint_cols st)
    (continuous_cols st) (numintegercols st) (ARstart_ st) (ARindex_ st)
    (ARvalue_ st).

Definition set_incumbent (v : list double) (st : St) : St :=
  mkHighsMipSolverData
    (mipsolver st) (world st) (feastol st) (epsilon st)
    (objectiveFunction st) (lower_bound st) (upper_bound st)
    (upper_limit st) (optimality_limit st) v (pruned_treeweight st)
    (num_nodes st) (num_leaves st) (total_lp_iterations st)
    (heuristic_lp_iterations st) (sepa_lp_iterations st)
    (sb_lp_iterations st) (num_nodes_before_run st)
    (num_leaves_before_run st) (total_lp_iterations_before_run st)
    (heuristic_lp_iterations_before_run st)
    (sepa_lp_iterations_before_run st) (sb_lp_iterations_before_run st)
    (numImprovingSols st) (numRestarts st) (avgrootlpiters st)
    (integral_cols st) (integer_cols st) (implint_cols st)
    (continuous_cols st) (numintegercols st) (ARstart_ st) (ARindex_ st)
    (ARvalue_ st).

Definition set_pruned_treeweight (v : double) (st : St) : St :=
  mkHighsMipSolverData
    (mipsolver st) (world st) (feastol st) (epsilon st)
    (objectiveFunction st) (lower_bound st) (upper_bound st)
    (upper_limit st) (optimality_limit st) (incumbent st) v (num_nodes st)
    (num_leaves st) (total_lp_iterations st) (heuristic_lp_iterations st)
    (sepa_lp_iterations st) (sb_lp_iterations st) (num_nodes_before_run st)
    (num_leaves_before_run st) (total_lp_iterations_before_run st)
    (heuristic_lp_iterations_before_run st)
    (sepa_lp_iterations_before_run st) (sb_lp_iterations_before_run st)
    (numImprovingSols st) (numRestarts st) (avgrootlpiters st)
    (integral_cols st) (integer_cols st) (implint_cols st)
    (continuous_cols st) (numintegercols st) (ARstart_ st) (ARindex_ st)
    (ARvalue_ st).

Definition set_num_nodes (v : Z) (st : St) : St :=
  mkHighsMipSolverData
    (mipsolver st) (world st) (feastol st) (epsilon st)
    (objectiveFunction st) (lower_bound st) (upper_bound st)
    (upper_limit st) (optimality_limit st) (incumbent st)
    (pruned_treeweight st) v (num_leaves st) (total_lp_iterations st)
    (heuristic_lp_iterations st) (sepa_lp_iterations st)
    (sb_lp_iterations st) (num_nodes_before_run st)
    (num_leaves_before_run st) (total_lp_iterations_before_run st)
    (heuristic_lp_iterations_before_run st)
    (sepa_lp_iterations_before_run st) (sb_lp_iterations_before_run st)
    (numImprovingSols st) (numRestarts st) (avgrootlpiters st)
    (integral_cols st) (integer_cols st) (implint_cols st)
    (continuous_cols st) (numintegercols st) (ARstart_ st) (ARindex_ st)
    (ARvalue_ st).

Definition set_num_leaves (v : Z) (st : St) : St :=
  mkHighsMipSolverData
    (mipsolver st) (world st) (feastol st) (epsilon st)
    (objectiveFunction st) (lower_bound st) (upper_bound st)
    (upper_limit st) (optimality_limit st) (incumbent st)
    (pruned_treeweight st) (num_nodes st) v (total_lp_iterations st)
    (heuristic_lp_iterations st) (sepa_lp_iterations st)
    (sb_lp_iterations st) (num_nodes_before_run st)
    (num_leaves_before_run st) (total_lp_iterations_before_run st)
    (heuristic_lp_iterations_before_run st)
    (sepa_lp_iterations_before_run st) (sb_lp_iterations_before_run st)
    (numImprovingSols st) (numRestarts st) (avgrootlpiters st)
    (integral_cols st) (integer_cols st) (implint_cols st)
    (continuous_cols st) (numintegercols st) (ARstart_ st) (ARindex_ st)
    (ARvalue_ st).

Definition set_total_lp_iterations (v : Z) (st : St) : St :=
  mkHighsMipSolverData
    (mipsolver st) (world st) (feastol st) (epsilon st)
    (objectiveFunction st) (lower_bound st) (upper_bound st)
    (upper_limit st) (optimality_limit st) (incumbent st)
    (pruned_treeweight st) (num_nodes st) (num_leaves st) v
    (heuristic_lp_iterations st) (sepa_lp_iterations st)
    (sb_lp_iterations st) (num_nodes_before_run st)
    (num_leaves_before_run st) (total_lp_iterations_before_run st)
    (heuristic_lp_iterations_before_run st)
    (sepa_lp_iterations_before_run st) (sb_lp_iterations_before_run st)
    (numImprovingSols st) (numRestarts st) (avgrootlpiters st)
    (integral_cols st) (integer_cols st) (implint_cols st)
    (continuous_cols st) (numintegercols st) (ARstart_ st) (ARindex_ st)
    (ARvalue_ st).

Definition set_numImprovingSols (v : Z) (st : St) : St :=
  mkHighsMipSolverData
    (mipsolver st) (world st) (feastol st) (epsilon st)
    (objectiveFunction st) (lower_bound st) (upper_bound st)
    (upper_limit st) (optimality_limit st) (incumbent st)
    (pruned_treeweight st) (num_nodes st) (num_leaves st)
    (total_lp_iterations st) (heuristic_lp_iterations st)
    (sepa_lp_iterations st) (sb_lp_iterations st) (num_nodes_before_run st)
    (num_leaves_before_run st) (total_lp_iterations_before_run st)
    (heuristic_lp_iterations_before_run st)
    (sepa_lp_iterations_before_run st) (sb_lp_iterations_before_run st) v
    (numRestarts st) (avgrootlpiters st) (integral_cols st)
    (integer_cols st) (implint_cols st) (continuous_cols st)
    (numintegercols st) (ARstart_ st) (ARindex_ st) (ARvalue_ st).

Definition set_numRestarts (v : Z) (st : St) : St :=
  mkHighsMipSolverData
    (mipsolver st) (world st) (feastol st) (epsilon st)
    (objectiveFunction st) (lower_bound st) (upper_bound st)
    (upper_limit st) (optimality_limit st) (incumbent st)
    (pruned_treeweight st) (num_nodes st) (num_leaves st)
    (total_lp_iterations st) (heuristic_lp_iterations st)
    (sepa_lp_iterations st) (sb_lp_iterations st) (num_nodes_before_run st)
    (num_leaves_before_run st) (total_lp_iterations_before_run st)
    (heuristic_lp_iterations_before_run st)
    (sepa_lp_iterations_before_run st) (sb_lp_iterations_before_run st)
    (numImprovingSols st) v (avgrootlpiters st) (integral_cols st)
    (integer_cols st) (implint_cols st) (continuous_cols st)
    (numintegercols st) (ARstart_ st) (ARindex_ st) (ARvalue_ st).

Definition set_avgrootlpiters (v : double) (st : St) : St :=
  mkHighsMipSolverData
    (mipsolver st) (world st) (feastol st) (epsilon st)
    (objectiveFunction st) (lower_bound st) (upper_bound st)
    (upper_limit st) (optimality_limit st) (incumbent st)
    (pruned_treeweight st) (num_nodes st) (num_leaves st)
    (total_lp_iterations st) (heuristic_lp_iterations st)
    (sepa_lp_iterations st) (sb_lp_iterations st) (num_nodes_before_run st)
    (num_leaves_before_run st) (total_lp_iterations_before_run st)
    (heuristic_lp_iterations_before_run st)
    (sepa_lp_iterations_before_run st) (sb_lp_iterations_before_run st)
    (numImprovingSols st) (numRestarts st) v (integral_cols st)
    (integer_cols st) (implint_cols st) (continuous_cols st)
    (numintegercols st) (ARstart_ st) (ARindex_ st) (ARvalue_ st).

Definition set_numintegercols (v : Z) (st : St) : St :=
  mkHighsMipSolverData
    (mipsolver st) (world st) (feastol st) (epsilon st)
    (objectiveFunction st) (lower_bound st) (upper_bound st)
    (upper_limit st) (optimality_limit st) (incumbent st)
    (pruned_treeweight st) (num_nodes st) (num_leaves st)
    (total_lp_iterations st) (heuristic_lp_iterations st)
    (sepa_lp_iterations st) (sb_lp_iterations st) (num_nodes_before_run st)
    (num_leaves_before_run st) (total_lp_iterations_before_run st)
    (heuristic_lp_iterations_before_run st)
    (sepa_lp_iterations_before_run st) (sb_lp_iterations_before_run st)
    (numImprovingSols st) (numRestarts st) (avgrootlpiters st)
    (integral_cols st) (integer_cols st) (implint_cols st)
    (continuous_cols st) v (ARstart_ st) (ARindex_ st) (ARvalue_ st).

Definition set_cols (integral integer implint continuous : list Z) (st : St) : St :=
  mkHighsMipSolverData
    (mipsolver st) (world st) (feastol st) (epsilon st)
    (objectiveFunction st) (lower_bound st) (upper_bound st)
    (upper_limit st) (optimality_limit st) (incumbent st)
    (pruned_treeweight st) (num_nodes st) (num_leaves st)
    (total_lp_iterations st) (heuristic_lp_iterations st)
    (sepa_lp_iterations st) (sb_lp_iterations st) (num_nodes_before_run st)
    (num_leaves_before_run st) (total_lp_iterations_before_run st)
    (heuristic_lp_iterations_before_run st)
    (sepa_lp_iterations_before_run st) (sb_lp_iterations_before_run st)
    (numImprovingSols st) (numRestarts st) (avgrootlpiters st) integral
    integer implint continuous (numintegercols st) (ARstart_ st)
    (ARindex_ st) (ARvalue_ st).

Definition set_AR (start index : list Z) (value : list double) (st : St) : St :=
  mkHighsMipSolverData
    (mipsolver st) (world st) (feastol st) (epsilon st)
    (objectiveFunction st) (lower_bound st) (upper_bound st)
    (upper_limit st) (optimality_limit st) (incumbent st)
    (pruned_treeweight st) (num_nodes st) (num_leaves st)
    (total_lp_iterations st) (heuristic_lp_iterations st)
    (sepa_lp_iterations st) (sb_lp_iterations st) (num_nodes_before_run st)
    (num_leaves_before_run st) (total_lp_iterations_before_run st)
    (heuristic_lp_iterations_before_run st)
    (sepa_lp_iterations_before_run st) (sb_lp_iterations_before_run st)
    (numImprovingSols st) (numRestarts st) (avgrootlpiters st)
    (integral_cols st) (integer_cols st) (implint_cols st)
    (continuous_cols st) (numintegercols st) start index value.

(** Lines 934-940 of [performRestart]: every counter is copied to its
    before-this-run snapshot. *)
Definition snapshot_before_run  (st : St) : St :=
  mkHighsMipSolverData
    (mipsolver st) (world st) (feastol st) (epsilon st)
    (objectiveFunction st) (lower_bound st) (upper_bound st)
    (upper_limit st) (optimality_limit st) (incumbent st)
    (pruned_treeweight st) (num_nodes st) (num_leaves st)
    (total_lp_iterations st) (heuristic_lp_iterations st)
    (sepa_lp_iterations st) (sb_lp_iterations st) (num_nodes st)
    (num_leaves st) (total_lp_iterations st) (heuristic_lp_iterations st)
    (sepa_lp_iterations st) (sb_lp_iterations st) (numImprovingSols st)
    (numRestarts st) (avgrootlpiters st) (integral_cols st)
    (integer_cols st) (implint_cols st) (continuous_cols st)
    (numintegercols st) (ARstart_ st) (ARindex_ st) (ARvalue_ st).

End Updates.

(* ================================================================== *)
(** * External collaborators                                           *)
(* ================================================================== *)

(** The methods of the collaborators that the embedded functions call.
    None of them is defined in [HighsMipSolverData.cpp]; each is an
    uninterpreted function of the collaborator state [World] (and of the
    solver data where the source passes [mipsolver]).  Collaborators act
    on their own state only. *)
Record Collaborators (World : Type) : Type := mkCollaborators {
  (** [std::nextafter], which has no counterpart in exact arithmetic. *)
  std_nextafter : double -> double -> double;
  (** [postSolveStack.undoPrimal] on the column values and
      [postSolveStack.getReducedPrimalSolution]. *)
  undoPrimal : World -> list double -> list double;
  getReducedPrimalSolution : World -> list double -> list double;
  (** [calculateRowValuesQuad(lp, solution)]: the row values. *)
  calculateRowValuesQuad : HighsLp -> list double -> list double;
  (** The throw-away [Highs] instance of the repair step: given the
      fixed model and the primal feasibility tolerance, whether
      [primal_solution_status == kSolutionStatusFeasible], and
      [getSolution()]. *)
  tmpSolver_run : HighsLp -> double -> bool * HighsSolution;
  (** [highsSparseTranspose] on a column-wise matrix. *)
  highsSparseTranspose :
    Z -> Z -> HighsSparseMatrix -> list Z * list Z * list double;
  (** [objectiveFunction.checkIntegrality(epsilon)]. *)
  checkIntegrality : HighsLp -> double -> HighsObjectiveFunction;
  (** User callback and timer. *)
  callbackActive : World -> CallbackType -> bool;
  callbackAction : World -> CallbackType -> bool;
  timer_read : World -> double;
  (** Domain propagation. *)
  domain_propagate : World -> World;
  domain_infeasible : World -> bool;
  domain_changedCols_empty : World -> bool;
  domain_isFixed : World -> Z -> bool;
  (** Symmetry: whether [globalOrbits] is set, and
      [globalOrbits->orbitalFixing(domain)]. *)
  globalOrbits_set : World -> bool;
  orbitalFixing : World -> World;
  globalOrbits_reset : World -> World;
  (** LP relaxation. *)
  lp_flushDomain : World -> World;
  lp_solver_modelstatus_notset : World -> bool;
  lp_getNumLpIterations : World -> Z;
  lp_resolveLp : World -> Status.t * World;
  lp_getAvgSolveIters : World -> double;
  lp_getFractionalIntegers_empty : World -> bool;
  lp_solution_col_value : World -> list double;
  lp_getObjective : World -> double;
  lp_getStatus : World -> Status.t;
  lp_unscaledDualFeasible : World -> Status.t -> bool;
  (** Reduced-cost fixing and the clique table, called with [mipsolver]. *)
  addRootRedcost : HighsMipSolverData World -> World;
  propagateRootRedcost : HighsMipSolverData World -> World;
  extractObjCliques : HighsMipSolverData World -> World;
  (** Node queue. *)
  nodequeue_setOptimalityLimit : double -> World -> World;
  nodequeue_clear : World -> World;
  nodequeue_performBounding : double -> World -> double * World;
  (** Restart: the bookkeeping of [performRestart] outside the solver
      data (pseudocost initialisation, cuts folded into the model, the
      root basis expanded to the original space), [presolve.run], which
      yields the model status and the presolved model, and its undoing
      ([removeCutsFromModel], the pointers reset). *)
  restart_prepare : HighsMipSolverData World -> World;
  presolve_run : HighsMipSolverData World -> HighsModelStatus * HighsLp * World;
  restart_finish : HighsMipSolverData World -> World;
  (** The parts of [runSetup] that set up collaborators: lines 474-476
      (reduced-cost fixing, pseudocost, node queue size), lines 490-554
      (locks, row integrality, clique partition, objective propagation,
      row activities) and lines 571-582 and 625-676 (implications, LP
      options, basis transfer, heuristics, analytic centre,
      symmetries). *)
  setup_collaborators : HighsMipSolverData World -> World;
  setup_rows : HighsMipSolverData World -> World;
  setup_finish : HighsMipSolverData World -> World
}.

Arguments std_nextafter {World}.
Arguments undoPrimal {World}.
Arguments getReducedPrimalSolution {World}.
Arguments calculateRowValuesQuad {World}.
Arguments tmpSolver_run {World}.
Arguments highsSparseTranspose {World}.
Arguments checkIntegrality {World}.
Arguments callbackActive {World}.
Arguments callbackAction {World}.
Arguments timer_read {World}.
Arguments domain_propagate {World}.
Arguments domain_infeasible {World}.
Arguments domain_changedCols_empty {World}.
Arguments domain_isFixed {World}.
Arguments globalOrbits_set {World}.
Arguments orbitalFixing {World}.
Arguments globalOrbits_reset {World}.
Arguments lp_flushDomain {World}.
Arguments lp_solver_modelstatus_notset {World}.
Arguments lp_getNumLpIterations {World}.
Arguments lp_resolveLp {World}.
Arguments lp_getAvgSolveIters {World}.
Arguments lp_getFractionalIntegers_empty {World}.
Arguments lp_solution_col_value {World}.
Arguments lp_getObjective {World}.
Arguments lp_getStatus {World}.
Arguments lp_unscaledDualFeasible {World}.
Arguments addRootRedcost {World}.
Arguments propagateRootRedcost {World}.
Arguments extractObjCliques {World}.
Arguments nodequeue_setOptimalityLimit {World}.
Arguments nodequeue_clear {World}.
Arguments nodequeue_performBounding {World}.
Arguments restart_prepare {World}.
Arguments presolve_run {World}.
Arguments restart_finish {World}.
Arguments setup_collaborators {World}.
Arguments setup_rows {World}.
Arguments setup_finish {World}.

(** Reads.  [vread] is a checked read of [v[i]]: [None] stands for a read
    outside the vector.  [vget] is the same read with a default for the
    functions whose callers guarantee the dimensions. *)
Definition vread {A : Type} (v : list A) (i : Z) : option A :=
  if (i <? 0)%Z then None else nth_error v (Z.to_nat i).

Definition vget {A : Type} (d : A) (v : list A) (i : Z) : A :=
  match vread v i with Some a => a | None => d end.

(** Indices [0, 1, ..., n-1] of a [for (i = 0; i != n; ++i)] loop. *)
Definition indices (n : Z) : list Z :=
  map Z.of_nat (seq 0 (Z.to_nat n)).

Notation "'do' x <- e ; k" :=
  (match e with Some x => k | None => None end)
  (at level 10, x name, e at level 100, k at level 200).

(* ================================================================== *)
(** * The embedded functions                                           *)
(* ================================================================== *)

Section Model.
Context {World : Type} (C : Collaborators World).
Abbreviation St := (HighsMipSolverData World).

(** ** [limitsToBounds] (lines 1937-1967)

    The three reference parameters are returned as a triple
    [(dual_bound, primal_bound, mip_rel_gap)]. *)
Definition limitsToBounds (st : St) : double * double * double :=
  let model := model_ (mipsolver st) in
  let orig_model := orig_model_ (mipsolver st) in
  let offset := offset_ model in
  let dual_bound := (lower_bound st + offset)%D in
  let dual_bound :=
    if (dabs dual_bound <=? epsilon st)%D then d0 else dual_bound in
  let primal_bound := kHighsInf in
  let mip_rel_gap := kHighsInf in
  let '(dual_bound, primal_bound, mip_rel_gap) :=
    if (upper_bound st !=? kHighsInf)%D then
      let primal_bound := (upper_bound st + offset)%D in
      let primal_bound :=
        if (dabs primal_bound <=? epsilon st)%D then d0 else primal_bound in
      let dual_bound := std_min dual_bound primal_bound in
      let mip_rel_gap :=
        if (primal_bound ==? d0)%D
        then (if (dual_bound ==? d0)%D then d0 else kHighsInf)
        else (d100 * (primal_bound - dual_bound) / dabs primal_bound)%D in
      (dual_bound, primal_bound, mip_rel_gap)
    else (dual_bound, primal_bound, mip_rel_gap) in
  let primal_bound :=
    std_min (objective_bound (options_mip_ (mipsolver st))) primal_bound in
  if is_kMaximize (sense_ orig_model)
  then ((- dual_bound)%D, (- primal_bound)%D, mip_rel_gap)
  else (dual_bound, primal_bound, mip_rel_gap).

(** ** [interruptFromCallbackWithData] (lines 1973-1994)

    The values written to [callback_->data_out] (among them the result of
    [limitsToBounds]) are read by the user callback only. *)
Definition interruptFromCallbackWithData (st : St)
    (callback_type : CallbackType) (mipsolver_objective_value : double)
  : bool :=
  if negb (callbackActive C (world st) callback_type) then false
  else callbackAction C (world st) callback_type.

(** ** [checkLimits] (lines 1771-1860)

    The method is [const] for the solver data; what it writes is
    [mipsolver.modelstatus_].  [nodeOffset] defaults to [0] in the
    declaration.

    Every branch that reports a limit has the same shape: the model
    status is written if it is still [kNotset], and [true] is returned. *)
Definition limit_reached (s : HighsModelStatus) (st : St) : bool * St :=
  if HighsModelStatus_eqb (modelstatus_ (mipsolver st)) kNotset
  then (true, set_mipsolver (set_modelstatus_ s (mipsolver st)) st)
  else (true, st).

Definition checkLimits (st : St) (nodeOffset : Z) : bool * St :=
  let ms := mipsolver st in
  let options := options_mip_ ms in
  if negb (submip ms) && user_callback (callback_ ms)
     && interruptFromCallbackWithData st kCallbackMipInterrupt
          (solution_objective_ ms)
  then limit_reached kInterrupt st
  else
  let int_sense := of_Z (int_of_sense (sense_ (orig_model_ ms))) in
  if negb (submip ms)
     && (solution_objective_ ms <? kHighsInf)%D
     && (objective_target options >? - kHighsInf)%D
     && (int_sense * solution_objective_ ms
         <? int_sense * objective_target options)%D
  then limit_reached kObjectiveTarget st
  else
  if negb (mip_max_nodes options =? kHighsIInf)%Z
     && (num_nodes st + nodeOffset >=? mip_max_nodes options)%Z
  then limit_reached kSolutionLimit st
  else
  if negb (mip_max_leaves options =? kHighsIInf)%Z
     && (num_leaves st >=? mip_max_leaves options)%Z
  then limit_reached kSolutionLimit st
  else
  if negb (mip_max_improving_sols options =? kHighsIInf)%Z
     && (numImprovingSols st >=? mip_max_improving_sols options)%Z
  then limit_reached kSolutionLimit st
  else
  if (timer_read C (world st) >=? time_limit options)%D
  then limit_reached kTimeLimit st
  else (false, st).

(** ** [computeNewUpperLimit] (lines 206-245) *)
Definition computeNewUpperLimit (st : St) (ub mip_abs_gap mip_rel_gap : double)
  : double :=
  let scale := integralScale (objectiveFunction st) in
  let offset := offset_ (model_ (mipsolver st)) in
  if isIntegral (objectiveFunction st) then
    let new_upper_limit := (dfloor (scale * ub - dhalf) / scale)%D in
    let new_upper_limit :=
      if (mip_rel_gap !=? d0)%D then
        std_min new_upper_limit
          (ub - dceil (mip_rel_gap * dabs (ub + offset) * scale - epsilon st)
                / scale)%D
      else new_upper_limit in
    let new_upper_limit :=
      if (mip_abs_gap !=? d0)%D then
        std_min new_upper_limit
          (ub - dceil (mip_abs_gap * scale - epsilon st) / scale)%D
      else new_upper_limit in
    (new_upper_limit + feastol st)%D
  else
    let new_upper_limit :=
      std_min (ub - feastol st)%D (std_nextafter C ub (- kHighsInf)%D) in
    let new_upper_limit :=
      if (mip_rel_gap !=? d0)%D then
        std_min new_upper_limit (ub - mip_rel_gap * dabs (ub + offset))%D
      else new_upper_limit in
    let new_upper_limit :=
      if (mip_abs_gap !=? d0)%D then
        std_min new_upper_limit (ub - mip_abs_gap)%D
      else new_upper_limit in
    new_upper_limit.

(** ** [solutionColFeasible] (lines 24-39)

    The result is [None] if a vector is read outside its bounds,
    [Some None] for [return false] ([obj] is left alone) and
    [Some (Some obj)] for [return true] with [obj] written.
    [mipsolver.variableType(i)] and [mipsolver.colCost(i)] read
    [model_->integrality_[i]] and [model_->col_cost_[i]]. *)
Fixpoint solutionColFeasible_loop (st : St) (solution : list double)
    (iters : list Z) (cdouble_obj : double) : option (option double) :=
  let model := model_ (mipsolver st) in
  match iters with
  | [] => Some (Some cdouble_obj)
  | i :: rest =>
      do s <- vread solution i;
      do lo <- vread (col_lower_ model) i;
      if (s <? lo - feastol st)%D then Some None else
      do up <- vread (col_upper_ model) i;
      if (s >? up + feastol st)%D then Some None else
      do ty <- vread (integrality_ model) i;
      if is_kInteger ty && (dabs (s - dfloor (s + dhalf)) >? feastol st)%D
      then Some None else
      do c <- vread (col_cost_ model) i;
      solutionColFeasible_loop st solution rest (cdouble_obj + c * s)%D
  end.

Definition solutionColFeasible (st : St) (solution : list double)
  : option (option double) :=
  let model := model_ (mipsolver st) in
  if negb (Z.of_nat (length solution) =? num_col_ model)%Z then Some None
  else solutionColFeasible_loop st solution (indices (num_col_ model)) d0.

(** ** [solutionRowFeasible] (lines 41-56)

    [mipsolver.rowUpper(i)] and [mipsolver.rowLower(i)] read
    [model_->row_upper_[i]] and [model_->row_lower_[i]].  An inner loop
    that starts beyond its end runs off the vectors. *)
Fixpoint rowactivity_loop (st : St) (solution : list double)
    (iters : list Z) (rowactivity : double) : option double :=
  match iters with
  | [] => Some rowactivity
  | j :: rest =>
      do idx <- vread (ARindex_ st) j;
      do s <- vread solution idx;
      do v <- vread (ARvalue_ st) j;
      rowactivity_loop st solution rest (rowactivity + s * v)%D
  end.

Fixpoint solutionRowFeasible_loop (st : St) (solution : list double)
    (iters : list Z) : option bool :=
  let model := model_ (mipsolver st) in
  match iters with
  | [] => Some true
  | i :: rest =>
      do start <- vread (ARstart_ st) i;
      do end_ <- vread (ARstart_ st) (i + 1);
      if (end_ <? start)%Z then None else
      do rowactivity <-
        rowactivity_loop st solution
          (map (Z.add start) (indices (end_ - start))) d0;
      do up <- vread (row_upper_ model) i;
      if (rowactivity >? up + feastol st)%D then Some false else
      do lo <- vread (row_lower_ model) i;
      if (rowactivity <? lo - feastol st)%D then Some false else
      solutionRowFeasible_loop st solution rest
  end.

Definition solutionRowFeasible (st : St) (solution : list double)
  : option bool :=
  let model := model_ (mipsolver st) in
  if (num_row_ model <? 0)%Z then None
  else solutionRowFeasible_loop st solution (indices (num_row_ model)).

(** ** [checkSolution] (lines 58-63) *)
Definition checkSolution (st : St) (solution : list double) : option bool :=
  do r <- solutionColFeasible st solution;
  match r with
  | None => Some false
  | Some obj => solutionRowFeasible st solution
  end.

(** ** [transformNewIntegerFeasibleSolution] (lines 679-918) *)

(** The violations measured by one pass over the columns and rows of the
    original model (lines 697-783), with the objective value summed in
    the same pass.  The indices [check_col], [check_int] and [check_row]
    only feed the log message and are left out. *)
Record Violations : Type := mkViolations {
  v_bound_violation_ : double;
  v_row_violation_ : double;
  v_integrality_violation_ : double;
  v_objective_value : double
}.

(** One iteration of the column loop (lines 715-754) on
    [(objective, integrality_violation_, bound_violation_)]. *)
Definition column_step (orig : HighsLp) (options : HighsOptions)
    (solution : HighsSolution) (acc : double * double * double) (i : Z)
  : double * double * double :=
  let '(objective, integrality_violation, bound_violation) := acc in
  let tol := mip_feasibility_tolerance options in
  let value := vget NaN (col_value solution) i in
  let objective := (objective + vget NaN (col_cost_ orig) i * value)%D in
  let integrality_violation :=
    if is_kInteger (vget kContinuous (integrality_ orig) i) then
      let intval := dfloor (value + dhalf)%D in
      let integrality_infeasibility := dabs (intval - value)%D in
      std_max integrality_infeasibility integrality_violation
    else integrality_violation in
  let lower := vget NaN (col_lower_ orig) i in
  let upper := vget NaN (col_upper_ orig) i in
  if (value <? lower - tol)%D then
    (objective, integrality_violation,
     std_max bound_violation (lower - value)%D)
  else if (value >? upper + tol)%D then
    (objective, integrality_violation,
     std_max bound_violation (value - upper)%D)
  else (objective, integrality_violation, bound_violation).

(** One iteration of the row loop (lines 756-777) on [row_violation_]. *)
Definition row_step (orig : HighsLp) (options : HighsOptions)
    (solution : HighsSolution) (row_violation : double) (i : Z) : double :=
  let tol := mip_feasibility_tolerance options in
  let value := vget NaN (row_value solution) i in
  let lower := vget NaN (row_lower_ orig) i in
  let upper := vget NaN (row_upper_ orig) i in
  if (value <? lower - tol)%D then std_max row_violation (lower - value)%D
  else if (value >? upper + tol)%D then
    std_max row_violation (value - upper)%D
  else row_violation.

Definition measure_violations (orig : HighsLp) (options : HighsOptions)
    (solution : HighsSolution) : Violations :=
  let '(objective, integrality_violation, bound_violation) :=
    fold_left (column_step orig options solution) (indices (num_col_ orig))
      (offset_ orig, d0, d0) in
  let row_violation :=
    fold_left (row_step orig options solution) (indices (num_row_ orig)) d0 in
  mkViolations bound_violation row_violation integrality_violation objective.

(** Lines 779-783. *)
Definition violations_feasible (options : HighsOptions) (v : Violations)
  : bool :=
  (v_bound_violation_ v <=? mip_feasibility_tolerance options)%D
  && (v_integrality_violation_ v <=? mip_feasibility_tolerance options)%D
  && (v_row_violation_ v <=? mip_feasibility_tolerance options)%D.

(** [v[i] = a]; nothing is written outside the vector. *)
Fixpoint list_set {A : Type} (v : list A) (n : nat) (a : A) : list A :=
  match v, n with
  | [], _ => []
  | _ :: t, O => a :: t
  | h :: t, S n' => h :: list_set t n' a
  end.

Definition vset {A : Type} (v : list A) (i : Z) (a : A) : list A :=
  if (i <? 0)%Z then v else list_set v (Z.to_nat i) a.

(** The model handed to the repair LP (lines 790-798): integrality is
    dropped and every integer column is fixed to its rounded value. *)
Definition fix_column (orig : HighsLp) (solution : HighsSolution)
    (fixedModel : HighsLp) (i : Z) : HighsLp :=
  if is_kInteger (vget kContinuous (integrality_ orig) i) then
    let solval := dround (vget NaN (col_value solution) i) in
    let lower := vset (col_lower_ fixedModel) i
                   (std_max (vget NaN (col_lower_ fixedModel) i) solval) in
    let upper := vset (col_upper_ fixedModel) i
                   (std_min (vget NaN (col_upper_ fixedModel) i) solval) in
    mkHighsLp (num_col_ fixedModel) (num_row_ fixedModel)
      (a_matrix_ fixedModel) (col_cost_ fixedModel) lower upper
      (row_lower_ fixedModel) (row_upper_ fixedModel)
      (integrality_ fixedModel) (offset_ fixedModel) (sense_ fixedModel)
  else fixedModel.

Definition make_fixedModel (orig : HighsLp) (solution : HighsSolution)
  : HighsLp :=
  let cleared :=
    mkHighsLp (num_col_ orig) (num_row_ orig) (a_matrix_ orig)
      (col_cost_ orig) (col_lower_ orig) (col_upper_ orig)
      (row_lower_ orig) (row_upper_ orig) [] (offset_ orig) (sense_ orig) in
  fold_left (fix_column orig solution) (indices (num_col_ orig)) cleared.

(** The column bounds that [fix_column] leaves for column [j]. *)
Definition fixed_lower (orig : HighsLp) (solution : HighsSolution)
    (lower : list double) (j : Z) : double :=
  if is_kInteger (vget kContinuous (integrality_ orig) j)
  then std_max (vget NaN lower j) (dround (vget NaN (col_value solution) j))
  else vget NaN lower j.

Definition fixed_upper (orig : HighsLp) (solution : HighsSolution)
    (upper : list double) (j : Z) : double :=
  if is_kInteger (vget kContinuous (integrality_ orig) j)
  then std_min (vget NaN upper j) (dround (vget NaN (col_value solution) j))
  else vget NaN upper j.

(** What the code below the label [try_again] leaves behind when control
    falls through line 813: the solution and the violations of the last
    pass, and two ghost counters, the number of passes over the label
    and the number of runs of the repair LP. *)
Record TryAgain : Type := mkTryAgain {
  ta_solution : HighsSolution;
  ta_violations : Violations;
  ta_passes : nat;
  ta_repairs : nat
}.

Definition inspect {A : Type} (a : A) : {b : A | a = b} :=
  exist _ a eq_refl.

(** Lines 694-813: the label [try_again], the violation pass and the
    backward jump guarded by [allow_try_again].  The jump is the
    recursive call; it is taken with [allow_try_again = false] from a
    pass in which [allow_try_again] holds, which is what makes the
    recursion well founded. *)
Equations? try_again (orig : HighsLp) (options : HighsOptions)
    (solution : HighsSolution) (allow_try_again : bool)
    (passes repairs : nat) : TryAgain
    by wf (Nat.b2n allow_try_again) lt :=
try_again orig options solution allow_try_again passes repairs
    with inspect (negb (violations_feasible options
                          (measure_violations orig options solution))
                  && allow_try_again) := {
  | exist _ true Hjump
      with inspect (tmpSolver_run C (make_fixedModel orig solution)
                      (mip_feasibility_tolerance options)) := {
      | exist _ (true, repaired) _ =>
          try_again orig options repaired false (S passes) (S repairs)
      | exist _ (false, _) _ =>
          mkTryAgain solution (measure_violations orig options solution)
            (S passes) (S repairs) }
  | exist _ false _ =>
      mkTryAgain solution (measure_violations orig options solution)
        (S passes) repairs }.
Proof.
  destruct allow_try_again; simpl; [lia|].
  rewrite andb_false_r in Hjump. discriminate.
Qed.

(** Whether the incumbent stored in [mipsolver] is feasible (lines
    843-850). *)
Definition currentFeasible (ms : HighsMipSolver) : bool :=
  let tol := mip_feasibility_tolerance (options_mip_ ms) in
  (solution_objective_ ms !=? kHighsInf)%D
  && (bound_violation_ ms <=? tol)%D
  && (integrality_violation_ ms <=? tol)%D
  && (row_violation_ ms <=? tol)%D.

(** The solution after primal postsolve and the row activities (lines
    682-693). *)
Definition postsolved_solution (st : St) (sol : list double)
  : HighsSolution :=
  let col := undoPrimal C (world st) sol in
  mkHighsSolution true col
    (calculateRowValuesQuad C (orig_model_ (mipsolver st)) col).

(** The MIP-solution callback of lines 820-827 only reads the solution;
    its result is asserted to be false. *)
Definition transformNewIntegerFeasibleSolution (st : St) (sol : list double)
    (possibly_store_as_new_incumbent : bool) : double * St :=
  let ms := mipsolver st in
  let orig := orig_model_ ms in
  let options := options_mip_ ms in
  let out := try_again orig options (postsolved_solution st sol) true 0 0 in
  let solution := ta_solution out in
  let v := ta_violations out in
  let feasible := violations_feasible options v in
  let mipsolver_quad_precision_objective_value := v_objective_value v in
  let mipsolver_objective_value := mipsolver_quad_precision_objective_value in
  let store :=
    store_solution (v_row_violation_ v) (v_bound_violation_ v)
      (v_integrality_violation_ v) (col_value solution)
      mipsolver_objective_value in
  let transformed (st' : St) : double * St :=
    if is_kMaximize (sense_ orig) then
      ((- (mipsolver_quad_precision_objective_value
           + offset_ (model_ ms)))%D, st')
    else
      ((mipsolver_quad_precision_objective_value - offset_ (model_ ms))%D,
       st') in
  if possibly_store_as_new_incumbent then
    if feasible then transformed (set_mipsolver (store ms) st)
    else
      if negb (currentFeasible ms)
      then (kHighsInf, set_mipsolver (store ms) st)
      else (kHighsInf, st)
  else transformed st.

(** ** [addIncumbent] (lines 1048-1110)

    [saveReportMipSolution] (line 1080), [debugSolution] and
    [printDisplayLine] report; they write none of the modelled fields. *)
Definition addIncumbent (st : St) (sol : list double) (solobj : double)
    (solution_source : SolutionSource) : bool * St :=
  let ms := mipsolver st in
  let execute_mip_solution_callback :=
    negb (submip ms)
    && (if user_callback (callback_ ms)
        then active (callback_ ms) kCallbackMipSolution else false) in
  let possibly_store_as_new_incumbent := (solobj <? upper_bound st)%D in
  let get_transformed_solution :=
    possibly_store_as_new_incumbent || execute_mip_solution_callback in
  let '(transformed_solobj, st) :=
    if get_transformed_solution
    then transformNewIntegerFeasibleSolution st sol
           possibly_store_as_new_incumbent
    else (d0, st) in
  if possibly_store_as_new_incumbent then
    let solobj := transformed_solobj in
    if (solobj >=? upper_bound st)%D then (false, st) else
    let st := set_upper_bound solobj st in
    let st := set_incumbent sol st in
    let new_upper_limit := computeNewUpperLimit st solobj d0 d0 in
    if (new_upper_limit <? upper_limit st)%D then
      let st := set_numImprovingSols (numImprovingSols st + 1)%Z st in
      let st := set_upper_limit new_upper_limit st in
      let st :=
        set_optimality_limit
          (computeNewUpperLimit st solobj
             (mip_abs_gap (options_mip_ (mipsolver st)))
             (mip_rel_gap (options_mip_ (mipsolver st)))) st in
      let st :=
        set_world
          (nodequeue_setOptimalityLimit C (optimality_limit st) (world st))
          st in
      let st := set_world (domain_propagate C (world st)) st in
      let st :=
        if negb (domain_infeasible C (world st))
        then set_world (propagateRootRedcost C st) st else st in
      if domain_infeasible C (world st) then
        (true,
         set_world (nodequeue_clear C (world st))
           (set_pruned_treeweight d1 st))
      else
      let st := set_world (extractObjCliques C st) st in
      if domain_infeasible C (world st) then
        (true,
         set_world (nodequeue_clear C (world st))
           (set_pruned_treeweight d1 st))
      else
      let '(pruned, w) :=
        nodequeue_performBounding C (upper_limit st) (world st) in
      (true,
       set_world w
         (set_pruned_treeweight (pruned_treeweight st + pruned)%D st))
    else (true, st)
  else
    match incumbent st with
    | [] => (true, set_incumbent sol st)
    | _ :: _ => (true, st)
    end.

(** ** [trySolution] (lines 65-71) *)
Definition trySolution (st : St) (solution : list double)
    (solution_source : SolutionSource) : option (bool * St) :=
  do r <- solutionColFeasible st solution;
  match r with
  | None => Some (false, st)
  | Some obj =>
      do rows <- solutionRowFeasible st solution;
      if negb rows then Some (false, st)
      else Some (addIncumbent st solution obj solution_source)
  end.

(** ** [removeFixedIndices] (lines 311-328) *)
Definition removeFixedIndices (st : St) : St :=
  let keep := filter (fun col => negb (domain_isFixed C (world st) col)) in
  set_cols (keep (integral_cols st)) (keep (integer_cols st))
    (keep (implint_cols st)) (keep (continuous_cols st)) st.

(** ** [evaluateRootLp] (lines 1323-1410) *)

(** The three assignments that count the root as an explored leaf
    ([pruned_treeweight = 1.0; num_nodes += 1; num_leaves += 1]). *)
Definition count_leaf (st : St) : St :=
  set_num_leaves (num_leaves st + 1)%Z
    (set_num_nodes (num_nodes st + 1)%Z (set_pruned_treeweight d1 st)).

(** Lines 1382-1408: the tail of the loop body, after the LP status is
    known.  [Some status] is a [return], [None] goes round the loop. *)
Definition evaluateRootLp_tail (st : St) (status : Status.t)
    (lpWasSolved : bool) : St * option Status.t :=
  if Status.eqb status Status.kInfeasible then
    (count_leaf (set_lower_bound (std_min kHighsInf (upper_bound st)) st),
     Some status)
  else
  let st :=
    if lp_unscaledDualFeasible C (world st) (lp_getStatus C (world st)) then
      let st :=
        set_lower_bound
          (std_max (lp_getObjective C (world st)) (lower_bound st)) st in
      if lpWasSolved then
        let st := set_world (addRootRedcost C st) st in
        if (upper_limit st !=? kHighsInf)%D
        then set_world (propagateRootRedcost C st) st else st
      else st
    else st in
  if (lower_bound st >? optimality_limit st)%D then
    (count_leaf st, Some Status.kInfeasible)
  else if domain_changedCols_empty C (world st) then (st, Some status)
  else (st, None).

(** Lines 1325-1328: propagation and orbital fixing. *)
Definition evaluateRootLp_propagate (st : St) : St :=
  let st := set_world (domain_propagate C (world st)) st in
  if globalOrbits_set C (world st) && negb (domain_infeasible C (world st))
  then set_world (orbitalFixing C (world st)) st else st.

(** Lines 1338-1343: [lpBoundsChanged], and the changed bounds flushed
    to the LP. *)
Definition evaluateRootLp_flush (st : St) : bool * St :=
  if negb (domain_changedCols_empty C (world st)) then
    let st := removeFixedIndices st in
    (true, set_world (lp_flushDomain C (world st)) st)
  else (false, st).

(** Lines 1349-1354: the LP is solved again and its iterations are
    counted. *)
Definition evaluateRootLp_resolve (st : St) : Status.t * St :=
  let lpIters := (- lp_getNumLpIterations C (world st))%Z in
  let '(status, w) := lp_resolveLp C (world st) in
  let st := set_world w st in
  let lpIters := (lpIters + lp_getNumLpIterations C (world st))%Z in
  let st := set_total_lp_iterations (total_lp_iterations st + lpIters)%Z st in
  (status, set_avgrootlpiters (lp_getAvgSolveIters C (world st)) st).

(** Lines 1356-1366: the LP is unbounded. *)
Definition evaluateRootLp_unbounded (st : St) : St :=
  let ms := mipsolver st in
  let st :=
    match solution_ ms with
    | [] => set_mipsolver (set_modelstatus_ kUnboundedOrInfeasible ms) st
    | _ :: _ => set_mipsolver (set_modelstatus_ kUnbounded ms) st
    end in
  count_leaf st.

(** One pass through the body of the [do ... while (true)] loop. *)
Definition evaluateRootLp_body (st : St) : St * option Status.t :=
  let st := evaluateRootLp_propagate st in
  if domain_infeasible C (world st) then
    (count_leaf (set_lower_bound (std_min kHighsInf (upper_bound st)) st),
     Some Status.kInfeasible)
  else
  let '(lpBoundsChanged, st) := evaluateRootLp_flush st in
  if lpBoundsChanged || lp_solver_modelstatus_notset C (world st) then
    let '(status, st) := evaluateRootLp_resolve st in
    if Status.eqb status Status.kUnbounded then
      (evaluateRootLp_unbounded st, Some status)
    else
    if Status.eqb status Status.kOptimal
       && lp_getFractionalIntegers_empty C (world st)
    then
      let '(added, st) :=
        addIncumbent st (lp_solution_col_value C (world st))
          (lp_getObjective C (world st)) kSolutionSourceEvaluateNode in
      if added then
        let st := set_mipsolver (set_modelstatus_ kOptimal (mipsolver st)) st in
        let st := set_lower_bound (upper_bound st) st in
        (count_leaf st, Some Status.kInfeasible)
      else evaluateRootLp_tail st status true
    else evaluateRootLp_tail st status true
  else evaluateRootLp_tail st (lp_getStatus C (world st)) false.

(** The loop: [None] when [fuel] passes do not reach a [return]. *)
Fixpoint evaluateRootLp (fuel : nat) (st : St) : option (Status.t * St) :=
  match fuel with
  | O => None
  | S fuel' =>
      match evaluateRootLp_body st with
      | (st', Some status) => Some (status, st')
      | (st', None) => evaluateRootLp fuel' st'
      end
  end.

(** ** [runPresolve] (lines 386-405)

    [presolve.run] gives the model status; it also leaves the presolved
    model in [mipsolver.model_]. *)
Definition runPresolve (st : St) : St :=
  let '(status, presolved, w) := presolve_run C st in
  set_world w
    (set_mipsolver
       (set_modelstatus_ status (set_model_ presolved (mipsolver st))) st).

(** ** [runSetup] (lines 407-677) *)

(** Lines 429-458: a solution kept in the original space bounds the new
    run if it is feasible. *)
Definition runSetup_start_solution (st : St) : St :=
  let ms := mipsolver st in
  let tol := mip_feasibility_tolerance (options_mip_ ms) in
  if (solution_objective_ ms !=? kHighsInf)%D then
    let st :=
      set_incumbent (getReducedPrimalSolution C (world st) (solution_ ms))
        st in
    let solobj :=
      (solution_objective_ ms * of_Z (int_of_sense (sense_ (orig_model_ ms)))
       - offset_ (model_ ms))%D in
    let feasible :=
      (bound_violation_ ms <=? tol)%D
      && (integrality_violation_ ms <=? tol)%D
      && (row_violation_ ms <=? tol)%D in
    if feasible && (solobj <? upper_bound st)%D then
      let st := set_upper_bound solobj st in
      let new_upper_limit := computeNewUpperLimit st solobj d0 d0 in
      if (new_upper_limit <? upper_limit st)%D then
        let st := set_upper_limit new_upper_limit st in
        let st :=
          set_optimality_limit
            (computeNewUpperLimit st solobj (mip_abs_gap (options_mip_ ms))
               (mip_rel_gap (options_mip_ ms))) st in
        set_world
          (nodequeue_setOptimalityLimit C (optimality_limit st) (world st))
          st
      else st
    else st
  else st.

(** Lines 586-623: the columns are sorted by type; [None] is the
    [std::logic_error] thrown for a semi-continuous or semi-integer
    column. *)
Fixpoint classify_columns (model : HighsLp) (iters : list Z)
    (integral integer implint continuous : list Z)
  : option (list Z * list Z * list Z * list Z) :=
  match iters with
  | [] => Some (integral, integer, implint, continuous)
  | i :: rest =>
      match vget kContinuous (integrality_ model) i with
      | kContinuous =>
          classify_columns model rest integral integer implint
            (continuous ++ [i])
      | kImplicitInteger =>
          classify_columns model rest (integral ++ [i]) integer
            (implint ++ [i]) continuous
      | kInteger =>
          classify_columns model rest (integral ++ [i]) (integer ++ [i])
            implint continuous
      | kSemiContinuous | kSemiInteger => None
      end
  end.

Definition runSetup (st : St) : option St :=
  let model := model_ (mipsolver st) in
  let off := offset_ model in
  (* lines 413-416 *)
  let st := set_upper_limit (upper_limit st - off)%D st in
  let st := set_optimality_limit (optimality_limit st - off)%D st in
  let st := set_lower_bound (lower_bound st - off)%D st in
  let st := set_upper_bound (upper_bound st - off)%D st in
  let st := runSetup_start_solution st in
  (* lines 471-472 *)
  let st :=
    if (num_col_ model =? 0)%Z
    then snd (addIncumbent st [] d0 kSolutionSourceEmptyMip) else st in
  (* lines 474-482 *)
  let st := set_world (setup_collaborators C st) st in
  let st :=
    set_world
      (nodequeue_setOptimalityLimit C (optimality_limit st) (world st)) st in
  let st := set_cols [] [] [] [] st in
  (* lines 484-555 *)
  let '(start, index, value) :=
    highsSparseTranspose C (num_row_ model) (num_col_ model)
      (a_matrix_ model) in
  let st := set_AR start index value st in
  let st := set_world (setup_rows C st) st in
  let st := set_world (domain_propagate C (world st)) st in
  if domain_infeasible C (world st) then
    Some
      (set_pruned_treeweight d1
         (set_lower_bound kHighsInf
            (set_mipsolver (set_modelstatus_ kInfeasible (mipsolver st)) st)))
  else if (num_col_ model =? 0)%Z then
    Some (set_mipsolver (set_modelstatus_ kOptimal (mipsolver st)) st)
  else
  let '(stop, st) := checkLimits st 0 in
  if stop then Some st else
  (* lines 580-627 *)
  let st :=
    set_objectiveFunction (checkIntegrality C model (epsilon st)) st in
  do cols <- classify_columns model (indices (num_col_ model)) [] [] [] [];
  let '(integral, integer, implint, continuous) := cols in
  let st := set_cols integral integer implint continuous st in
  let st := set_numintegercols (Z.of_nat (length integer)) st in
  Some (set_world (setup_finish C st) st).

(** ** [performRestart] (lines 926-1017)

    The call of line 996 leaves [possibly_store_as_new_incumbent] to its
    default, [true], given in the declaration of the method. *)
Definition performRestart (st : St) : option St :=
  let st := set_numRestarts (numRestarts st + 1)%Z st in
  let st := snapshot_before_run st in
  let st := set_world (restart_prepare C st) st in
  (* lines 975-978 *)
  let off := offset_ (model_ (mipsolver st)) in
  let st := set_upper_limit (upper_limit st + off)%D st in
  let st := set_optimality_limit (optimality_limit st + off)%D st in
  let st := set_upper_bound (upper_bound st + off)%D st in
  let st := set_lower_bound (lower_bound st + off)%D st in
  (* lines 982-985 *)
  let st := set_incumbent [] st in
  let st := set_pruned_treeweight d0 st in
  let st := set_world (nodequeue_clear C (world st)) st in
  let st := set_world (globalOrbits_reset C (world st)) st in
  let st := runPresolve st in
  if negb (HighsModelStatus_eqb (modelstatus_ (mipsolver st)) kNotset) then
    let off := offset_ (model_ (mipsolver st)) in
    let st := set_upper_limit (upper_limit st - off)%D st in
    let st := set_optimality_limit (optimality_limit st - off)%D st in
    let st :=
      if HighsModelStatus_eqb (modelstatus_ (mipsolver st)) kOptimal then
        let st := set_upper_bound d0 st in
        snd (transformNewIntegerFeasibleSolution st [] true)
      else set_upper_bound (upper_bound st - off)%D st in
    let st := set_lower_bound (upper_bound st) st in
    if (solution_objective_ (mipsolver st) !=? kHighsInf)%D
       && HighsModelStatus_eqb (modelstatus_ (mipsolver st)) kInfeasible
    then Some (set_mipsolver (set_modelstatus_ kOptimal (mipsolver st)) st)
    else Some st
  else
    do st <- runSetup st;
    Some (set_world (restart_finish C st) st).

(** ** Properties of the solve state named by the specification *)


(** [st'] has the bounds, the tolerance and the pruned weight of [st]. *)
Definition same_bounds (st st' : St) : Prop :=
  lower_bound st' = lower_bound st
  /\ upper_bound st' = upper_bound st
  /\ feastol st' = feastol st
  /\ pruned_treeweight st' = pruned_treeweight st.


(** [pruned_treeweight] lies in [[0, 1]]. *)
Definition treeweight_in_unit (st : St) : Prop :=
  (d0 <=? pruned_treeweight st)%D = true
  /\ (pruned_treeweight st <=? d1)%D = true.

(** What the node queue promises about [performBounding] when the
    weight pruned so far is [pruned]: the weight it reports is not
    negative and does not take the total above one. *)
Definition bounding_within (pruned : double) : Prop :=
  forall (limit : double) (w : World),
    (d0 <=? fst (nodequeue_performBounding C limit w))%D = true
    /\ (pruned + fst (nodequeue_performBounding C limit w) <=? d1)%D = true.

(** The candidate [sol] as the violation check of
    [transformNewIntegerFeasibleSolution] leaves it, after the repair
    attempt if there was one; whether it is feasible then; the solver
    with it stored, violations and objective included; and its
    objective in the transformed space. *)
Definition checked_candidate (st : St) (sol : list double) : TryAgain :=
  let ms := mipsolver st in
  try_again (orig_model_ ms) (options_mip_ ms) (postsolved_solution st sol)
    true 0 0.

Definition candidate_feasible (st : St) (sol : list double) : bool :=
  violations_feasible (options_mip_ (mipsolver st))
    (ta_violations (checked_candidate st sol)).

Definition candidate_stored (st : St) (sol : list double) : HighsMipSolver :=
  let v := ta_violations (checked_candidate st sol) in
  store_solution (v_row_violation_ v) (v_bound_violation_ v)
    (v_integrality_violation_ v)
    (col_value (ta_solution (checked_candidate st sol)))
    (v_objective_value v) (mipsolver st).

Definition candidate_objective (st : St) (sol : list double) : double :=
  let ms := mipsolver st in
  let objective := v_objective_value (ta_violations (checked_candidate st sol)) in
  if is_kMaximize (sense_ (orig_model_ ms))
  then (- (objective + offset_ (model_ ms)))%D
  else (objective - offset_ (model_ ms))%D.

(** The conditions of [checkLimits] in the order of the specification,
    each with the status it reports. *)
Definition limit_conditions (st : St) (nodeOffset : Z)
  : list (bool * HighsModelStatus) :=
  let ms := mipsolver st in
  let options := options_mip_ ms in
  let int_sense := of_Z (int_of_sense (sense_ (orig_model_ ms))) in
  [ (negb (submip ms) && user_callback (callback_ ms)
     && interruptFromCallbackWithData st kCallbackMipInterrupt
          (solution_objective_ ms), kInterrupt);
    (negb (submip ms)
     && (solution_objective_ ms <? kHighsInf)%D
     && (objective_target options >? - kHighsInf)%D
     && (int_sense * solution_objective_ ms
         <? int_sense * objective_target options)%D, kObjectiveTarget);
    (negb (mip_max_nodes options =? kHighsIInf)%Z
     && (num_nodes st + nodeOffset >=? mip_max_nodes options)%Z,
     kSolutionLimit);
    (negb (mip_max_leaves options =? kHighsIInf)%Z
     && (num_leaves st >=? mip_max_leaves options)%Z, kSolutionLimit);
    (negb (mip_max_improving_sols options =? kHighsIInf)%Z
     && (numImprovingSols st >=? mip_max_improving_sols options)%Z,
     kSolutionLimit);
    (timer_read C (world st) >=? time_limit options, kTimeLimit)%D ].

(** The first condition of the list that holds, if any. *)
Definition first_limit_hit (st : St) (nodeOffset : Z)
  : option HighsModelStatus :=
  match find fst (limit_conditions st nodeOffset) with
  | Some (_, s) => Some s
  | None => None
  end.

(** The status after a limit with status [s] was hit: it is written
    only over [kNotset]. *)
Definition status_after_limit (old s : HighsModelStatus) : HighsModelStatus :=
  match old with kNotset => s | _ => old end.

(** The gap of the display line as the specification words it, from the
    primal and dual bounds. *)
Definition display_gap (primal dual : double) : double :=
  if (primal ==? d0)%D then (if (dual ==? d0)%D then d0 else kHighsInf)
  else (d100 * (primal - dual) / dabs primal)%D.

(** A bound after the offset is added and values within [epsilon] of
    zero are snapped to zero. *)
Definition snapped (st : St) (bound : double) : double :=
  let b := (bound + offset_ (model_ (mipsolver st)))%D in
  if (dabs b <=? epsilon st)%D then d0 else b.

(** The sign flip of the displayed bounds for a maximisation problem. *)
Definition display_sign (st : St) (x : double) : double :=
  if is_kMaximize (sense_ (orig_model_ (mipsolver st))) then (- x)%D else x.

End Model.

(* ================================================================== *)
(** * Further functions of the solver data                             *)
(* ================================================================== *)

Section Budget.
Context {World : Type}.
Implicit Type st : HighsMipSolverData World.

(** ** [moreHeuristicsAllowed] (lines 247-309)

    The member [heuristic_effort], which [init] copies from the option
    [mip_heuristic_effort] (line 343), is the second argument.  The
    counters are [int64_t]: the comparisons of lines 259, 260 and 266
    are comparisons of integers, the others convert to [double]. *)
Definition moreHeuristicsAllowed st (heuristic_effort : double) : bool :=
  if submip (mipsolver st) then
    (of_Z (heuristic_lp_iterations st)
     <? of_Z (total_lp_iterations st) * heuristic_effort)%D
  else if (pruned_treeweight st <? Fin (1 # 1000))%D
          && (num_leaves st - num_leaves_before_run st <? 10)%Z
          && (num_nodes st - num_nodes_before_run st <? 1000)%Z then
    if (of_Z (heuristic_lp_iterations st)
        <? of_Z (total_lp_iterations st) * heuristic_effort
           + of_Z 10000)%D
    then true else false
  else if (heuristic_lp_iterations st
           <? 100000
              + Z.shiftr (total_lp_iterations st
                          - heuristic_lp_iterations st
                          - sb_lp_iterations st) 1)%Z then
    let heur_iters_curr_run :=
      (heuristic_lp_iterations st
       - heuristic_lp_iterations_before_run st)%Z in
    let sb_iters_curr_run :=
      (sb_lp_iterations st - sb_lp_iterations_before_run st)%Z in
    let node_iters_curr_run :=
      (total_lp_iterations st - total_lp_iterations_before_run st
       - heur_iters_curr_run - sb_iters_curr_run)%Z in
    let total_heuristic_effort_estim :=
      (of_Z (heuristic_lp_iterations st)
       / (of_Z (total_lp_iterations st - node_iters_curr_run)
          + of_Z node_iters_curr_run
            / std_max (Fin (1 # 100)) (pruned_treeweight st)))%D in
    if (total_heuristic_effort_estim
        <? std_max (Fin (3 # 10) / Fin (8 # 10))
             (std_min (pruned_treeweight st) (Fin (8 # 10)) / Fin (8 # 10))
           * heuristic_effort)%D
    then true else false
  else false.

(** ** [percentageInactiveIntegers] (lines 920-924)

    [substitutions] is [cliquetable.getSubstitutions().size()].  The
    difference of the two sizes is a difference of [size_t], modulo
    [2^64]. *)
Definition percentageInactiveIntegers st (substitutions : Z) : double :=
  (d100
   * (d1
      - of_Z ((Z.of_nat (length (integer_cols st)) - substitutions)
              mod 2 ^ 64)
        / of_Z (numintegercols st)))%D.

(** ** [printDisplayLine] (lines 1169-1297)

    The bounds and the gap that the display line prints (lines
    1215-1231, 1240-1245 and 1262-1267), as [(lb, ub, gap)]; [ub] is
    the value after the cap by [objective_bound]. *)
Definition printDisplayLine_bounds st : double * double * double :=
  let options := options_mip_ (mipsolver st) in
  let offset := offset_ (model_ (mipsolver st)) in
  let lb := (lower_bound st + offset)%D in
  let lb := if (dabs lb <=? epsilon st)%D then d0 else lb in
  let ub := kHighsInf in
  let gap := kHighsInf in
  if (upper_bound st !=? kHighsInf)%D then
    let ub := (upper_bound st + offset)%D in
    let ub := if (dabs ub <=? epsilon st)%D then d0 else ub in
    let lb := std_min ub lb in
    let gap :=
      if (ub ==? d0)%D then (if (lb ==? d0)%D then d0 else kHighsInf)
      else (d100 * (ub - lb) / dabs ub)%D in
    let ub :=
      if (objective_bound options <? ub)%D then objective_bound options
      else ub in
    (lb, ub, gap)
  else
    let ub :=
      if (objective_bound options <? ub)%D then objective_bound options
      else ub in
    (lb, ub, gap).

(** The three assertions of lines 1289-1291, which compare the printed
    values with the result of [limitsToBounds]. *)
Definition printDisplayLine_asserts st : bool :=
  let '(lb, ub, gap) := printDisplayLine_bounds st in
  let '(dual_bound, primal_bound, mip_rel_gap) := limitsToBounds st in
  let sense := of_Z (int_of_sense (sense_ (orig_model_ (mipsolver st)))) in
  (dual_bound ==? sense * lb)%D
  && (primal_bound ==? sense * ub)%D
  && (mip_rel_gap ==? gap)%D.

(** Whether the violations stored with the solution of [mipsolver] are
    within the tolerance (the test of lines 435-440 and 847-850). *)
Definition stored_within_tolerance (ms : HighsMipSolver) : bool :=
  let tol := mip_feasibility_tolerance (options_mip_ ms) in
  (bound_violation_ ms <=? tol)%D
  && (integrality_violation_ ms <=? tol)%D
  && (row_violation_ ms <=? tol)%D.

(** The activity of row [i] as [solutionRowFeasible] sums it (lines
    44-50). *)
Definition rowactivity st (solution : list double) (i : Z)
  : option double :=
  do start <- vread (ARstart_ st) i;
  do end_ <- vread (ARstart_ st) (i + 1);
  if (end_ <? start)%Z then None else
  rowactivity_loop st solution (map (Z.add start) (indices (end_ - start)))
    d0.

(** The objective as [solutionColFeasible] sums it (line 35). *)
Definition col_objective st (solution : list double) (n : Z) : double :=
  let model := model_ (mipsolver st) in
  fold_left
    (fun obj i =>
       (obj + vget NaN (col_cost_ model) i * vget NaN solution i)%D)
    (indices n) d0.

End Budget.

(** ** Row data of [runSetup] and [setupDomainPropagation] *)

(** The entries [start, ..., end - 1] of row [i] in the row-wise matrix;
    a loop [for (j = start; j != end; ++j)] with [end < start] runs off
    the vectors. *)
Definition row_entries (ARstart : list Z) (i : Z) : option (list Z) :=
  do start <- vread ARstart i;
  do end_ <- vread ARstart (i + 1);
  if (end_ <? start)%Z then None
  else Some (map (Z.add start) (indices (end_ - start))).

(** Lines 1886-1887: the largest absolute coefficient of a row. *)
Fixpoint maxabsval_loop (ARvalue : list double) (iters : list Z)
    (maxabsval : double) : option double :=
  match iters with
  | [] => Some maxabsval
  | j :: rest =>
      do v <- vread ARvalue j;
      maxabsval_loop ARvalue rest (std_max maxabsval (dabs v))
  end.

(** Lines 1881-1890 of [setupDomainPropagation], for row [i]:
    [maxAbsRowCoef[i]]. *)
Definition setupDomainPropagation_row (ARstart : list Z)
    (ARvalue : list double) (i : Z) : option double :=
  do entries <- row_entries ARstart i;
  maxabsval_loop ARvalue entries d0.

(** Lines 524-535 of [runSetup]: the same loop, which also finds out
    whether every entry of the row is an integral coefficient on a
    column that is not continuous. *)
Fixpoint runSetup_row_loop (integrality : list HighsVarType)
    (ARindex : list Z) (ARvalue : list double) (epsilon : double)
    (iters : list Z) (integral : bool) (maxabsval : double)
  : option (bool * double) :=
  match iters with
  | [] => Some (integral, maxabsval)
  | j :: rest =>
      do integral <-
        (if integral then
           do col <- vread ARindex j;
           do ty <- vread integrality col;
           match ty with
           | kContinuous => Some false
           | _ =>
               do v <- vread ARvalue j;
               let intval := dfloor (v + dhalf)%D in
               if (dabs (v - intval) >? epsilon)%D then Some false
               else Some integral
           end
         else Some integral);
      do v <- vread ARvalue j;
      runSetup_row_loop integrality ARindex ARvalue epsilon rest integral
        (std_max maxabsval (dabs v))
  end.

(** Lines 537-545: the bounds of an integral row are rounded. *)
Definition round_row_lower (feastol row_lower : double) : double :=
  if (row_lower !=? - kHighsInf)%D then dceil (row_lower - feastol)%D
  else row_lower.

Definition round_row_upper (feastol row_upper : double) : double :=
  if (row_upper !=? kHighsInf)%D then dfloor (row_upper + feastol)%D
  else row_upper.

(** Lines 518-549 of [runSetup], for row [i]: [rowintegral[i]],
    [maxAbsRowCoef[i]] and the bounds of the row in [presolvedModel]
    after the pass. *)
Record RowSetup : Type := mkRowSetup {
  rs_rowintegral : bool;
  rs_maxAbsRowCoef : double;
  rs_row_lower : double;
  rs_row_upper : double
}.

Definition runSetup_row (integrality : list HighsVarType)
    (ARstart ARindex : list Z) (ARvalue : list double)
    (row_lower row_upper : list double) (epsilon feastol : double) (i : Z)
  : option RowSetup :=
  do entries <- row_entries ARstart i;
  do r <- runSetup_row_loop integrality ARindex ARvalue epsilon entries
            true d0;
  let '(integral, maxabsval) := r in
  if integral then
    do lo <- vread row_lower i;
    do up <- vread row_upper i;
    Some (mkRowSetup integral maxabsval (round_row_lower feastol lo)
            (round_row_upper feastol up))
  else
    Some (mkRowSetup integral maxabsval (vget NaN row_lower i)
            (vget NaN row_upper i)).

(** ** The root basis across a restart *)

(** [HighsBasisStatus]; [kLower] is the enumerator of value zero, the
    one that [resize] fills in when it is given no value. *)
Inductive HighsBasisStatus : Type :=
| kLower
| kBasic
| kUpper
| kZero
| kNonbasic.

Record HighsBasis : Type := mkHighsBasis {
  valid : bool;
  alien : bool;
  col_status : list HighsBasisStatus;
  row_status : list HighsBasisStatus
}.

(** [v.resize(n, fill)]. *)
Definition resize {A : Type} (n : Z) (fill : A) (v : list A) : list A :=
  firstn (Z.to_nat n) v ++ repeat fill (Z.to_nat n - length v).

(** [v[i] = a], checked: [None] is a write outside the vector. *)
Definition vwrite {A : Type} (v : list A) (i : Z) (a : A)
  : option (list A) :=
  if (i <? 0)%Z || (Z.of_nat (length v) <=? i)%Z then None
  else Some (vset v i a).

(** The index maps of the postsolve stack: [getOrigColIndex],
    [getOrigRowIndex], [getOrigNumCol] and [getOrigNumRow]. *)
Record IndexMaps : Type := mkIndexMaps {
  getOrigColIndex : Z -> Z;
  getOrigRowIndex : Z -> Z;
  getOrigNumCol : Z;
  getOrigNumRow : Z
}.

(** [dst[origIndex(i)] = src[i]] for the indices [iters] (lines 961-963
    and 966-968). *)
Fixpoint expand_status (origIndex : Z -> Z) (src : list HighsBasisStatus)
    (iters : list Z) (dst : list HighsBasisStatus)
  : option (list HighsBasisStatus) :=
  match iters with
  | [] => Some dst
  | i :: rest =>
      do s <- vread src i;
      do dst <- vwrite dst (origIndex i) s;
      expand_status origIndex src rest dst
  end.

(** [dst[i] = src[origIndex(i)]] for the indices [iters] (lines
    1030-1034 and 1036-1040). *)
Fixpoint reduce_status (origIndex : Z -> Z) (src : list HighsBasisStatus)
    (iters : list Z) (dst : list HighsBasisStatus)
  : option (list HighsBasisStatus) :=
  match iters with
  | [] => Some dst
  | i :: rest =>
      do s <- vread src (origIndex i);
      do dst <- vwrite dst i s;
      reduce_status origIndex src rest dst
  end.

(** Lines 951-971 of [performRestart]: the basis of the root LP is
    expanded to the original space.  [num_col] is
    [mipsolver.model_->num_col_], [root_basis] the local of line 927;
    the result is what [mipsolver.rootbasis] points to, [None] for a
    pointer that is left alone.  The outer [None] is an access outside
    a vector. *)
Definition performRestart_root_basis (maps : IndexMaps) (num_col : Z)
    (firstrootbasis root_basis : HighsBasis)
  : option (option HighsBasis) :=
  let basis := firstrootbasis in
  if valid basis then
    let cols := resize (getOrigNumCol maps) kLower (col_status root_basis) in
    let rows := resize (getOrigNumRow maps) kBasic (row_status root_basis) in
    do cols <-
      expand_status (getOrigColIndex maps) (col_status basis)
        (indices num_col) cols;
    let numRow := Z.of_nat (length (row_status basis)) in
    do rows <-
      expand_status (getOrigRowIndex maps) (row_status basis)
        (indices numRow) rows;
    Some (Some (mkHighsBasis true (alien root_basis) cols rows))
  else Some None.

(** ** [basisTransfer] (lines 1019-1042)

    [numRow] and [numCol] are the dimensions of the presolved model,
    which are not negative, [rootbasis] is [mipsolver.rootbasis]; the
    result is [firstrootbasis]. *)
Definition basisTransfer (maps : IndexMaps) (numRow numCol : Z)
    (rootbasis : option HighsBasis) (firstrootbasis : HighsBasis)
  : option HighsBasis :=
  match rootbasis with
  | Some rootbasis =>
      let cols := repeat kNonbasic (Z.to_nat numCol) in
      let rows := repeat kNonbasic (Z.to_nat numRow) in
      do rows <-
        reduce_status (getOrigRowIndex maps) (row_status rootbasis)
          (indices numRow) rows;
      do cols <-
        reduce_status (getOrigColIndex maps) (col_status rootbasis)
          (indices numCol) cols;
      Some (mkHighsBasis true true cols rows)
  | None => Some firstrootbasis
  end.

(** ** Auxiliary notions of the properties below *)

(** A finite value in lowest terms; sums and the zero literal are. *)
Definition canonical (x : double) : Prop :=
  match x with Fin q => Qred q = q | _ => True end.

Definition is_kImplicitInteger (t : HighsVarType) : bool :=
  match t with kImplicitInteger => true | _ => false end.

Definition is_kContinuous (t : HighsVarType) : bool :=
  match t with kContinuous => true | _ => false end.

(** The type of column [i] of a model, as [mipsolver.variableType(i)]
    reads it. *)
Definition variableType (model : HighsLp) (i : Z) : HighsVarType :=
  vget kContinuous (integrality_ model) i.

(** [st'] has the node and leaf counters of [st]. *)
Definition same_counts {World : Type} (st st' : HighsMipSolverData World)
  : Prop :=
  num_nodes st' = num_nodes st /\ num_leaves st' = num_leaves st.

(** [st'] has the counters of [st] that [performRestart] copies, and
    the number of restarts. *)
Definition same_run_counters {World : Type}
    (st st' : HighsMipSolverData World) : Prop :=
  (num_nodes st' = num_nodes st /\ num_leaves st' = num_leaves st
   /\ total_lp_iterations st' = total_lp_iterations st
   /\ heuristic_lp_iterations st' = heuristic_lp_iterations st
   /\ sepa_lp_iterations st' = sepa_lp_iterations st
   /\ sb_lp_iterations st' = sb_lp_iterations st)
  /\ (num_nodes_before_run st' = num_nodes_before_run st
      /\ num_leaves_before_run st' = num_leaves_before_run st
      /\ total_lp_iterations_before_run st'
         = total_lp_iterations_before_run st
      /\ heuristic_lp_iterations_before_run st'
         = heuristic_lp_iterations_before_run st
      /\ sepa_lp_iterations_before_run st'
         = sepa_lp_iterations_before_run st
      /\ sb_lp_iterations_before_run st' = sb_lp_iterations_before_run st)
  /\ numRestarts st' = numRestarts st.

(** What a pass says about the leaf: the counters are left alone and
    the pass does not return [kInfeasible], or the root is counted as a
    leaf, nodes and leaves going up by one and the pruned weight
    becoming one, and the pass returns [kInfeasible] or, after an
    unbounded LP, [kUnbounded]. *)
Definition leaf_verdict {World : Type} (st : HighsMipSolverData World)
    (r : HighsMipSolverData World * option Status.t) : Prop :=
  (same_counts st (fst r) /\ snd r <> Some Status.kInfeasible)
  \/ (num_nodes (fst r) = (num_nodes st + 1)%Z
      /\ num_leaves (fst r) = (num_leaves st + 1)%Z
      /\ pruned_treeweight (fst r) = d1
      /\ (snd r = Some Status.kInfeasible \/ snd r = Some Status.kUnbounded)).

Definition is_semi (t : HighsVarType) : bool :=
  match t with kSemiContinuous | kSemiInteger => true | _ => false end.

(** The factor of line 297 that scales [heuristic_effort] late in the
    search. *)
Definition late_effort_factor (pruned_treeweight : double) : double :=
  std_max (Fin (3 # 10) / Fin (8 # 10))
    (std_min pruned_treeweight (Fin (8 # 10)) / Fin (8 # 10))%D.

(** The objective of the original model at the column values
    [col_value], summed as the violation pass sums it (lines 695 and
    719): the offset, then cost times value column by column. *)
Definition orig_objective (orig : HighsLp) (col_value : list double)
  : double :=
  fold_left
    (fun obj i =>
       (obj + vget NaN (col_cost_ orig) i * vget NaN col_value i)%D)
    (indices (num_col_ orig)) (offset_ orig).

(** What a pass of [evaluateRootLp] may write to the model status:
    nothing; [kOptimal], on returning [kInfeasible] with the lower
    bound set to the upper bound; or one of the two unbounded statuses,
    on returning [kUnbounded]. *)
Definition status_verdict {World : Type} (st : HighsMipSolverData World)
    (r : HighsMipSolverData World * option Status.t) : Prop :=
  modelstatus_ (mipsolver (fst r)) = modelstatus_ (mipsolver st)
  \/ (modelstatus_ (mipsolver (fst r)) = kOptimal
      /\ snd r = Some Status.kInfeasible
      /\ lower_bound (fst r) = upper_bound (fst r))
  \/ ((modelstatus_ (mipsolver (fst r)) = kUnbounded
       \/ modelstatus_ (mipsolver (fst r)) = kUnboundedOrInfeasible)
      /\ snd r = Some Status.kUnbounded).

(* ================================================================== *)
(** * A concrete world                                                 *)
(* ================================================================== *)

(** Collaborators whose answers are read off a record, so that the
    functions above can be run on concrete inputs. *)
Module Sim.

Record SimWorld : Type := mkSimWorld {
  sim_interrupt : bool;
  sim_clock : double;
  sim_domain_infeasible : bool;
  sim_changed_cols : bool;
  sim_lp_notset : bool;
  sim_resolve_status : Status.t;
  sim_lp_status : Status.t;
  sim_lp_objective : double;
  sim_lp_col_value : list double;
  sim_lp_dual_feasible : bool;
  sim_lp_fractional : bool;
  sim_bounding : double;
  sim_presolve_status : HighsModelStatus
}.

(** A step of [2^-52] towards [dir]. *)
Definition sim_nextafter (x dir : double) : double :=
  let ulp := Fin (1 # 4503599627370496) in
  if (dir <? x)%D then (x - ulp)%D
  else if (x <? dir)%D then (x + ulp)%D else x.

Definition collaborators (repair : HighsLp -> double -> bool * HighsSolution)
  : Collaborators SimWorld :=
  {| std_nextafter := sim_nextafter;
     undoPrimal := fun _ sol => sol;
     getReducedPrimalSolution := fun _ sol => sol;
     calculateRowValuesQuad := fun _ _ => [];
     tmpSolver_run := repair;
     highsSparseTranspose := fun _ _ _ => ([0%Z], [], []);
     checkIntegrality := fun _ _ => mkHighsObjectiveFunction false d0;
     callbackActive := fun _ _ => true;
     callbackAction := fun w t =>
       match t with kCallbackMipInterrupt => sim_interrupt w | _ => false end;
     timer_read := sim_clock;
     domain_propagate := fun w => w;
     domain_infeasible := sim_domain_infeasible;
     domain_changedCols_empty := fun w => negb (sim_changed_cols w);
     domain_isFixed := fun _ _ => false;
     globalOrbits_set := fun _ => false;
     orbitalFixing := fun w => w;
     globalOrbits_reset := fun w => w;
     lp_flushDomain := fun w => w;
     lp_solver_modelstatus_notset := sim_lp_notset;
     lp_getNumLpIterations := fun _ => 0%Z;
     lp_resolveLp := fun w => (sim_resolve_status w, w);
     lp_getAvgSolveIters := fun _ => d0;
     lp_getFractionalIntegers_empty := fun w => negb (sim_lp_fractional w);
     lp_solution_col_value := sim_lp_col_value;
     lp_getObjective := sim_lp_objective;
     lp_getStatus := sim_lp_status;
     lp_unscaledDualFeasible := fun w _ => sim_lp_dual_feasible w;
     addRootRedcost := fun st => world st;
     propagateRootRedcost := fun st => world st;
     extractObjCliques := fun st => world st;
     nodequeue_setOptimalityLimit := fun _ w => w;
     nodequeue_clear := fun w => w;
     nodequeue_performBounding := fun _ w => (sim_bounding w, w);
     restart_prepare := fun st => world st;
     presolve_run := fun st =>
       (sim_presolve_status (world st), model_ (mipsolver st), world st);
     restart_finish := fun st => world st;
     setup_collaborators := fun st => world st;
     setup_rows := fun st => world st;
     setup_finish := fun st => world st |}.

(** A repair LP that never finds a feasible point. *)
Definition no_repair (_ : HighsLp) (_ : double) : bool * HighsSolution :=
  (false, mkHighsSolution false [] []).

(** A quiet world: nothing infeasible, nothing changed, the LP solved to
    optimality with a fractional solution, the clock at zero. *)
Definition quiet : SimWorld :=
  {| sim_interrupt := false;
     sim_clock := d0;
     sim_domain_infeasible := false;
     sim_changed_cols := false;
     sim_lp_notset := false;
     sim_resolve_status := Status.kOptimal;
     sim_lp_status := Status.kOptimal;
     sim_lp_objective := d0;
     sim_lp_col_value := [];
     sim_lp_dual_feasible := true;
     sim_lp_fractional := true;
     sim_bounding := d0;
     sim_presolve_status := kNotset |}.

(** Tolerance [10^-6], no gaps, no limits. *)
Definition tol6 : double := Fin (1 # 1000000).

Definition options : HighsOptions :=
  {| mip_feasibility_tolerance := tol6;
     primal_feasibility_tolerance := tol6;
     mip_abs_gap := d0;
     mip_rel_gap := d0;
     objective_bound := kHighsInf;
     objective_target := (- kHighsInf)%D;
     time_limit := kHighsInf;
     mip_max_nodes := kHighsIInf;
     mip_max_leaves := kHighsIInf;
     mip_max_improving_sols := kHighsIInf |}.

Definition no_callback : HighsCallback :=
  {| user_callback := false; active := fun _ => false |}.

(** A model with one column [x], [0 <= x <= 10], of cost [1], and no
    row. *)
Definition one_column (ty : HighsVarType) : HighsLp :=
  {| num_col_ := 1;
     num_row_ := 0;
     a_matrix_ := mkHighsSparseMatrix [0%Z; 0%Z] [] [];
     col_cost_ := [d1];
     col_lower_ := [d0];
     col_upper_ := [Fin 10];
     row_lower_ := [];
     row_upper_ := [];
     integrality_ := [ty];
     offset_ := d0;
     sense_ := kMinimize |}.

(** The solver before any solution is known. *)
Definition solver (model : HighsLp) (opts : HighsOptions) : HighsMipSolver :=
  {| model_ := model;
     orig_model_ := model;
     options_mip_ := opts;
     callback_ := no_callback;
     submip := false;
     solution_ := [];
     solution_objective_ := kHighsInf;
     bound_violation_ := d0;
     integrality_violation_ := d0;
     row_violation_ := d0;
     modelstatus_ := kNotset |}.

(** The solver data as [init] leaves it (lines 330-384), with the
    transposed matrix of a model without rows. *)
Definition init (ms : HighsMipSolver) (w : SimWorld)
  : HighsMipSolverData SimWorld :=
  {| mipsolver := ms;
     world := w;
     feastol := mip_feasibility_tolerance (options_mip_ ms);
     epsilon := Fin (1 # 1000000000);
     objectiveFunction := mkHighsObjectiveFunction false d0;
     lower_bound := (- kHighsInf)%D;
     upper_bound := kHighsInf;
     upper_limit := objective_bound (options_mip_ ms);
     optimality_limit := objective_bound (options_mip_ ms);
     incumbent := [];
     pruned_treeweight := d0;
     num_nodes := 0;
     num_leaves := 0;
     total_lp_iterations := 0;
     heuristic_lp_iterations := 0;
     sepa_lp_iterations := 0;
     sb_lp_iterations := 0;
     num_nodes_before_run := 0;
     num_leaves_before_run := 0;
     total_lp_iterations_before_run := 0;
     heuristic_lp_iterations_before_run := 0;
     sepa_lp_iterations_before_run := 0;
     sb_lp_iterations_before_run := 0;
     numImprovingSols := 0;
     numRestarts := 0;
     avgrootlpiters := d0;
     integral_cols := [];
     integer_cols := [];
     implint_cols := [];
     continuous_cols := [];
     numintegercols := 0;
     ARstart_ := [0%Z];
     ARindex_ := [];
     ARvalue_ := [] |}.

(** Collaborators that keep two promises, whatever the world: the LP
    reports itself dual feasible only with an objective of at most
    [cap], and [performBounding] reports a weight only if it is not
    negative and fits into [1 - pruned]. *)
Definition promising (C : Collaborators SimWorld) (cap pruned : double)
  : Collaborators SimWorld :=
  {| std_nextafter := std_nextafter C;
     undoPrimal := undoPrimal C;
     getReducedPrimalSolution := getReducedPrimalSolution C;
     calculateRowValuesQuad := calculateRowValuesQuad C;
     tmpSolver_run := tmpSolver_run C;
     highsSparseTranspose := highsSparseTranspose C;
     checkIntegrality := checkIntegrality C;
     callbackActive := callbackActive C;
     callbackAction := callbackAction C;
     timer_read := timer_read C;
     domain_propagate := domain_propagate C;
     domain_infeasible := domain_infeasible C;
     domain_changedCols_empty := domain_changedCols_empty C;
     domain_isFixed := domain_isFixed C;
     globalOrbits_set := globalOrbits_set C;
     orbitalFixing := orbitalFixing C;
     globalOrbits_reset := globalOrbits_reset C;
     lp_flushDomain := lp_flushDomain C;
     lp_solver_modelstatus_notset := lp_solver_modelstatus_notset C;
     lp_getNumLpIterations := lp_getNumLpIterations C;
     lp_resolveLp := lp_resolveLp C;
     lp_getAvgSolveIters := lp_getAvgSolveIters C;
     lp_getFractionalIntegers_empty := lp_getFractionalIntegers_empty C;
     lp_solution_col_value := lp_solution_col_value C;
     lp_getObjective := lp_getObjective C;
     lp_getStatus := lp_getStatus C;
     addRootRedcost := addRootRedcost C;
     propagateRootRedcost := propagateRootRedcost C;
     extractObjCliques := extractObjCliques C;
     nodequeue_setOptimalityLimit := nodequeue_setOptimalityLimit C;
     nodequeue_clear := nodequeue_clear C;
     restart_prepare := restart_prepare C;
     presolve_run := presolve_run C;
     restart_finish := restart_finish C;
     setup_collaborators := setup_collaborators C;
     setup_rows := setup_rows C;
     setup_finish := setup_finish C;
     lp_unscaledDualFeasible := fun w s =>
       lp_unscaledDualFeasible C w s && (lp_getObjective C w <=? cap)%D;
     nodequeue_performBounding := fun limit w =>
       let '(weight, w') := nodequeue_performBounding C limit w in
       if (d0 <=? weight)%D && (pruned + weight <=? d1)%D
       then (weight, w') else (d0, w') |}.

End Sim.

(* ================================================================== *)
(** * Concrete states                                                  *)
(* ================================================================== *)


(** No incumbent, and a lower bound of five. *)
Definition no_incumbent_state : HighsMipSolverData Sim.SimWorld :=
  set_lower_bound (Fin 5)
    (Sim.init (Sim.solver (Sim.one_column kInteger) Sim.options) Sim.quiet).

(** A node limit of 100 with 95 nodes counted. *)
Definition node_limit_options : HighsOptions :=
  {| mip_feasibility_tolerance := Sim.tol6;
     primal_feasibility_tolerance := Sim.tol6;
     mip_abs_gap := d0;
     mip_rel_gap := d0;
     objective_bound := kHighsInf;
     objective_target := (- kHighsInf)%D;
     time_limit := kHighsInf;
     mip_max_nodes := 100;
     mip_max_leaves := kHighsIInf;
     mip_max_improving_sols := kHighsIInf |}.

Definition node_limit_state : HighsMipSolverData Sim.SimWorld :=
  set_num_nodes 95
    (Sim.init (Sim.solver (Sim.one_column kInteger) node_limit_options)
       Sim.quiet).

(** The same state once the time limit has been reported. *)
Definition stopped_state : HighsMipSolverData Sim.SimWorld :=
  set_mipsolver (set_modelstatus_ kTimeLimit (mipsolver node_limit_state))
    node_limit_state.

(** An incumbent of objective ten and a lower bound of five; the LP has
    not been solved since the domain was tightened, and is then dual
    feasible, with fractional integers and objective twelve. *)
Definition cutoff_world : Sim.SimWorld :=
  {| Sim.sim_interrupt := false;
     Sim.sim_clock := d0;
     Sim.sim_domain_infeasible := false;
     Sim.sim_changed_cols := false;
     Sim.sim_lp_notset := true;
     Sim.sim_resolve_status := Status.kOptimal;
     Sim.sim_lp_status := Status.kOptimal;
     Sim.sim_lp_objective := Fin 12;
     Sim.sim_lp_col_value := [Fin 12];
     Sim.sim_lp_dual_feasible := true;
     Sim.sim_lp_fractional := true;
     Sim.sim_bounding := d0;
     Sim.sim_presolve_status := kNotset |}.

Definition cutoff_state : HighsMipSolverData Sim.SimWorld :=
  set_lower_bound (Fin 5)
    (snd (addIncumbent (Sim.collaborators Sim.no_repair)
            (Sim.init (Sim.solver (Sim.one_column kInteger) Sim.options)
               cutoff_world)
            [Fin 10] (Fin 10) kSolutionSourceOther)).

(** Half of the tree pruned, in a quiet world. *)
Definition half_pruned_state : HighsMipSolverData Sim.SimWorld :=
  set_pruned_treeweight dhalf
    (Sim.init (Sim.solver (Sim.one_column kInteger) Sim.options) Sim.quiet).

(** A model whose relaxation is unbounded and which has no integer
    point: minimise [y] over [1/4 <= x <= 3/4], [y <= 0], [x] integer. *)
Definition no_integer_point : HighsLp :=
  {| num_col_ := 2;
     num_row_ := 0;
     a_matrix_ := mkHighsSparseMatrix [0%Z; 0%Z; 0%Z] [] [];
     col_cost_ := [d0; d1];
     col_lower_ := [Fin (1 # 4); (- kHighsInf)%D];
     col_upper_ := [Fin (3 # 4); d0];
     row_lower_ := [];
     row_upper_ := [];
     integrality_ := [kInteger; kContinuous];
     offset_ := d0;
     sense_ := kMinimize |}.

(** The LP has not been solved yet, and its solve reports
    [kUnbounded]. *)
Definition unbounded_world : Sim.SimWorld :=
  {| Sim.sim_interrupt := false;
     Sim.sim_clock := d0;
     Sim.sim_domain_infeasible := false;
     Sim.sim_changed_cols := false;
     Sim.sim_lp_notset := true;
     Sim.sim_resolve_status := Status.kUnbounded;
     Sim.sim_lp_status := Status.kUnbounded;
     Sim.sim_lp_objective := (- kHighsInf)%D;
     Sim.sim_lp_col_value := [];
     Sim.sim_lp_dual_feasible := false;
     Sim.sim_lp_fractional := true;
     Sim.sim_bounding := d0;
     Sim.sim_presolve_status := kNotset |}.

Definition unbounded_start : HighsMipSolverData Sim.SimWorld :=
  Sim.init (Sim.solver no_integer_point Sim.options) unbounded_world.

(** A model without columns or rows. *)
Definition empty_model : HighsLp :=
  {| num_col_ := 0;
     num_row_ := 0;
     a_matrix_ := mkHighsSparseMatrix [0%Z] [] [];
     col_cost_ := [];
     col_lower_ := [];
     col_upper_ := [];
     row_lower_ := [];
     row_upper_ := [];
     integrality_ := [];
     offset_ := d0;
     sense_ := kMinimize |}.

(** A time limit of one hundred seconds, reached on the clock. *)
Definition time_limit_options : HighsOptions :=
  {| mip_feasibility_tolerance := Sim.tol6;
     primal_feasibility_tolerance := Sim.tol6;
     mip_abs_gap := d0;
     mip_rel_gap := d0;
     objective_bound := kHighsInf;
     objective_target := (- kHighsInf)%D;
     time_limit := d100;
     mip_max_nodes := kHighsIInf;
     mip_max_leaves := kHighsIInf;
     mip_max_improving_sols := kHighsIInf |}.

Definition late_world : Sim.SimWorld :=
  {| Sim.sim_interrupt := false;
     Sim.sim_clock := Fin 101;
     Sim.sim_domain_infeasible := false;
     Sim.sim_changed_cols := false;
     Sim.sim_lp_notset := false;
     Sim.sim_resolve_status := Status.kOptimal;
     Sim.sim_lp_status := Status.kOptimal;
     Sim.sim_lp_objective := d0;
     Sim.sim_lp_col_value := [];
     Sim.sim_lp_dual_feasible := true;
     Sim.sim_lp_fractional := true;
     Sim.sim_bounding := d0;
     Sim.sim_presolve_status := kNotset |}.

(** Two columns and two rows, [x + y] within [[1, 6]] and [2 y - x]
    within [[1, 4]], the matrix stored row-wise as [runSetup] leaves
    it. *)
Definition two_row_model : HighsLp :=
  {| num_col_ := 2;
     num_row_ := 2;
     a_matrix_ :=
       mkHighsSparseMatrix [0%Z; 2%Z; 4%Z] [0%Z; 1%Z; 0%Z; 1%Z]
         [d1; Fin (-1); d1; Fin 2];
     col_cost_ := [d1; d1];
     col_lower_ := [d0; d0];
     col_upper_ := [Fin 10; Fin 10];
     row_lower_ := [d1; d1];
     row_upper_ := [Fin 6; Fin 4];
     integrality_ := [kInteger; kContinuous];
     offset_ := d0;
     sense_ := kMinimize |}.

Definition two_row_state : HighsMipSolverData Sim.SimWorld :=
  set_AR [0%Z; 2%Z; 4%Z] [0%Z; 1%Z; 0%Z; 1%Z] [d1; d1; Fin (-1); Fin 2]
    (Sim.init (Sim.solver two_row_model Sim.options) Sim.quiet).

(** The search is over: the lower bound has reached the incumbent of
    objective ten. *)
Definition closed_gap_state : HighsMipSolverData Sim.SimWorld :=
  set_lower_bound (Fin 10) cutoff_state.

(** A sub-MIP with a solution of objective three, an objective target
    of five and a node limit that is reached. *)
Definition target_options : HighsOptions :=
  {| mip_feasibility_tolerance := Sim.tol6;
     primal_feasibility_tolerance := Sim.tol6;
     mip_abs_gap := d0;
     mip_rel_gap := d0;
     objective_bound := kHighsInf;
     objective_target := Fin 5;
     time_limit := kHighsInf;
     mip_max_nodes := 100;
     mip_max_leaves := kHighsIInf;
     mip_max_improving_sols := kHighsIInf |}.

Definition target_solver (sub : bool) : HighsMipSolver :=
  {| model_ := Sim.one_column kInteger;
     orig_model_ := Sim.one_column kInteger;
     options_mip_ := target_options;
     callback_ := Sim.no_callback;
     submip := sub;
     solution_ := [Fin 3];
     solution_objective_ := Fin 3;
     bound_violation_ := d0;
     integrality_violation_ := d0;
     row_violation_ := d0;
     modelstatus_ := kNotset |}.

Definition submip_state : HighsMipSolverData Sim.SimWorld :=
  set_num_nodes 100 (Sim.init (target_solver true) Sim.quiet).

Definition target_state : HighsMipSolverData Sim.SimWorld :=
  set_num_nodes 100 (Sim.init (target_solver false) Sim.quiet).

(** Early in the search: 5000 heuristic LP iterations out of 20000. *)
Definition early_state : HighsMipSolverData Sim.SimWorld :=
  set_total_lp_iterations 20000
    (Sim.init (Sim.solver (Sim.one_column kInteger) Sim.options) Sim.quiet).

(** The row-wise matrix of [two_row_model], with an integral second
    row on integer columns: [x + y] and [- x + 2 y]. *)
Definition two_rows_ARstart : list Z := [0%Z; 2%Z; 4%Z].
Definition two_rows_ARindex : list Z := [0%Z; 1%Z; 0%Z; 1%Z].
Definition two_rows_ARvalue : list double := [d1; d1; Fin (-1); Fin 2].

(** Index maps of a presolved model whose two columns are the columns
    one and two of an original model with three columns, the rows
    being kept; the basis of its root LP; and a basis as the default
    constructor leaves it. *)
Definition shift_maps : IndexMaps :=
  {| getOrigColIndex := fun i => (i + 1)%Z;
     getOrigRowIndex := fun i => i;
     getOrigNumCol := 3;
     getOrigNumRow := 2 |}.

Definition root_lp_basis : HighsBasis :=
  {| valid := true;
     alien := false;
     col_status := [kBasic; kUpper];
     row_status := [kLower; kBasic] |}.

Definition fresh_basis : HighsBasis :=
  {| valid := false; alien := true; col_status := []; row_status := [] |}.

(* ================================================================== *)
(** * Facts about [double]                                             *)
(* ================================================================== *)

Unset Implicit Arguments.

Lemma Qltb_lt (a b : Q) : Qltb a b = true <-> a < b.
Proof.
  unfold Qltb. rewrite negb_true_iff.
  destruct (Qle_bool b a) eqn:E.
  - apply Qle_bool_iff in E. split; [discriminate | intro; lra].
  - split; [intros _ | reflexivity].
    destruct (Qlt_le_dec a b) as [H | H]; [exact H |].
    apply Qle_bool_iff in H. congruence.
Qed.

Lemma Qltb_ge (a b : Q) : Qltb a b = false <-> b <= a.
Proof.
  unfold Qltb. rewrite negb_false_iff. apply Qle_bool_iff.
Qed.

Lemma Qle_bool_gt (a b : Q) : Qle_bool a b = false <-> b < a.
Proof.
  rewrite <- Qltb_lt. unfold Qltb. rewrite negb_true_iff. reflexivity.
Qed.

Lemma Qeq_bool_neq_iff (a b : Q) : Qeq_bool a b = false <-> ~ a == b.
Proof.
  split.
  - intros H E. apply Qeq_bool_iff in E. congruence.
  - intro H. destruct (Qeq_bool a b) eqn:E; [| reflexivity].
    apply Qeq_bool_iff in E. contradiction.
Qed.

(** Turns the boolean comparisons of rationals in the context and in the
    goal into propositions, and drops the normalisations. *)
Ltac q_props :=
  repeat match goal with
  | H : Qle_bool _ _ = true |- _ => apply Qle_bool_iff in H
  | H : Qle_bool _ _ = false |- _ => apply Qle_bool_gt in H
  | H : Qltb _ _ = true |- _ => apply Qltb_lt in H
  | H : Qltb _ _ = false |- _ => apply Qltb_ge in H
  | H : Qeq_bool _ _ = true |- _ => apply Qeq_bool_iff in H
  | H : Qeq_bool _ _ = false |- _ => apply Qeq_bool_neq_iff in H
  | |- Qle_bool _ _ = true => apply Qle_bool_iff
  | |- Qle_bool _ _ = false => apply Qle_bool_gt
  | |- Qltb _ _ = true => apply Qltb_lt
  | |- Qltb _ _ = false => apply Qltb_ge
  | |- Qeq_bool _ _ = true => apply Qeq_bool_iff
  | |- Qeq_bool _ _ = false => apply Qeq_bool_neq_iff
  end;
  repeat match goal with
  | H : context [Qred ?q] |- _ => rewrite (Qred_correct q) in H
  | |- context [Qred ?q] => rewrite (Qred_correct q)
  end.

(** Unfolds the operations on doubles, once their arguments are
    constructors, down to the operations on rationals. *)
Ltac d_simpl :=
  cbn [dle dlt deq dgt dge dne dadd dsub dneg dabs is_nan is_finite
       kHighsInf d0 d1 dhalf d100 of_Z negb andb orb] in *.

(** After a case analysis on the doubles involved: linear arithmetic
    over the rationals. *)
Ltac d_cases :=
  intros; d_simpl; try discriminate; try reflexivity; try assumption;
  try (q_props; solve [lra | auto]).

Lemma dle_refl (x : double) : is_nan x = false -> (x <=? x)%D = true.
Proof. destruct x; d_cases. Qed.

Lemma dle_trans (x y z : double) :
  (x <=? y)%D = true -> (y <=? z)%D = true -> (x <=? z)%D = true.
Proof. destruct x, y, z; d_cases. Qed.

Lemma dlt_dle (x y : double) : (x <? y)%D = true -> (x <=? y)%D = true.
Proof. destruct x, y; d_cases. Qed.

Lemma dlt_dle_trans (x y z : double) :
  (x <? y)%D = true -> (y <=? z)%D = true -> (x <? z)%D = true.
Proof. destruct x, y, z; d_cases. Qed.

Lemma dlt_irrefl (x : double) : (x <? x)%D = false.
Proof. destruct x; d_cases. Qed.

Lemma dle_false_dlt_false (x y : double) :
  (x <=? y)%D = false -> (x <? y)%D = false.
Proof. destruct x, y; d_cases. Qed.

Lemma dlt_not_nan_l (x y : double) : (x <? y)%D = true -> is_nan x = false.
Proof. destruct x, y; d_cases. Qed.

Lemma dlt_not_nan_r (x y : double) : (x <? y)%D = true -> is_nan y = false.
Proof. destruct x, y; d_cases. Qed.

(** [!(a >= b)] is [a < b] when neither is NaN. *)
Lemma dge_false_dlt (a b : double) :
  is_nan a = false -> is_nan b = false ->
  (a >=? b)%D = false -> (a <? b)%D = true.
Proof. unfold dge. destruct a, b; d_cases. Qed.

Lemma dgt_false_dle (a b : double) :
  is_nan a = false -> is_nan b = false ->
  (a >? b)%D = false -> (a <=? b)%D = true.
Proof. unfold dgt. destruct a, b; d_cases. Qed.

Lemma std_min_dle_l (a b : double) :
  is_nan a = false -> (std_min a b <=? a)%D = true.
Proof.
  intro Ha. unfold std_min. destruct (b <? a)%D eqn:E.
  - apply dlt_dle, E.
  - apply dle_refl, Ha.
Qed.

Lemma std_min_dle_r (a b : double) :
  is_nan a = false -> is_nan b = false -> (std_min a b <=? b)%D = true.
Proof.
  intros Ha Hb. unfold std_min. destruct (b <? a)%D eqn:E.
  - apply dle_refl, Hb.
  - apply dgt_false_dle; assumption.
Qed.

Lemma std_min_PInf_l (x : double) :
  is_nan x = false -> std_min kHighsInf x = x.
Proof. destruct x; d_cases. Qed.

Lemma std_max_dle_l (a b : double) :
  is_nan a = false -> (a <=? std_max a b)%D = true.
Proof.
  intro Ha. unfold std_max. destruct (a <? b)%D eqn:E.
  - apply dlt_dle, E.
  - apply dle_refl, Ha.
Qed.

Lemma std_max_dle_r (a b : double) :
  is_nan a = false -> is_nan b = false -> (b <=? std_max a b)%D = true.
Proof.
  intros Ha Hb. unfold std_max. destruct (a <? b)%D eqn:E.
  - apply dle_refl, Hb.
  - apply dgt_false_dle; assumption.
Qed.

Lemma std_max_cases (a b : double) : std_max a b = a \/ std_max a b = b.
Proof. unfold std_max. destruct (a <? b)%D; auto. Qed.

Lemma std_min_cases (a b : double) : std_min a b = a \/ std_min a b = b.
Proof. unfold std_min. destruct (b <? a)%D; auto. Qed.

Lemma is_finite_not_nan (x : double) : is_finite x = true -> is_nan x = false.
Proof. destruct x; d_cases. Qed.

Lemma dne_refl_d0 : (d0 !=? d0)%D = false.
Proof. reflexivity. Qed.

(* ================================================================== *)
(** * Facts about the solver state                                     *)
(* ================================================================== *)

(** Reads a field through the updates made on the way. *)
Ltac st_simpl :=
  cbn [
       mipsolver world feastol epsilon objectiveFunction lower_bound
       upper_bound upper_limit optimality_limit incumbent
       pruned_treeweight num_nodes num_leaves total_lp_iterations
       heuristic_lp_iterations sepa_lp_iterations sb_lp_iterations
       num_nodes_before_run num_leaves_before_run
       total_lp_iterations_before_run
       heuristic_lp_iterations_before_run sepa_lp_iterations_before_run
       sb_lp_iterations_before_run numImprovingSols numRestarts
       avgrootlpiters integral_cols integer_cols implint_cols
       continuous_cols numintegercols ARstart_ ARindex_ ARvalue_
       set_mipsolver set_world set_objectiveFunction set_lower_bound
       set_upper_bound set_upper_limit set_optimality_limit
       set_incumbent set_pruned_treeweight set_num_nodes set_num_leaves
       set_total_lp_iterations set_numImprovingSols set_numRestarts
       set_avgrootlpiters set_numintegercols set_cols set_AR
       snapshot_before_run model_ orig_model_ options_mip_ callback_
       submip solution_ solution_objective_ bound_violation_
       integrality_violation_ row_violation_ modelstatus_
       set_modelstatus_ set_model_ store_solution fst snd count_leaf] in *.

(** Splits on the conditions of the conditionals in the goal, outermost
    first. *)
Ltac split_ifs :=
  repeat match goal with
         | |- context [if ?c then _ else _] =>
             lazymatch c with
             | context [if _ then _ else _] => fail
             | _ => destruct c eqn:?
             end
         end.

(* ================================================================== *)
(** * The cutoff of [computeNewUpperLimit]                             *)
(* ================================================================== *)

Section Cutoff.
Context {World : Type} (C : Collaborators World).
Implicit Type st : HighsMipSolverData World.

Lemma cutoff_nonintegral_zero_gaps st (ub : double) :
  isIntegral (objectiveFunction st) = false ->
  computeNewUpperLimit C st ub d0 d0
  = std_min (ub - feastol st)%D (std_nextafter C ub (- kHighsInf)%D).
Proof.
  intro H. unfold computeNewUpperLimit. rewrite H, dne_refl_d0. reflexivity.
Qed.

Lemma cutoff_integral_zero_gaps st (ub : double) :
  isIntegral (objectiveFunction st) = true ->
  computeNewUpperLimit C st ub d0 d0
  = (dfloor (integralScale (objectiveFunction st) * ub - dhalf)
     / integralScale (objectiveFunction st) + feastol st)%D.
Proof.
  intro H. unfold computeNewUpperLimit. rewrite H, dne_refl_d0. reflexivity.
Qed.



End Cutoff.



(* ================================================================== *)
(** * The displayed bounds of [limitsToBounds]                         *)
(* ================================================================== *)

Section Display.
Context {World : Type}.
Implicit Type st : HighsMipSolverData World.

Lemma Qabs_pos_of_nonzero (q : Q) : ~ q == 0 -> 0 < Qabs q.
Proof.
  intro H. pose proof (Qabs_nonneg q) as Hn.
  destruct (Qeq_dec (Qabs q) 0) as [E | E]; [| lra].
  exfalso. apply H.
  pose proof (Qle_Qabs q). pose proof (Qle_Qabs (- q)).
  rewrite Qabs_opp in *. lra.
Qed.

(** The gap of a finite primal bound and a dual bound that is not above
    it is not negative. *)
Lemma display_gap_nonneg (q r : Q) :
  r <= q -> (d0 <=? display_gap (Fin q) (Fin r))%D = true.
Proof.
  intro Hle. unfold display_gap. cbn [deq d0].
  destruct (Qeq_bool q 0) eqn:Eq0.
  - destruct (Qeq_bool r 0); reflexivity.
  - cbn [dsub dneg dadd dmul d100 dabs ddiv].
    apply Qeq_bool_neq_iff in Eq0.
    pose proof (Qabs_pos_of_nonzero q Eq0) as Hpos.
    destruct (Qeq_bool (Qred (Qabs q)) 0) eqn:Eabs.
    + apply Qeq_bool_iff in Eabs. rewrite Qred_correct in Eabs. lra.
    + cbn [dle]. apply Qle_bool_iff. rewrite !Qred_correct.
      apply Qle_shift_div_l; [exact Hpos |]. lra.
Qed.

Lemma display_gap_unbounded_dual (q : Q) :
  display_gap (Fin q) NInf = kHighsInf.
Proof.
  unfold display_gap. cbn [deq d0].
  destruct (Qeq_bool q 0) eqn:Eq0; [reflexivity |].
  apply Qeq_bool_neq_iff in Eq0.
  pose proof (Qabs_pos_of_nonzero q Eq0) as Hpos.
  assert (Hs : Qsign (Qred (Qabs q)) = Gt).
  { unfold Qsign. apply Qgt_alt. rewrite Qred_correct. exact Hpos. }
  cbn [dsub dneg dadd dmul d100 dabs dsign].
  change (Qsign 100) with Gt.
  cbn [sign_mul inf_of_sign ddiv dsign].
  rewrite Hs. destruct (Qeq_bool (Qred (Qabs q)) 0); reflexivity.
Qed.

Lemma clamped_gap_nonneg (q : Q) (dual : double) :
  is_nan dual = false ->
  (d0 <=? display_gap (Fin q) (std_min dual (Fin q)))%D = true.
Proof.
  intro Hnan. unfold std_min.
  destruct dual as [| | r |]; try discriminate; cbn [dlt].
  - rewrite display_gap_unbounded_dual. reflexivity.
  - destruct (Qltb q r) eqn:E.
    + apply display_gap_nonneg. lra.
    + apply display_gap_nonneg. apply Qltb_ge, E.
  - apply display_gap_nonneg. lra.
Qed.

(** C9 (as amended).  Both bounds are shifted by the offset and snapped
    to zero within [epsilon].  Without an incumbent
    ([upper_bound = +infinity]) the primal bound and the gap are
    [+infinity].  With an incumbent the dual bound is first clamped to
    the primal bound, and the gap is [100*(primal-dual)/|primal|] of the
    snapped primal and the clamped dual, or, for a zero primal, [0] if
    the dual is zero and [+infinity] otherwise; because of the clamp it
    is never negative for a finite primal bound.  The primal bound
    reported is capped by [objective_bound] after the gap is computed,
    and both bounds are negated for a maximisation problem. *)
Theorem limitsToBounds_display st :
  limitsToBounds st
  = (let cap := std_min (objective_bound (options_mip_ (mipsolver st))) in
     let dual := snapped st (lower_bound st) in
     if (upper_bound st !=? kHighsInf)%D then
       let primal := snapped st (upper_bound st) in
       (display_sign st (std_min dual primal), display_sign st (cap primal),
        display_gap primal (std_min dual primal))
     else
       (display_sign st dual, display_sign st (cap kHighsInf), kHighsInf))
  /\ ((upper_bound st !=? kHighsInf)%D = true ->
      is_finite (snapped st (upper_bound st)) = true ->
      is_nan (snapped st (lower_bound st)) = false ->
      (d0 <=? snd (limitsToBounds st))%D = true).
Proof.
  assert (Heq :
    limitsToBounds st
    = (let cap := std_min (objective_bound (options_mip_ (mipsolver st))) in
       let dual := snapped st (lower_bound st) in
       if (upper_bound st !=? kHighsInf)%D then
         let primal := snapped st (upper_bound st) in
         (display_sign st (std_min dual primal),
          display_sign st (cap primal),
          display_gap primal (std_min dual primal))
       else
         (display_sign st dual, display_sign st (cap kHighsInf),
          kHighsInf))).
  { unfold limitsToBounds, snapped, display_sign, display_gap.
    destruct (upper_bound st !=? kHighsInf)%D;
      destruct (is_kMaximize (sense_ (orig_model_ (mipsolver st))));
      reflexivity. }
  split; [exact Heq |].
  intros Hinc Hfin Hnan. rewrite Heq. cbv zeta. rewrite Hinc. cbn [snd].
  destruct (snapped st (upper_bound st)) as [| | q |]; try discriminate.
  apply clamped_gap_nonneg, Hnan.
Qed.

(** With an incumbent the dual bound shown never exceeds the primal
    bound the gap is computed from, whatever the two bounds of the state
    are. *)
Lemma limitsToBounds_dual_clamped st :
  is_nan (snapped st (lower_bound st)) = false ->
  is_nan (snapped st (upper_bound st)) = false ->
  (std_min (snapped st (lower_bound st)) (snapped st (upper_bound st))
   <=? snapped st (upper_bound st))%D = true.
Proof. intros Hl Hu. apply std_min_dle_r; assumption. Qed.

End Display.

(** C9 as stated fails before the first incumbent: the primal bound is
    [+infinity], which is not zero, and the gap reported is [+infinity],
    where [100*(primal-dual)/|primal|] is [inf/inf], not a number. *)
Lemma limitsToBounds_gap_without_incumbent :
  limitsToBounds no_incumbent_state = (Fin 5, kHighsInf, kHighsInf)
  /\ (snapped no_incumbent_state (upper_bound no_incumbent_state) ==? d0)%D
     = false
  /\ display_gap (snapped no_incumbent_state (upper_bound no_incumbent_state))
       (snapped no_incumbent_state (lower_bound no_incumbent_state)) = NaN
  /\ snd (limitsToBounds no_incumbent_state)
     <> display_gap
          (snapped no_incumbent_state (upper_bound no_incumbent_state))
          (snapped no_incumbent_state (lower_bound no_incumbent_state)).
Proof.
  repeat split; try (vm_compute; reflexivity).
  vm_compute. discriminate.
Qed.

Lemma limitsToBounds_display_witness :
  limitsToBounds cutoff_state = (Fin 5, Fin 10, Fin 50)
  /\ (d0 <=? snd (limitsToBounds cutoff_state))%D = true.
Proof.
  split; [vm_compute; reflexivity |].
  exact (proj2 (limitsToBounds_display cutoff_state) eq_refl eq_refl eq_refl).
Defined.

(* ================================================================== *)
(** * The limit checker                                                *)
(* ================================================================== *)

Section Limits.
Context {World : Type} (C : Collaborators World).
Implicit Type st : HighsMipSolverData World.

(** [checkLimits] is the first condition of the specification's list
    that holds: it reports [true], and writes that condition's status if
    the model status is still [kNotset]. *)
Lemma checkLimits_first_limit_hit st (nodeOffset : Z) :
  checkLimits C st nodeOffset
  = match first_limit_hit C st nodeOffset with
    | Some s =>
        (true,
         if HighsModelStatus_eqb (modelstatus_ (mipsolver st)) kNotset
         then set_mipsolver (set_modelstatus_ s (mipsolver st)) st
         else st)
    | None => (false, st)
    end.
Proof.
  unfold checkLimits, first_limit_hit, limit_conditions, limit_reached.
  cbn [find fst snd].
  repeat match goal with
         | |- context [if ?c then _ else _] => destruct c; try reflexivity
         end.
Qed.

(** The conditions do not read the model status. *)
Lemma limit_conditions_status st (s : HighsModelStatus) (nodeOffset : Z) :
  limit_conditions C (set_mipsolver (set_modelstatus_ s (mipsolver st)) st)
    nodeOffset
  = limit_conditions C st nodeOffset.
Proof. reflexivity. Qed.

Lemma first_limit_hit_status st (s : HighsModelStatus) (nodeOffset : Z) :
  first_limit_hit C (set_mipsolver (set_modelstatus_ s (mipsolver st)) st)
    nodeOffset
  = first_limit_hit C st nodeOffset.
Proof. reflexivity. Qed.

(** No limit reports [kNotset]. *)
Lemma first_limit_hit_not_notset st (nodeOffset : Z) (s : HighsModelStatus) :
  first_limit_hit C st nodeOffset = Some s ->
  HighsModelStatus_eqb s kNotset = false.
Proof.
  unfold first_limit_hit, limit_conditions. cbn [find fst].
  repeat match goal with
         | |- context [if ?c then _ else _] => destruct c
         end;
    intro H; try discriminate; injection H as <-; reflexivity.
Qed.

Lemma checkLimits_fst st (nodeOffset : Z) :
  fst (checkLimits C st nodeOffset)
  = match first_limit_hit C st nodeOffset with
    | Some _ => true
    | None => false
    end.
Proof.
  rewrite checkLimits_first_limit_hit.
  destruct (first_limit_hit C st nodeOffset); reflexivity.
Qed.

Lemma checkLimits_status st (nodeOffset : Z) :
  modelstatus_ (mipsolver (snd (checkLimits C st nodeOffset)))
  = match first_limit_hit C st nodeOffset with
    | Some s => status_after_limit (modelstatus_ (mipsolver st)) s
    | None => modelstatus_ (mipsolver st)
    end.
Proof.
  rewrite checkLimits_first_limit_hit.
  destruct (first_limit_hit C st nodeOffset); [| reflexivity].
  cbn [snd]. destruct (modelstatus_ (mipsolver st)) eqn:E;
    cbn [HighsModelStatus_eqb status_after_limit]; try exact E.
  reflexivity.
Qed.

(** C6 (as amended).  [checkLimits] tests user interrupt, objective
    target, node count, leaf count, improving-solution count and
    wall-clock time in this order; it returns whether one of them holds
    at this call, and the first that holds writes its status if the
    model status is still [kNotset].  A status that is set is never
    altered, whatever the later call finds; and a later call for which
    the same conditions hold (same offset, counters, clock and callback
    answer) returns the same answer and changes nothing. *)
Theorem checkLimits_sets_status_once st (nodeOffset : Z) :
  (fst (checkLimits C st nodeOffset)
   = match first_limit_hit C st nodeOffset with
     | Some _ => true
     | None => false
     end
   /\ modelstatus_ (mipsolver (snd (checkLimits C st nodeOffset)))
      = match first_limit_hit C st nodeOffset with
        | Some s => status_after_limit (modelstatus_ (mipsolver st)) s
        | None => modelstatus_ (mipsolver st)
        end)
  /\ (modelstatus_ (mipsolver st) <> kNotset ->
      snd (checkLimits C st nodeOffset) = st)
  /\ checkLimits C (snd (checkLimits C st nodeOffset)) nodeOffset
     = (fst (checkLimits C st nodeOffset), snd (checkLimits C st nodeOffset)).
Proof.
  split; [split; [apply checkLimits_fst | apply checkLimits_status] |].
  split.
  - intro Hset. rewrite checkLimits_first_limit_hit.
    destruct (first_limit_hit C st nodeOffset); [| reflexivity].
    destruct (modelstatus_ (mipsolver st)); try reflexivity.
    contradiction.
  - rewrite (checkLimits_first_limit_hit st).
    destruct (first_limit_hit C st nodeOffset) as [s |] eqn:Hhit;
      cbn [fst snd].
    + destruct (HighsModelStatus_eqb (modelstatus_ (mipsolver st)) kNotset)
        eqn:Hnotset.
      * rewrite checkLimits_first_limit_hit, first_limit_hit_status, Hhit.
        cbn [mipsolver set_mipsolver modelstatus_ set_modelstatus_].
        rewrite (first_limit_hit_not_notset _ _ _ Hhit). reflexivity.
      * rewrite checkLimits_first_limit_hit, Hhit, Hnotset. reflexivity.
    + rewrite checkLimits_first_limit_hit, Hhit. reflexivity.
Qed.

End Limits.

Lemma checkLimits_sets_status_once_witness :
  modelstatus_ (mipsolver stopped_state) <> kNotset
  /\ snd (checkLimits (Sim.collaborators Sim.no_repair) stopped_state 5)
     = stopped_state.
Proof.
  assert (H : modelstatus_ (mipsolver stopped_state) <> kNotset)
    by (vm_compute; discriminate).
  split; [exact H |].
  exact (proj1 (proj2 (checkLimits_sets_status_once
                         (Sim.collaborators Sim.no_repair) stopped_state 5))
           H).
Defined.

(** C6 as stated fails: a call that hits the node limit through its
    offset ([95 + 5 >= 100]) reports stop and sets [kSolutionLimit]; the
    next call, with offset [0], finds no limit ([95 < 100]) and returns
    [false], the status staying as it was set. *)
Lemma checkLimits_later_call_may_continue :
  let C := Sim.collaborators Sim.no_repair in
  let first := checkLimits C node_limit_state 5 in
  let second := checkLimits C (snd first) 0 in
  fst first = true
  /\ modelstatus_ (mipsolver (snd first)) = kSolutionLimit
  /\ fst second = false
  /\ modelstatus_ (mipsolver (snd second)) = kSolutionLimit.
Proof. vm_compute. repeat split. Qed.

(* ================================================================== *)
(** * The dimension guard of the feasibility checks                    *)
(* ================================================================== *)

Section DimensionGuard.
Context {World : Type} (C : Collaborators World).
Implicit Type st : HighsMipSolverData World.

(** C10.  A candidate whose length differs from the number of columns of
    the model makes [solutionColFeasible] return [false] before any
    vector is read; [checkSolution] and [trySolution] then return
    [false], and [trySolution] leaves the whole solver state, the
    incumbent and every bound with it, as it was. *)
Theorem dimension_guard st (solution : list double)
    (solution_source : SolutionSource) :
  Z.of_nat (length solution) <> num_col_ (model_ (mipsolver st)) ->
  solutionColFeasible st solution = Some None
  /\ checkSolution st solution = Some false
  /\ trySolution C st solution solution_source = Some (false, st).
Proof.
  intro Hlen. apply Z.eqb_neq in Hlen.
  assert (Hcol : solutionColFeasible st solution = Some None).
  { unfold solutionColFeasible. rewrite Hlen. reflexivity. }
  unfold checkSolution, trySolution. rewrite Hcol. auto.
Qed.

End DimensionGuard.

Lemma dimension_guard_witness :
  Z.of_nat (length [Fin 7; Fin 1])
  <> num_col_ (model_ (mipsolver no_incumbent_state))
  /\ trySolution (Sim.collaborators Sim.no_repair) no_incumbent_state
       [Fin 7; Fin 1] kSolutionSourceOther
     = Some (false, no_incumbent_state).
Proof.
  assert (H : Z.of_nat (length [Fin 7; Fin 1])
              <> num_col_ (model_ (mipsolver no_incumbent_state)))
    by (vm_compute; discriminate).
  split; [exact H |].
  exact (proj2 (proj2 (dimension_guard (Sim.collaborators Sim.no_repair)
                         no_incumbent_state [Fin 7; Fin 1]
                         kSolutionSourceOther H))).
Defined.

(* ================================================================== *)
(** * The one-shot repair of [transformNewIntegerFeasibleSolution]      *)
(* ================================================================== *)

Section Repair.
Context {World : Type} (C : Collaborators World).
Implicit Type st : HighsMipSolverData World.

(** The code under the label [try_again], as one equation. *)
Lemma try_again_eq (orig : HighsLp) (options : HighsOptions)
    (solution : HighsSolution) (allow_try_again : bool)
    (passes repairs : nat) :
  try_again C orig options solution allow_try_again passes repairs
  = let v := measure_violations orig options solution in
    if negb (violations_feasible options v) && allow_try_again then
      let '(ok, repaired) :=
        tmpSolver_run C (make_fixedModel orig solution)
          (mip_feasibility_tolerance options) in
      if ok then try_again C orig options repaired false (S passes) (S repairs)
      else mkTryAgain solution v (S passes) (S repairs)
    else mkTryAgain solution v (S passes) repairs.
Proof.
  funelim (try_again C orig options solution allow_try_again passes repairs);
    cbv zeta;
    try match goal with H : negb _ && _ = _ |- _ => rewrite H end;
    try match goal with H : tmpSolver_run _ _ _ = _ |- _ => rewrite H end;
    reflexivity.
Qed.

(** Once [allow_try_again] is false the pass is the last one. *)
Lemma try_again_last_pass (orig : HighsLp) (options : HighsOptions)
    (solution : HighsSolution) (passes repairs : nat) :
  try_again C orig options solution false passes repairs
  = mkTryAgain solution (measure_violations orig options solution)
      (S passes) repairs.
Proof.
  rewrite try_again_eq. cbv zeta. rewrite andb_false_r. reflexivity.
Qed.

(** The three ways through the label, starting with
    [allow_try_again = true]. *)
Lemma try_again_cases (orig : HighsLp) (options : HighsOptions)
    (solution : HighsSolution) :
  let first := measure_violations orig options solution in
  let attempt :=
    tmpSolver_run C (make_fixedModel orig solution)
      (mip_feasibility_tolerance options) in
  try_again C orig options solution true 0 0
  = if violations_feasible options first then mkTryAgain solution first 1 0
    else if fst attempt then
      mkTryAgain (snd attempt)
        (measure_violations orig options (snd attempt)) 2 1
    else mkTryAgain solution first 1 1.
Proof.
  cbv zeta. rewrite try_again_eq. cbv zeta. rewrite andb_true_r.
  destruct (violations_feasible options
              (measure_violations orig options solution)); cbn [negb];
    [reflexivity |].
  destruct (tmpSolver_run C (make_fixedModel orig solution)
              (mip_feasibility_tolerance options)) as [[|] repaired];
    cbn [fst snd]; [apply try_again_last_pass | reflexivity].
Qed.

(** C8.  For every input the violation check of
    [transformNewIntegerFeasibleSolution] ends: the repair LP is run at
    most once, and only after a first pass found a violation; the check
    is passed at most twice, and a second time exactly when the repair
    LP was run and reported a feasible point. *)
Theorem repair_is_bounded (orig : HighsLp) (options : HighsOptions)
    (solution : HighsSolution) :
  let out := try_again C orig options solution true 0 0 in
  let first := measure_violations orig options solution in
  let attempt :=
    tmpSolver_run C (make_fixedModel orig solution)
      (mip_feasibility_tolerance options) in
  (ta_passes out <= 2)%nat
  /\ (ta_repairs out <= 1)%nat
  /\ (ta_repairs out = 1%nat <-> violations_feasible options first = false)
  /\ (ta_passes out = 2%nat
      <-> violations_feasible options first = false /\ fst attempt = true)
  /\ ta_violations out
     = measure_violations orig options (ta_solution out).
Proof.
  cbv zeta. rewrite try_again_cases. cbv zeta.
  destruct (violations_feasible options
              (measure_violations orig options solution));
    [| destruct (fst (tmpSolver_run C (make_fixedModel orig solution)
                        (mip_feasibility_tolerance options)))];
    cbn [ta_passes ta_repairs ta_violations ta_solution];
    repeat split; intros; try lia; try discriminate; try reflexivity;
    try tauto.
  all: match goal with H : _ /\ _ |- _ => destruct H; discriminate end.
Qed.

(** ** The model of the repair LP *)

Lemma nth_error_list_set_same {A : Type} (v : list A) (n : nat) (a : A) :
  (n < length v)%nat -> nth_error (list_set v n a) n = Some a.
Proof.
  revert n. induction v as [| h t IH]; intros [| n] Hn; cbn in *;
    try lia; [reflexivity | apply IH; lia].
Qed.

Lemma nth_error_list_set_other {A : Type} (v : list A) (n m : nat) (a : A) :
  n <> m -> nth_error (list_set v n a) m = nth_error v m.
Proof.
  revert n m. induction v as [| h t IH]; intros [| n] [| m] Hnm; cbn;
    try reflexivity; try contradiction.
  apply IH. congruence.
Qed.

Lemma length_list_set {A : Type} (v : list A) (n : nat) (a : A) :
  length (list_set v n a) = length v.
Proof.
  revert n. induction v as [| h t IH]; intros [| n]; cbn; auto.
Qed.

Lemma vget_vset_same {A : Type} (d : A) (v : list A) (i : Z) (a : A) :
  (0 <= i < Z.of_nat (length v))%Z -> vget d (vset v i a) i = a.
Proof.
  intros [H0 H1]. unfold vget, vread, vset.
  destruct (i <? 0)%Z eqn:E; [apply Z.ltb_lt in E; lia |].
  rewrite nth_error_list_set_same by lia. reflexivity.
Qed.

Lemma vget_vset_other {A : Type} (d : A) (v : list A) (i j : Z) (a : A) :
  i <> j -> vget d (vset v i a) j = vget d v j.
Proof.
  intro Hij. unfold vget, vread, vset.
  destruct (i <? 0)%Z eqn:Ei; [reflexivity |].
  destruct (j <? 0)%Z eqn:Ej; [reflexivity |].
  apply Z.ltb_ge in Ei, Ej.
  rewrite nth_error_list_set_other by lia. reflexivity.
Qed.

Lemma length_vset {A : Type} (v : list A) (i : Z) (a : A) :
  length (vset v i a) = length v.
Proof.
  unfold vset. destruct (i <? 0)%Z; [reflexivity | apply length_list_set].
Qed.

Lemma fix_columns_bounds (orig : HighsLp) (solution : HighsSolution)
    (cols : list Z) :
  NoDup cols ->
  forall (m : HighsLp) (j : Z),
    (0 <= j < Z.of_nat (length (col_lower_ m)))%Z ->
    (0 <= j < Z.of_nat (length (col_upper_ m)))%Z ->
    let m' := fold_left (fix_column orig solution) cols m in
    (In j cols ->
     vget NaN (col_lower_ m') j = fixed_lower orig solution (col_lower_ m) j
     /\ vget NaN (col_upper_ m') j
        = fixed_upper orig solution (col_upper_ m) j)
    /\ (~ In j cols ->
        vget NaN (col_lower_ m') j = vget NaN (col_lower_ m) j
        /\ vget NaN (col_upper_ m') j = vget NaN (col_upper_ m) j)
    /\ integrality_ m' = integrality_ m.
Proof.
  induction cols as [| i rest IH]; intros Hnd m j Hl Hu; cbv zeta.
  - cbn [fold_left]. repeat split; auto; try contradiction.
  - apply NoDup_cons_iff in Hnd. destruct Hnd as [Hi Hnd].
    cbn [fold_left].
    assert (Hlen : length (col_lower_ (fix_column orig solution m i))
                   = length (col_lower_ m)
                   /\ length (col_upper_ (fix_column orig solution m i))
                      = length (col_upper_ m)
                   /\ integrality_ (fix_column orig solution m i)
                      = integrality_ m).
    { unfold fix_column.
      destruct (is_kInteger (vget kContinuous (integrality_ orig) i));
        cbn [col_lower_ col_upper_ integrality_];
        rewrite ?length_vset; auto. }
    destruct Hlen as (Hll & Hlu & Hint).
    specialize (IH Hnd (fix_column orig solution m i) j).
    rewrite Hll, Hlu in IH. specialize (IH Hl Hu). cbv zeta in IH.
    destruct IH as (IHin & IHout & IHint).
    split; [| split].
    + intros [-> | Hin].
      * destruct (IHout Hi) as (-> & ->).
        unfold fix_column, fixed_lower, fixed_upper.
        destruct (is_kInteger (vget kContinuous (integrality_ orig) j));
          cbn [col_lower_ col_upper_]; [| auto].
        rewrite !vget_vset_same by assumption. auto.
      * destruct (IHin Hin) as (-> & ->).
        assert (Hij : i <> j) by (intros ->; contradiction).
        unfold fix_column, fixed_lower, fixed_upper.
        destruct (is_kInteger (vget kContinuous (integrality_ orig) i));
          cbn [col_lower_ col_upper_]; [| auto].
        rewrite !(vget_vset_other _ _ i j) by exact Hij. auto.
    + intro Hnot.
      assert (Hij : i <> j) by (intros ->; apply Hnot; left; reflexivity).
      assert (Hrest : ~ In j rest) by (intro; apply Hnot; right; assumption).
      destruct (IHout Hrest) as (-> & ->).
      unfold fix_column.
      destruct (is_kInteger (vget kContinuous (integrality_ orig) i));
        cbn [col_lower_ col_upper_]; [| auto].
      rewrite !(vget_vset_other _ _ i j) by exact Hij. auto.
    + rewrite IHint. exact Hint.
Qed.

Lemma indices_spec (n j : Z) : In j (indices n) <-> (0 <= j < n)%Z.
Proof.
  unfold indices. rewrite in_map_iff. split.
  - intros (k & <- & Hk). apply in_seq in Hk. lia.
  - intros [H0 H1]. exists (Z.to_nat j). split; [lia |].
    apply in_seq. lia.
Qed.

Lemma indices_NoDup (n : Z) : NoDup (indices n).
Proof.
  unfold indices. apply NoDup_map_NoDup_ForallPairs; [| apply seq_NoDup].
  intros a b _ _. apply Nat2Z.inj.
Qed.

(** The model handed to the repair LP: integrality is dropped, every
    integer column is fixed to the rounded value of the candidate
    (within its own bounds), the other columns keep their bounds. *)
Lemma make_fixedModel_fixes_integers (orig : HighsLp)
    (solution : HighsSolution) (j : Z) :
  (0 <= j < num_col_ orig)%Z ->
  (j < Z.of_nat (length (col_lower_ orig)))%Z ->
  (j < Z.of_nat (length (col_upper_ orig)))%Z ->
  integrality_ (make_fixedModel orig solution) = []
  /\ vget NaN (col_lower_ (make_fixedModel orig solution)) j
     = fixed_lower orig solution (col_lower_ orig) j
  /\ vget NaN (col_upper_ (make_fixedModel orig solution)) j
     = fixed_upper orig solution (col_upper_ orig) j.
Proof.
  intros Hj Hl Hu. unfold make_fixedModel. cbv zeta.
  match goal with
  | |- context [fold_left _ _ ?m0] =>
      pose proof (fix_columns_bounds orig solution (indices (num_col_ orig))
                    (indices_NoDup (num_col_ orig)) m0 j) as H
  end.
  cbn [col_lower_ col_upper_ integrality_] in H. cbv zeta in H.
  destruct H as (Hin & _ & Hint); try lia.
  destruct (Hin (proj2 (indices_spec _ _) Hj)) as (Hlow & Hup).
  split; [exact Hint |]. split; assumption.
Qed.

End Repair.

(* ================================================================== *)
(** * Storage of candidates by [transformNewIntegerFeasibleSolution]    *)
(* ================================================================== *)

Section Storage.
Context {World : Type} (C : Collaborators World).
Implicit Type st : HighsMipSolverData World.

(** The function in terms of the candidate after the violation
    check. *)
Lemma transformNewIntegerFeasibleSolution_eq st (sol : list double)
    (possibly_store_as_new_incumbent : bool) :
  transformNewIntegerFeasibleSolution C st sol possibly_store_as_new_incumbent
  = if possibly_store_as_new_incumbent then
      if candidate_feasible C st sol then
        (candidate_objective C st sol,
         set_mipsolver (candidate_stored C st sol) st)
      else if currentFeasible (mipsolver st) then (kHighsInf, st)
      else (kHighsInf, set_mipsolver (candidate_stored C st sol) st)
    else (candidate_objective C st sol, st).
Proof.
  unfold transformNewIntegerFeasibleSolution, candidate_feasible,
    candidate_objective, candidate_stored, checked_candidate.
  destruct possibly_store_as_new_incumbent;
    [destruct (violations_feasible _ _);
       [| destruct (currentFeasible (mipsolver st))] |];
    cbn [negb];
    destruct (is_kMaximize (sense_ (orig_model_ (mipsolver st))));
    reflexivity.
Qed.

(** C4 (as amended).  Take a candidate whose violations exceed the
    tolerance after the repair attempt.  Called with
    [possibly_store_as_new_incumbent = true], the function returns
    [+infinity] and stores the candidate, with its violations and its
    objective, exactly when the solver holds no feasible incumbent.
    Called with [possibly_store_as_new_incumbent = false], it stores
    nothing and returns the transformed objective of the candidate. *)
Theorem infeasible_candidate_is_fallback_only st (sol : list double) :
  candidate_feasible C st sol = false ->
  transformNewIntegerFeasibleSolution C st sol true
  = (kHighsInf,
     if currentFeasible (mipsolver st) then st
     else set_mipsolver (candidate_stored C st sol) st)
  /\ transformNewIntegerFeasibleSolution C st sol false
     = (candidate_objective C st sol, st).
Proof.
  intro Hinf. rewrite !transformNewIntegerFeasibleSolution_eq, Hinf.
  destruct (currentFeasible (mipsolver st)); split; reflexivity.
Qed.

(** What [addIncumbent] does with the value returned: it reads it only
    when it asked for storage, and then a value of [+infinity] is
    rejected without touching a bound. *)
Lemma addIncumbent_rejects_infinity st (sol : list double) (solobj : double)
    (solution_source : SolutionSource) :
  (solobj <? upper_bound st)%D = true ->
  candidate_feasible C st sol = false ->
  fst (addIncumbent C st sol solobj solution_source) = false
  /\ upper_bound (snd (addIncumbent C st sol solobj solution_source))
     = upper_bound st
  /\ lower_bound (snd (addIncumbent C st sol solobj solution_source))
     = lower_bound st.
Proof.
  intros Hlt Hinf. unfold addIncumbent. rewrite Hlt. cbn [orb].
  rewrite transformNewIntegerFeasibleSolution_eq, Hinf.
  assert (Hge : (kHighsInf >=? upper_bound st)%D = true).
  { apply dlt_not_nan_r in Hlt. destruct (upper_bound st); d_cases. }
  destruct (currentFeasible (mipsolver st));
    cbn [upper_bound set_mipsolver]; rewrite Hge; auto.
Qed.

End Storage.

Lemma infeasible_candidate_is_fallback_only_witness :
  candidate_feasible (Sim.collaborators Sim.no_repair) no_incumbent_state
    [Fin (1 # 2)] = false
  /\ transformNewIntegerFeasibleSolution (Sim.collaborators Sim.no_repair)
       no_incumbent_state [Fin (1 # 2)] false
     = (candidate_objective (Sim.collaborators Sim.no_repair)
          no_incumbent_state [Fin (1 # 2)], no_incumbent_state).
Proof.
  assert (H : candidate_feasible (Sim.collaborators Sim.no_repair)
                no_incumbent_state [Fin (1 # 2)] = false)
    by (vm_compute; reflexivity).
  split; [exact H |].
  exact (proj2 (infeasible_candidate_is_fallback_only
                  (Sim.collaborators Sim.no_repair) no_incumbent_state
                  [Fin (1 # 2)] H)).
Defined.

(** C4 as stated fails when no storage is asked for: the candidate
    [x = 1/2] of an integer column keeps an integrality violation of
    [1/2] after the failed repair, and the call with
    [possibly_store_as_new_incumbent = false] returns its objective
    [1/2], not [+infinity]. *)
Lemma infeasible_candidate_without_storage_returns_objective :
  let C := Sim.collaborators Sim.no_repair in
  candidate_feasible C no_incumbent_state [Fin (1 # 2)] = false
  /\ fst (transformNewIntegerFeasibleSolution C no_incumbent_state
            [Fin (1 # 2)] false) = Fin (1 # 2)
  /\ fst (transformNewIntegerFeasibleSolution C no_incumbent_state
            [Fin (1 # 2)] false) <> kHighsInf.
Proof.
  cbv zeta. repeat split; try (vm_compute; reflexivity).
  vm_compute. discriminate.
Qed.

(* ================================================================== *)
(** * Incumbent acceptance                                             *)
(* ================================================================== *)

Section Incumbent.
Context {World : Type} (C : Collaborators World).
Implicit Type st : HighsMipSolverData World.

(** [transformNewIntegerFeasibleSolution] writes the solution kept in
    [mipsolver] and nothing else. *)
Lemma transform_frame st (sol : list double) (flag : bool) :
  let st' := snd (transformNewIntegerFeasibleSolution C st sol flag) in
  (world st' = world st /\ feastol st' = feastol st
   /\ epsilon st' = epsilon st
   /\ objectiveFunction st' = objectiveFunction st)
  /\ (lower_bound st' = lower_bound st /\ upper_bound st' = upper_bound st
      /\ upper_limit st' = upper_limit st
      /\ optimality_limit st' = optimality_limit st)
  /\ (incumbent st' = incumbent st
      /\ pruned_treeweight st' = pruned_treeweight st
      /\ numImprovingSols st' = numImprovingSols st
      /\ num_nodes st' = num_nodes st /\ num_leaves st' = num_leaves st)
  /\ (model_ (mipsolver st') = model_ (mipsolver st)
      /\ orig_model_ (mipsolver st') = orig_model_ (mipsolver st)
      /\ options_mip_ (mipsolver st') = options_mip_ (mipsolver st)
      /\ modelstatus_ (mipsolver st') = modelstatus_ (mipsolver st)).
Proof.
  cbv zeta. rewrite transformNewIntegerFeasibleSolution_eq.
  unfold candidate_stored. split_ifs; st_simpl; tauto.
Qed.

(** The result of [addIncumbent] on [upper_bound]: it stays, or it
    becomes the transformed objective of the candidate, which is then
    not [>=] the old bound, and the call returns [true]. *)
Lemma addIncumbent_upper_bound st (sol : list double) (solobj : double)
    (solution_source : SolutionSource) :
  let r := addIncumbent C st sol solobj solution_source in
  let t := fst (transformNewIntegerFeasibleSolution C st sol true) in
  upper_bound (snd r) = upper_bound st
  \/ ((solobj <? upper_bound st)%D = true
      /\ (t >=? upper_bound st)%D = false
      /\ fst r = true
      /\ upper_bound (snd r) = t).
Proof.
  cbv zeta. unfold addIncumbent.
  destruct (solobj <? upper_bound st)%D eqn:Hlt; cbn [orb].
  - pose proof (transform_frame st sol true) as F. cbv zeta in F.
    destruct (transformNewIntegerFeasibleSolution C st sol true)
      as [t st1]. cbn [fst snd] in F |- *.
    destruct F as (_ & (_ & Hub & _) & _).
    rewrite Hub.
    destruct (t >=? upper_bound st)%D eqn:Hge; [left; exact Hub |].
    right. split; [reflexivity |]. split; [reflexivity |].
    split_ifs;
      try match goal with
          | |- context [nodequeue_performBounding ?c ?l ?w] =>
              destruct (nodequeue_performBounding c l w)
          end;
      st_simpl; auto.
  - pose proof (transform_frame st sol false) as F. cbv zeta in F.
    left. split_ifs.
    all: destruct (transformNewIntegerFeasibleSolution C st sol false)
           as [t st1]; cbn [fst snd] in F |- *;
         destruct F as (_ & (_ & Hub & _) & (Hinc & _) & _);
         destruct (incumbent st1); st_simpl; auto.
    all: destruct (incumbent st); st_simpl; auto.
Qed.

(** C2.  A call of [addIncumbent] never raises [upper_bound]: the
    value before the call is not below the value after it.  When both
    are numbers, the value after the call is at most the value before;
    and when the call rewrites [upper_bound], which it does only on
    returning [true] with the candidate taken as the bounding incumbent,
    the new value is strictly below the old. *)
Theorem addIncumbent_upper_bound_nonincreasing st (sol : list double)
    (solobj : double) (solution_source : SolutionSource) :
  (upper_bound st
   <? upper_bound (snd (addIncumbent C st sol solobj solution_source)))%D
  = false
  /\ (is_nan (upper_bound st) = false ->
      is_nan (upper_bound (snd (addIncumbent C st sol solobj solution_source)))
      = false ->
      (upper_bound (snd (addIncumbent C st sol solobj solution_source))
       <=? upper_bound st)%D = true
      /\ (upper_bound (snd (addIncumbent C st sol solobj solution_source))
          = upper_bound st
          \/ (fst (addIncumbent C st sol solobj solution_source) = true
              /\ (upper_bound
                    (snd (addIncumbent C st sol solobj solution_source))
                  <? upper_bound st)%D = true))).
Proof.
  destruct (addIncumbent_upper_bound st sol solobj solution_source)
    as [Heq | (Hlt & Hge & Htrue & Heq)]; rewrite Heq.
  - split; [apply dlt_irrefl |].
    intros Hnan _. split; [apply dle_refl, Hnan | left; reflexivity].
  - split; [apply dle_false_dlt_false, Hge |].
    intros Hnan Hnan'.
    assert (Hstrict :
      (fst (transformNewIntegerFeasibleSolution C st sol true)
       <? upper_bound st)%D = true)
      by (apply dge_false_dlt; assumption).
    split; [apply dlt_dle, Hstrict | right; split; assumption].
Qed.

End Incumbent.

Lemma addIncumbent_upper_bound_nonincreasing_witness :
  is_nan (upper_bound no_incumbent_state) = false
  /\ (upper_bound
        (snd (addIncumbent (Sim.collaborators Sim.no_repair)
                no_incumbent_state [Fin 7] (Fin 7) kSolutionSourceOther))
      <? upper_bound no_incumbent_state)%D = true.
Proof.
  assert (H : is_nan (upper_bound no_incumbent_state) = false)
    by reflexivity.
  assert (H' : is_nan
                 (upper_bound
                    (snd (addIncumbent (Sim.collaborators Sim.no_repair)
                            no_incumbent_state [Fin 7] (Fin 7)
                            kSolutionSourceOther))) = false)
    by (vm_compute; reflexivity).
  split; [exact H |].
  destruct (proj2 (proj2 (addIncumbent_upper_bound_nonincreasing
                            (Sim.collaborators Sim.no_repair)
                            no_incumbent_state [Fin 7] (Fin 7)
                            kSolutionSourceOther) H H'))
    as [Hsame | [_ Hless]].
  - vm_compute in Hsame. discriminate.
  - exact Hless.
Defined.

(* ================================================================== *)
(** * What the operations do to the bounds and the pruned weight       *)
(* ================================================================== *)

Section Operations.
Context {World : Type} (C : Collaborators World).
Implicit Type st : HighsMipSolverData World.

(** [addIncumbent] leaves the lower bound, the tolerance and the
    counters of nodes and leaves alone. *)
Lemma addIncumbent_frame st (sol : list double) (solobj : double)
    (solution_source : SolutionSource) :
  let st' := snd (addIncumbent C st sol solobj solution_source) in
  lower_bound st' = lower_bound st /\ feastol st' = feastol st.
Proof.
  cbv zeta. unfold addIncumbent.
  destruct (solobj <? upper_bound st)%D; cbn [orb].
  - pose proof (transform_frame C st sol true) as F. cbv zeta in F.
    destruct (transformNewIntegerFeasibleSolution C st sol true)
      as [t st1]. cbn [fst snd] in F |- *.
    destruct F as ((_ & Hf & _) & (Hl & _) & _).
    split_ifs;
      try match goal with
          | |- context [nodequeue_performBounding ?c ?l ?w] =>
              destruct (nodequeue_performBounding c l w)
          end;
      st_simpl; auto.
  - pose proof (transform_frame C st sol false) as F. cbv zeta in F.
    split_ifs.
    all: destruct (transformNewIntegerFeasibleSolution C st sol false)
           as [t st1]; cbn [fst snd] in F |- *;
         destruct F as ((_ & Hf & _) & (Hl & _) & (Hinc & _) & _);
         destruct (incumbent st1); st_simpl; auto.
    all: destruct (incumbent st); st_simpl; auto.
Qed.

(** [addIncumbent] leaves the pruned weight, sets it to one, or adds
    what [performBounding] reports; a call that returns [false] leaves
    it. *)
Lemma addIncumbent_pruned_treeweight st (sol : list double) (solobj : double)
    (solution_source : SolutionSource) :
  let r := addIncumbent C st sol solobj solution_source in
  pruned_treeweight (snd r) = pruned_treeweight st
  \/ (fst r = true
      /\ (pruned_treeweight (snd r) = d1
          \/ exists (limit : double) (w : World),
               pruned_treeweight (snd r)
               = (pruned_treeweight st
                  + fst (nodequeue_performBounding C limit w))%D)).
Proof.
  cbv zeta. unfold addIncumbent.
  destruct (solobj <? upper_bound st)%D; cbn [orb].
  - pose proof (transform_frame C st sol true) as F. cbv zeta in F.
    destruct (transformNewIntegerFeasibleSolution C st sol true)
      as [t st1]. cbn [fst snd] in F |- *.
    destruct F as (_ & _ & (_ & Hp & _) & _).
    split_ifs; st_simpl;
      try (left; exact Hp);
      try (right; split; [reflexivity | left; reflexivity]).
    all: match goal with
    | |- context [nodequeue_performBounding ?c ?l ?w] =>
        right; split;
        [ destruct (nodequeue_performBounding c l w); reflexivity
        | right; exists l, w;
          destruct (nodequeue_performBounding c l w); st_simpl;
          rewrite Hp; reflexivity ]
    end.
  - pose proof (transform_frame C st sol false) as F. cbv zeta in F.
    left. split_ifs.
    all: destruct (transformNewIntegerFeasibleSolution C st sol false)
           as [t st1]; cbn [fst snd] in F |- *;
         destruct F as (_ & _ & (_ & Hp & _) & _);
         destruct (incumbent st1); st_simpl; auto.
    all: destruct (incumbent st); st_simpl; auto.
Qed.


(** The steps of a pass of [evaluateRootLp] before the LP status is
    looked at touch neither bound. *)
Lemma evaluateRootLp_propagate_same st :
  same_bounds st (evaluateRootLp_propagate C st).
Proof.
  unfold evaluateRootLp_propagate, same_bounds.
  split_ifs; st_simpl; auto.
Qed.

Lemma evaluateRootLp_flush_same st :
  same_bounds st (snd (evaluateRootLp_flush C st)).
Proof.
  unfold evaluateRootLp_flush, removeFixedIndices, same_bounds.
  split_ifs; st_simpl; auto.
Qed.

Lemma evaluateRootLp_resolve_same st :
  same_bounds st (snd (evaluateRootLp_resolve C st)).
Proof.
  unfold evaluateRootLp_resolve, same_bounds.
  destruct (lp_resolveLp C (world st)); st_simpl; auto.
Qed.

Lemma same_bounds_trans st st' st'' :
  same_bounds st st' -> same_bounds st' st'' -> same_bounds st st''.
Proof.
  unfold same_bounds. intros (-> & -> & -> & ->) (-> & -> & -> & ->). auto.
Qed.

(** The tail of a pass: the upper bound and the tolerance stay; the
    pruned weight stays or becomes one; the lower bound stays, or
    becomes [std::min] of infinity and the upper bound, or is raised to
    the objective of a dual feasible LP; a pass that goes round the
    loop leaves the pruned weight. *)
Lemma evaluateRootLp_tail_shape st (status : Status.t) (lpWasSolved : bool) :
  let r := evaluateRootLp_tail C st status lpWasSolved in
  (feastol (fst r) = feastol st /\ upper_bound (fst r) = upper_bound st)
  /\ (pruned_treeweight (fst r) = pruned_treeweight st
      \/ pruned_treeweight (fst r) = d1)
  /\ (lower_bound (fst r) = lower_bound st
      \/ lower_bound (fst r) = std_min kHighsInf (upper_bound st)
      \/ exists w : World,
           lp_unscaledDualFeasible C w (lp_getStatus C w) = true
           /\ lower_bound (fst r)
              = std_max (lp_getObjective C w) (lower_bound st)).
Proof.
  cbv zeta. unfold evaluateRootLp_tail, count_leaf.
  destruct (Status.eqb status Status.kInfeasible).
  - st_simpl. auto 6.
  - destruct (lp_unscaledDualFeasible C (world st) (lp_getStatus C (world st)))
      eqn:Hdual.
    + assert (Hraise : exists w : World,
                lp_unscaledDualFeasible C w (lp_getStatus C w) = true
                /\ std_max (lp_getObjective C (world st)) (lower_bound st)
                   = std_max (lp_getObjective C w) (lower_bound st))
        by (exists (world st); auto).
      split_ifs; st_simpl; auto 6.
    + split_ifs; st_simpl; auto 6.
Qed.

(** A pass of [evaluateRootLp].  The tolerance stays; the pruned weight
    stays or becomes one.  Either the upper bound stays and the lower
    bound stays, becomes [std::min] of infinity and the upper bound, or
    is raised to the objective of a dual feasible LP; or the pass
    returns with the lower bound set to the upper bound, after the LP
    solution was taken as incumbent. *)
Lemma evaluateRootLp_body_shape st :
  let r := evaluateRootLp_body C st in
  feastol (fst r) = feastol st
  /\ (pruned_treeweight (fst r) = pruned_treeweight st
      \/ pruned_treeweight (fst r) = d1)
  /\ ((upper_bound (fst r) = upper_bound st
       /\ (lower_bound (fst r) = lower_bound st
           \/ lower_bound (fst r) = std_min kHighsInf (upper_bound st)
           \/ exists w : World,
                lp_unscaledDualFeasible C w (lp_getStatus C w) = true
                /\ lower_bound (fst r)
                   = std_max (lp_getObjective C w) (lower_bound st)))
      \/ (lower_bound (fst r) = upper_bound (fst r)
          /\ snd r <> None)).
Proof.
  cbv zeta. unfold evaluateRootLp_body.
  pose proof (evaluateRootLp_propagate_same st) as (Hl1 & Hu1 & Hf1 & Hp1).
  set (st1 := evaluateRootLp_propagate C st) in *.
  destruct (domain_infeasible C (world st1)).
  { unfold count_leaf. st_simpl. rewrite Hu1, Hf1. auto 7. }
  pose proof (evaluateRootLp_flush_same st1) as (Hl2 & Hu2 & Hf2 & Hp2).
  destruct (evaluateRootLp_flush C st1) as [lpBoundsChanged st2].
  cbn [snd] in Hl2, Hu2, Hf2, Hp2.
  assert (Htail : forall st3 status solved,
            same_bounds st2 st3 ->
            let r := evaluateRootLp_tail C st3 status solved in
            feastol (fst r) = feastol st
            /\ (pruned_treeweight (fst r) = pruned_treeweight st
                \/ pruned_treeweight (fst r) = d1)
            /\ ((upper_bound (fst r) = upper_bound st
                 /\ (lower_bound (fst r) = lower_bound st
                     \/ lower_bound (fst r)
                        = std_min kHighsInf (upper_bound st)
                     \/ exists w : World,
                          lp_unscaledDualFeasible C w (lp_getStatus C w)
                          = true
                          /\ lower_bound (fst r)
                             = std_max (lp_getObjective C w)
                                 (lower_bound st)))
                \/ (lower_bound (fst r) = upper_bound (fst r)
                    /\ snd r <> None))).
  { intros st3 status solved (Hl3 & Hu3 & Hf3 & Hp3). cbv zeta.
    destruct (evaluateRootLp_tail_shape st3 status solved)
      as ((Hf & Hu) & Hp & Hl).
    rewrite Hf, Hu, Hf3, Hu3, Hf2, Hu2, Hf1, Hu1.
    rewrite Hp3, Hp2, Hp1 in Hp. rewrite Hl3, Hl2, Hl1, Hu3, Hu2, Hu1 in Hl.
    auto. }
  destruct (lpBoundsChanged || lp_solver_modelstatus_notset C (world st2)).
  2: { apply Htail. unfold same_bounds. auto. }
  pose proof (evaluateRootLp_resolve_same st2) as Hsame3.
  destruct (evaluateRootLp_resolve C st2) as [status st3].
  cbn [snd] in Hsame3. pose proof Hsame3 as (Hl3 & Hu3 & Hf3 & Hp3).
  destruct (Status.eqb status Status.kUnbounded).
  { unfold evaluateRootLp_unbounded, count_leaf.
    destruct (solution_ (mipsolver st3)); st_simpl;
      rewrite Hf3, Hu3, Hl3, Hf2, Hu2, Hl2, Hf1, Hu1, Hl1; auto 7. }
  destruct (Status.eqb status Status.kOptimal
            && lp_getFractionalIntegers_empty C (world st3)).
  2: { apply Htail, Hsame3. }
  pose proof (addIncumbent_frame st3 (lp_solution_col_value C (world st3))
                (lp_getObjective C (world st3)) kSolutionSourceEvaluateNode)
    as (Hl4 & Hf4).
  pose proof (addIncumbent_upper_bound C st3
                (lp_solution_col_value C (world st3))
                (lp_getObjective C (world st3)) kSolutionSourceEvaluateNode)
    as Hu4.
  pose proof (addIncumbent_pruned_treeweight st3
                (lp_solution_col_value C (world st3))
                (lp_getObjective C (world st3)) kSolutionSourceEvaluateNode)
    as Hp4.
  cbv zeta in Hl4, Hf4, Hu4, Hp4.
  destruct (addIncumbent C st3 (lp_solution_col_value C (world st3))
              (lp_getObjective C (world st3)) kSolutionSourceEvaluateNode)
    as [added st4].
  cbn [fst snd] in Hl4, Hf4, Hu4, Hp4.
  destruct added.
  { unfold count_leaf. st_simpl.
    rewrite Hf4, Hf3, Hf2, Hf1.
    split; [reflexivity |]. split; [right; reflexivity |].
    right. split; [reflexivity | discriminate]. }
  apply Htail. unfold same_bounds.
  destruct Hu4 as [Hu4 | (_ & _ & Hfalse & _)]; [| discriminate].
  destruct Hp4 as [Hp4 | (Hfalse & _)]; [| discriminate].
  rewrite Hl4, Hu4, Hf4, Hp4. auto.
Qed.

End Operations.

(* ================================================================== *)
(** * Consistency of the two bounds                                    *)
(* ================================================================== *)

Section BoundConsistency.
Context {World : Type} (C : Collaborators World).
Implicit Type st : HighsMipSolverData World.






End BoundConsistency.



(* ================================================================== *)
(** * The pruned tree weight                                           *)
(* ================================================================== *)

Section TreeWeight.
Context {World : Type} (C : Collaborators World).
Implicit Type st : HighsMipSolverData World.

(** The three values [addIncumbent] can leave are in the unit interval
    and not below the old one. *)
Lemma treeweight_step (p p' : double) :
  (d0 <=? p)%D = true -> (p <=? d1)%D = true ->
  bounding_within C p ->
  p' = p \/ p' = d1
        \/ (exists (limit : double) (w : World),
              p' = (p + fst (nodequeue_performBounding C limit w))%D) ->
  ((d0 <=? p')%D = true /\ (p' <=? d1)%D = true) /\ (p <=? p')%D = true.
Proof.
  intros H0 H1 Hq [-> | [-> | (limit & w & ->)]].
  - split; [auto |]. destruct p; d_cases.
  - split; [split; reflexivity | exact H1].
  - destruct (Hq limit w) as (Hd0 & Hd1).
    destruct (fst (nodequeue_performBounding C limit w)), p; d_cases.
    repeat split; d_cases.
Qed.

Lemma addIncumbent_treeweight st (sol : list double) (solobj : double)
    (solution_source : SolutionSource) :
  treeweight_in_unit st ->
  bounding_within C (pruned_treeweight st) ->
  treeweight_in_unit (snd (addIncumbent C st sol solobj solution_source))
  /\ (pruned_treeweight st
      <=? pruned_treeweight
            (snd (addIncumbent C st sol solobj solution_source)))%D = true.
Proof.
  intros (H0 & H1) Hq. unfold treeweight_in_unit.
  apply treeweight_step; try assumption.
  destruct (addIncumbent_pruned_treeweight C st sol solobj solution_source)
    as [H | (_ & [H | H])]; auto.
Qed.

Lemma evaluateRootLp_body_treeweight st :
  treeweight_in_unit st ->
  treeweight_in_unit (fst (evaluateRootLp_body C st))
  /\ (pruned_treeweight st
      <=? pruned_treeweight (fst (evaluateRootLp_body C st)))%D = true.
Proof.
  intros (H0 & H1). unfold treeweight_in_unit.
  destruct (evaluateRootLp_body_shape C st) as (_ & [-> | ->] & _).
  - repeat split; try assumption. destruct (pruned_treeweight st); d_cases.
  - repeat split; try assumption; reflexivity.
Qed.

Lemma evaluateRootLp_treeweight (fuel : nat) :
  forall st (status : Status.t) (st' : HighsMipSolverData World),
    treeweight_in_unit st ->
    evaluateRootLp C fuel st = Some (status, st') ->
    treeweight_in_unit st'
    /\ (pruned_treeweight st <=? pruned_treeweight st')%D = true.
Proof.
  induction fuel as [| fuel IH]; intros st status st' Hunit;
    cbn [evaluateRootLp]; [discriminate |].
  destruct (evaluateRootLp_body_treeweight st Hunit) as (Hunit1 & Hle1).
  destruct (evaluateRootLp_body C st) as [st1 [s |]]; cbn [fst] in *.
  - intro H. injection H as _ <-. auto.
  - intro Hrun. destruct (IH st1 status st' Hunit1 Hrun) as (Hunit' & Hle').
    split; [exact Hunit' | exact (dle_trans _ _ _ Hle1 Hle')].
Qed.

(** [checkLimits] writes the model status only. *)
Lemma checkLimits_same_bounds st (nodeOffset : Z) :
  same_bounds st (snd (checkLimits C st nodeOffset)).
Proof.
  rewrite checkLimits_first_limit_hit. unfold same_bounds.
  destruct (first_limit_hit C st nodeOffset); split_ifs; st_simpl; auto.
Qed.

Lemma runSetup_start_solution_pruned st :
  pruned_treeweight (runSetup_start_solution C st) = pruned_treeweight st.
Proof.
  unfold runSetup_start_solution. split_ifs; st_simpl; reflexivity.
Qed.

(** [runSetup] leaves the pruned weight, sets it to one (the model is
    infeasible after propagation), or, for a model without columns,
    lets [addIncumbent] change it. *)
Lemma runSetup_pruned_treeweight st (st' : HighsMipSolverData World) :
  runSetup C st = Some st' ->
  pruned_treeweight st' = pruned_treeweight st
  \/ pruned_treeweight st' = d1
  \/ exists (limit : double) (w : World),
       pruned_treeweight st'
       = (pruned_treeweight st + fst (nodequeue_performBounding C limit w))%D.
Proof.
  unfold runSetup. cbv zeta.
  match goal with
  | |- context [runSetup_start_solution C ?s] =>
      pose proof (runSetup_start_solution_pruned s) as H2;
      assert (H1 : pruned_treeweight s = pruned_treeweight st)
        by reflexivity;
      set (s2 := runSetup_start_solution C s) in *
  end.
  rewrite H1 in H2. clear H1.
  match goal with
  | |- context [if ?c then snd (addIncumbent C s2 ?a ?b ?src) else s2] =>
      assert (H3 :
        let s3 := if c then snd (addIncumbent C s2 a b src) else s2 in
        pruned_treeweight s3 = pruned_treeweight st
        \/ pruned_treeweight s3 = d1
        \/ exists (limit : double) (w : World),
             pruned_treeweight s3
             = (pruned_treeweight st
                + fst (nodequeue_performBounding C limit w))%D);
      [| set (s3 := if c then snd (addIncumbent C s2 a b src) else s2) in * ]
  end.
  { cbv zeta. destruct (num_col_ (model_ (mipsolver st)) =? 0)%Z;
      [| left; exact H2].
    rewrite <- H2.
    destruct (addIncumbent_pruned_treeweight C s2 [] d0
                kSolutionSourceEmptyMip) as [H | (_ & [H | H])]; auto. }
  cbv zeta in H3.
  destruct (highsSparseTranspose C _ _ _) as [[start index] value].
  match goal with
  | |- context [checkLimits C ?s 0] =>
      pose proof (checkLimits_same_bounds s 0) as (_ & _ & _ & H4);
      destruct (checkLimits C s 0) as [stop s4]
  end.
  cbn [snd] in H4. st_simpl.
  split_ifs; try (intro H; injection H as <-; st_simpl; auto).
  - rewrite H4. exact H3.
  - destruct (classify_columns _ _ _ _ _ _) as [[[[i1 i2] i3] i4] |];
      [| discriminate].
    intro H; injection H as <-. st_simpl. rewrite H4. exact H3.
Qed.

(** [performRestart] resets the pruned weight to zero before the model
    is presolved again; what it leaves is zero, one, or what
    [performBounding] reported on top of zero. *)
Lemma performRestart_pruned_treeweight st (st' : HighsMipSolverData World) :
  performRestart C st = Some st' ->
  pruned_treeweight st' = d0
  \/ pruned_treeweight st' = d1
  \/ exists (limit : double) (w : World),
       pruned_treeweight st'
       = (d0 + fst (nodequeue_performBounding C limit w))%D.
Proof.
  unfold performRestart, runPresolve. cbv zeta.
  destruct (presolve_run C _) as [[status presolved] w].
  st_simpl.
  destruct (negb (HighsModelStatus_eqb status kNotset)).
  - destruct (HighsModelStatus_eqb status kOptimal).
    + match goal with
      | |- context [transformNewIntegerFeasibleSolution C ?s ?a ?b] =>
          pose proof (transform_frame C s a b) as F; cbv zeta in F;
          destruct F as (_ & (_ & Hu & _) & (_ & Hp & _) & _);
          destruct (transformNewIntegerFeasibleSolution C s a b) as [v s1]
      end.
      cbn [snd] in Hp |- *.
      split_ifs; intro H; injection H as <-; st_simpl; left; exact Hp.
    + split_ifs; intro H; injection H as <-; st_simpl; left; reflexivity.
  - match goal with
    | |- context [runSetup C ?s] =>
        pose proof (runSetup_pruned_treeweight s) as Hsetup;
        destruct (runSetup C s) as [s1 |]; [| discriminate]
    end.
    intro H; injection H as <-. st_simpl.
    exact (Hsetup s1 eq_refl).
Qed.

(** C7 (as amended).  While the node queue reports, from
    [performBounding], a weight that is not negative and does not take
    the total above one, [pruned_treeweight] stays in [[0,1]] and does
    not decrease across [addIncumbent]; it does so across every pass of
    [evaluateRootLp] and the whole call without any condition.
    [performRestart] resets it to zero, so that it leaves a value in
    [[0,1]] but not one that is at least the value before. *)
Theorem pruned_treeweight_in_unit_interval st :
  treeweight_in_unit st ->
  (forall (sol : list double) (solobj : double)
          (solution_source : SolutionSource),
      bounding_within C (pruned_treeweight st) ->
      treeweight_in_unit (snd (addIncumbent C st sol solobj solution_source))
      /\ (pruned_treeweight st
          <=? pruned_treeweight
                (snd (addIncumbent C st sol solobj solution_source)))%D
         = true)
  /\ (forall (fuel : nat) (status : Status.t)
             (st' : HighsMipSolverData World),
        evaluateRootLp C fuel st = Some (status, st') ->
        treeweight_in_unit st'
        /\ (pruned_treeweight st <=? pruned_treeweight st')%D = true)
  /\ (forall st' : HighsMipSolverData World,
        bounding_within C d0 ->
        performRestart C st = Some st' ->
        treeweight_in_unit st').
Proof.
  intro Hunit. split; [| split].
  - intros sol solobj src Hq.
    exact (addIncumbent_treeweight st sol solobj src Hunit Hq).
  - intros fuel status st' Hrun.
    exact (evaluateRootLp_treeweight fuel st status st' Hunit Hrun).
  - intros st' Hq Hrestart.
    apply performRestart_pruned_treeweight in Hrestart.
    assert (H00 : (d0 <=? d0)%D = true) by reflexivity.
    assert (H01 : (d0 <=? d1)%D = true) by reflexivity.
    exact (proj1 (treeweight_step d0 (pruned_treeweight st') H00 H01 Hq
                    Hrestart)).
Qed.

End TreeWeight.

Lemma pruned_treeweight_in_unit_interval_witness :
  treeweight_in_unit half_pruned_state
  /\ treeweight_in_unit
       (snd (addIncumbent
               (Sim.promising (Sim.collaborators Sim.no_repair) kHighsInf
                  dhalf)
               half_pruned_state [Fin 7] (Fin 7) kSolutionSourceOther))
  /\ match evaluateRootLp (Sim.collaborators Sim.no_repair) 1
            half_pruned_state with
     | Some (_, st') =>
         (pruned_treeweight half_pruned_state <=? pruned_treeweight st')%D
         = true
     | None => False
     end.
Proof.
  assert (Hunit : treeweight_in_unit half_pruned_state)
    by (split; vm_compute; reflexivity).
  assert (Hq : bounding_within
                 (Sim.promising (Sim.collaborators Sim.no_repair) kHighsInf
                    dhalf)
                 (pruned_treeweight half_pruned_state)).
  { intros limit w.
    change (pruned_treeweight half_pruned_state) with dhalf.
    cbn [Sim.promising nodequeue_performBounding Sim.collaborators].
    destruct ((d0 <=? Sim.sim_bounding w)%D
              && (dhalf + Sim.sim_bounding w <=? d1)%D) eqn:E; cbn [fst].
    - apply andb_true_iff in E. exact E.
    - split; vm_compute; reflexivity. }
  split; [exact Hunit |]. split.
  - exact (proj1 (proj1 (pruned_treeweight_in_unit_interval
                           (Sim.promising (Sim.collaborators Sim.no_repair)
                              kHighsInf dhalf)
                           half_pruned_state Hunit)
                    [Fin 7] (Fin 7) kSolutionSourceOther Hq)).
  - destruct (evaluateRootLp (Sim.collaborators Sim.no_repair) 1
                half_pruned_state) as [[status st'] |] eqn:Hrun.
    + exact (proj2 (proj1 (proj2 (pruned_treeweight_in_unit_interval
                                    (Sim.collaborators Sim.no_repair)
                                    half_pruned_state Hunit))
                      1%nat status st' Hrun)).
    + vm_compute in Hrun. discriminate.
Defined.

(** C7 as stated fails across a restart: with half of the tree pruned,
    [performRestart] leaves a pruned weight of zero. *)
Lemma performRestart_resets_pruned_treeweight :
  treeweight_in_unit half_pruned_state
  /\ pruned_treeweight half_pruned_state = Fin (1 # 2)
  /\ exists st' : HighsMipSolverData Sim.SimWorld,
       performRestart (Sim.collaborators Sim.no_repair) half_pruned_state
       = Some st'
       /\ pruned_treeweight st' = Fin 0
       /\ (pruned_treeweight half_pruned_state <=? pruned_treeweight st')%D
          = false.
Proof.
  split; [split; vm_compute; reflexivity |].
  split; [reflexivity |].
  eexists. split; [vm_compute; reflexivity |].
  split; vm_compute; reflexivity.
Qed.

(* ================================================================== *)
(** * An unbounded root LP                                             *)
(* ================================================================== *)

Section Unbounded.
Context {World : Type} (C : Collaborators World).
Implicit Type st : HighsMipSolverData World.

(** The steps of a pass before the LP status is looked at leave
    [mipsolver] alone. *)
Lemma evaluateRootLp_resolve_mipsolver st :
  mipsolver
    (snd (evaluateRootLp_resolve C
            (snd (evaluateRootLp_flush C (evaluateRootLp_propagate C st)))))
  = mipsolver st.
Proof.
  unfold evaluateRootLp_resolve, evaluateRootLp_flush,
    evaluateRootLp_propagate, removeFixedIndices.
  split_ifs; st_simpl;
    match goal with
    | |- context [lp_resolveLp C ?w] => destruct (lp_resolveLp C w)
    end; reflexivity.
Qed.

(** What the code does when the LP solve of a pass reports
    [kUnbounded]: [evaluateRootLp] returns at once, and the model status
    is [kUnboundedOrInfeasible] if the vector [mipsolver.solution_] is
    empty and [kUnbounded] otherwise, whether the solution kept there is
    feasible or not. *)
Lemma evaluateRootLp_unbounded_by_stored_solution st (fuel : nat) :
  let st1 := evaluateRootLp_propagate C st in
  let st2 := snd (evaluateRootLp_flush C st1) in
  let st3 := snd (evaluateRootLp_resolve C st2) in
  domain_infeasible C (world st1) = false ->
  fst (evaluateRootLp_flush C st1)
  || lp_solver_modelstatus_notset C (world st2) = true ->
  fst (evaluateRootLp_resolve C st2) = Status.kUnbounded ->
  evaluateRootLp C (S fuel) st
  = Some (Status.kUnbounded, evaluateRootLp_unbounded st3)
  /\ modelstatus_ (mipsolver (evaluateRootLp_unbounded st3))
     = match solution_ (mipsolver st) with
       | [] => kUnboundedOrInfeasible
       | _ :: _ => kUnbounded
       end.
Proof.
  cbv zeta. intros Hfeas Hsolve Hunb. split.
  - cbn [evaluateRootLp]. unfold evaluateRootLp_body. rewrite Hfeas.
    destruct (evaluateRootLp_flush C (evaluateRootLp_propagate C st))
      as [changed st2].
    cbn [fst snd] in *. rewrite Hsolve.
    destruct (evaluateRootLp_resolve C st2) as [status st3].
    cbn [fst snd] in *. subst status. reflexivity.
  - unfold evaluateRootLp_unbounded, count_leaf.
    rewrite evaluateRootLp_resolve_mipsolver.
    destruct (solution_ (mipsolver st)); reflexivity.
Qed.

End Unbounded.


(* ================================================================== *)
(** * The scenarios of the specification, run on the embedding         *)
(* ================================================================== *)

(** Incumbents of objective [10] and then [7] (minimise, no gap
    tolerances): [upper_bound] goes from [10] to [7] and [upper_limit]
    to a value below [7]. *)
Example scenario_ten_then_seven :
  let C := Sim.collaborators Sim.no_repair in
  let st0 :=
    Sim.init (Sim.solver (Sim.one_column kInteger) Sim.options) Sim.quiet in
  let r1 := addIncumbent C st0 [Fin 10] (Fin 10) kSolutionSourceOther in
  let r2 := addIncumbent C (snd r1) [Fin 7] (Fin 7) kSolutionSourceOther in
  fst r1 = true /\ upper_bound (snd r1) = Fin 10
  /\ fst r2 = true /\ upper_bound (snd r2) = Fin 7
  /\ upper_limit (snd r2) = Fin (6999999 # 1000000)
  /\ (upper_limit (snd r2) <? Fin 7)%D = true
  /\ incumbent (snd r2) = [Fin 7]
  /\ numImprovingSols (snd r2) = 2%Z.
Proof. vm_compute. repeat split. Qed.

(** A worse candidate after the incumbent of objective [7] is accepted
    as a solution but bounds nothing. *)
Example scenario_worse_candidate :
  let C := Sim.collaborators Sim.no_repair in
  let st0 :=
    Sim.init (Sim.solver (Sim.one_column kInteger) Sim.options) Sim.quiet in
  let r1 := addIncumbent C st0 [Fin 7] (Fin 7) kSolutionSourceOther in
  let r2 := addIncumbent C (snd r1) [Fin 9] (Fin 9) kSolutionSourceOther in
  fst r2 = true /\ snd r2 = snd r1.
Proof. vm_compute. repeat split. Qed.

(** With tolerance [10^-6], a candidate above the column's upper bound
    by [2 * 10^-6] is rejected by the feasibility check. *)
Example scenario_bound_violation :
  let C := Sim.collaborators Sim.no_repair in
  let st0 :=
    Sim.init (Sim.solver (Sim.one_column kContinuous) Sim.options)
      Sim.quiet in
  trySolution C st0 [Fin (10000002 # 1000000)] kSolutionSourceOther
  = Some (false, st0)
  /\ checkSolution st0 [Fin (10000002 # 1000000)] = Some false
  /\ checkSolution st0 [Fin (10000001 # 1000000)] = Some true.
Proof. vm_compute. repeat split. Qed.

(** A model without columns takes the empty solution with objective [0]
    and is optimal once set up. *)
Example scenario_no_columns :
  let C := Sim.collaborators Sim.no_repair in
  match runSetup C (Sim.init (Sim.solver empty_model Sim.options) Sim.quiet)
  with
  | Some st =>
      modelstatus_ (mipsolver st) = kOptimal
      /\ upper_bound st = Fin 0
      /\ solution_objective_ (mipsolver st) = Fin 0
      /\ solution_ (mipsolver st) = []
  | None => False
  end.
Proof. vm_compute. repeat split. Qed.

(** Once the clock has passed [time_limit], [checkLimits] reports stop
    and the model status is the time-limit status. *)
Example scenario_time_limit :
  let C := Sim.collaborators Sim.no_repair in
  let st0 :=
    Sim.init (Sim.solver (Sim.one_column kInteger) time_limit_options)
      late_world in
  fst (checkLimits C st0 0) = true
  /\ modelstatus_ (mipsolver (snd (checkLimits C st0 0))) = kTimeLimit.
Proof. vm_compute. repeat split. Qed.

(* ================================================================== *)
(** * The feasibility checks of the presolved space                    *)
(* ================================================================== *)

Section Checks.
Context {World : Type} (C : Collaborators World).
Implicit Type st : HighsMipSolverData World.

Lemma vread_vget {A : Type} (d : A) (v : list A) (i : Z) (a : A) :
  vread v i = Some a -> vget d v i = a.
Proof. unfold vget. intros ->. reflexivity. Qed.

(** The column loop: a run that reaches its end found no violation at
    any index, and added the cost of each column to the objective. *)
Lemma solutionColFeasible_loop_sound st (solution : list double)
    (iters : list Z) :
  forall obj0 obj : double,
    solutionColFeasible_loop st solution iters obj0 = Some (Some obj) ->
    let model := model_ (mipsolver st) in
    (forall i : Z, In i iters ->
       let s := vget NaN solution i in
       (s <? vget NaN (col_lower_ model) i - feastol st)%D = false
       /\ (s >? vget NaN (col_upper_ model) i + feastol st)%D = false
       /\ (is_kInteger (vget kContinuous (integrality_ model) i) = true ->
           (dabs (s - dfloor (s + dhalf)) >? feastol st)%D = false))
    /\ obj
       = fold_left
           (fun o i =>
              (o + vget NaN (col_cost_ model) i * vget NaN solution i)%D)
           iters obj0.
Proof.
  induction iters as [| i rest IH]; intros obj0 obj H; cbv zeta;
    cbn [solutionColFeasible_loop fold_left] in *.
  - split; [intros i [] | congruence].
  - destruct (vread solution i) as [s |] eqn:Es; [| discriminate].
    destruct (vread (col_lower_ (model_ (mipsolver st))) i) as [lo |] eqn:El;
      [| discriminate].
    destruct (s <? lo - feastol st)%D eqn:Hlo; [discriminate |].
    destruct (vread (col_upper_ (model_ (mipsolver st))) i) as [up |] eqn:Eu;
      [| discriminate].
    destruct (s >? up + feastol st)%D eqn:Hup; [discriminate |].
    destruct (vread (integrality_ (model_ (mipsolver st))) i) as [ty |] eqn:Et;
      [| discriminate].
    destruct (is_kInteger ty
              && (dabs (s - dfloor (s + dhalf)) >? feastol st)%D) eqn:Hint;
      [discriminate |].
    destruct (vread (col_cost_ (model_ (mipsolver st))) i) as [c |] eqn:Ec;
      [| discriminate].
    apply IH in H. cbv zeta in H. destruct H as [Hall Hobj].
    rewrite (vread_vget NaN _ _ _ Es), (vread_vget NaN _ _ _ Ec).
    split; [| exact Hobj].
    intros j [<- | Hj]; [| apply Hall, Hj].
    rewrite (vread_vget NaN _ _ _ Es), (vread_vget NaN _ _ _ El),
      (vread_vget NaN _ _ _ Eu), (vread_vget kContinuous _ _ _ Et).
    split; [exact Hlo |]. split; [exact Hup |].
    intro Hty. rewrite Hty in Hint. exact Hint.
Qed.

(** The activity loop of one row, and the row loop: a run that ends
    with [true] found every row within its sides. *)
Lemma solutionRowFeasible_loop_sound st (solution : list double)
    (iters : list Z) :
  solutionRowFeasible_loop st solution iters = Some true ->
  forall i : Z, In i iters ->
    exists activity : double,
      rowactivity st solution i = Some activity
      /\ (activity
          >? vget NaN (row_upper_ (model_ (mipsolver st))) i + feastol st)%D
         = false
      /\ (activity
          <? vget NaN (row_lower_ (model_ (mipsolver st))) i - feastol st)%D
         = false.
Proof.
  induction iters as [| i rest IH]; intros H j Hj;
    cbn [solutionRowFeasible_loop] in *; [destruct Hj |].
  destruct (vread (ARstart_ st) i) as [start |] eqn:Es; [| discriminate].
  destruct (vread (ARstart_ st) (i + 1)) as [end_ |] eqn:Ee; [| discriminate].
  destruct (end_ <? start)%Z eqn:Hord; [discriminate |].
  destruct (rowactivity_loop st solution
              (map (Z.add start) (indices (end_ - start))) d0)
    as [act |] eqn:Ea; [| discriminate].
  destruct (vread (row_upper_ (model_ (mipsolver st))) i) as [up |] eqn:Eu;
    [| discriminate].
  destruct (act >? up + feastol st)%D eqn:Hup; [discriminate |].
  destruct (vread (row_lower_ (model_ (mipsolver st))) i) as [lo |] eqn:El;
    [| discriminate].
  destruct (act <? lo - feastol st)%D eqn:Hlo; [discriminate |].
  destruct Hj as [<- | Hj]; [| apply IH; assumption].
  exists act. unfold rowactivity. rewrite Es, Ee, Hord, Ea.
  rewrite (vread_vget NaN _ _ _ Eu), (vread_vget NaN _ _ _ El). auto.
Qed.

End Checks.

(** The objective of a solution that the column check accepts. *)
Lemma solutionColFeasible_objective {World : Type}
    (st : HighsMipSolverData World) (solution : list double)
    (obj : double) :
  solutionColFeasible st solution = Some (Some obj) ->
  obj = col_objective st solution (num_col_ (model_ (mipsolver st))).
Proof.
  unfold solutionColFeasible. cbv zeta.
  destruct (negb (Z.of_nat (length solution)
                  =? num_col_ (model_ (mipsolver st)))%Z);
    [discriminate |].
  intro H. apply solutionColFeasible_loop_sound in H. apply H.
Qed.

(** X1.  What [solutionColFeasible] accepts: when it returns [true],
    the solution has one value for each column, no value is below the
    lower bound of its column minus the feasibility tolerance or above
    the upper bound plus the tolerance, the value of an integer column
    is within the tolerance of the nearest integer, and the objective
    written to [obj] is the sum of cost times value over the columns,
    taken in the order of the columns. *)
Theorem solutionColFeasible_sound {World : Type}
    (st : HighsMipSolverData World) (solution : list double)
    (obj : double) :
  solutionColFeasible st solution = Some (Some obj) ->
  let model := model_ (mipsolver st) in
  Z.of_nat (length solution) = num_col_ model
  /\ obj = col_objective st solution (num_col_ model)
  /\ forall i : Z, (0 <= i < num_col_ model)%Z ->
       let s := vget NaN solution i in
       (s <? vget NaN (col_lower_ model) i - feastol st)%D = false
       /\ (s >? vget NaN (col_upper_ model) i + feastol st)%D = false
       /\ (is_kInteger (vget kContinuous (integrality_ model) i) = true ->
           (dabs (s - dfloor (s + dhalf)) >? feastol st)%D = false).
Proof.
  unfold solutionColFeasible. cbv zeta.
  destruct (Z.of_nat (length solution)
            =? num_col_ (model_ (mipsolver st)))%Z eqn:Hlen;
    cbn [negb]; [| discriminate].
  intro H. apply solutionColFeasible_loop_sound in H. cbv zeta in H.
  destruct H as [Hall Hobj].
  split; [apply Z.eqb_eq, Hlen |]. split; [exact Hobj |].
  intros i Hi. apply Hall, indices_spec, Hi.
Qed.

Lemma solutionColFeasible_sound_witness :
  let st := Sim.init (Sim.solver (Sim.one_column kInteger) Sim.options)
              Sim.quiet in
  solutionColFeasible st [Fin 7] = Some (Some (Fin 7))
  /\ Fin 7 = col_objective st [Fin 7] 1
  /\ (Fin 7 <? d0 - Sim.tol6)%D = false.
Proof.
  cbv zeta.
  assert (H : solutionColFeasible
                (Sim.init (Sim.solver (Sim.one_column kInteger) Sim.options)
                   Sim.quiet) [Fin 7] = Some (Some (Fin 7)))
    by (vm_compute; reflexivity).
  split; [exact H |].
  pose proof (solutionColFeasible_sound _ _ _ H) as S. cbv zeta in S.
  destruct S as (_ & Hobj & Hall).
  split; [exact Hobj |].
  exact (proj1 (Hall 0%Z ltac:(cbn; lia))).
Defined.

(** X2.  What [solutionRowFeasible] accepts: when it returns [true],
    the activity of every row, the sum of value times coefficient over
    the entries of the row in the row-wise matrix, is neither above the
    upper side of the row plus the feasibility tolerance nor below the
    lower side minus the tolerance. *)
Theorem solutionRowFeasible_sound {World : Type}
    (st : HighsMipSolverData World) (solution : list double) :
  solutionRowFeasible st solution = Some true ->
  forall i : Z, (0 <= i < num_row_ (model_ (mipsolver st)))%Z ->
    exists activity : double,
      rowactivity st solution i = Some activity
      /\ (activity
          >? vget NaN (row_upper_ (model_ (mipsolver st))) i + feastol st)%D
         = false
      /\ (activity
          <? vget NaN (row_lower_ (model_ (mipsolver st))) i - feastol st)%D
         = false.
Proof.
  unfold solutionRowFeasible. cbv zeta.
  destruct (num_row_ (model_ (mipsolver st)) <? 0)%Z; [discriminate |].
  intros H i Hi.
  apply (solutionRowFeasible_loop_sound st solution _ H), indices_spec, Hi.
Qed.

Lemma solutionRowFeasible_sound_witness :
  exists activity : double,
    rowactivity two_row_state [Fin 2; Fin 3] 1 = Some activity
    /\ (activity >? Fin 4 + Sim.tol6)%D = false
    /\ (activity <? Fin 1 - Sim.tol6)%D = false.
Proof.
  assert (H : solutionRowFeasible two_row_state [Fin 2; Fin 3] = Some true)
    by (vm_compute; reflexivity).
  exact (solutionRowFeasible_sound two_row_state [Fin 2; Fin 3] H 1%Z
           ltac:(cbn; lia)).
Defined.

(** X3.  [trySolution] is [addIncumbent] behind [checkSolution]: a
    solution that fails the column or the row check is refused with the
    solver data untouched, and a solution that passes both is handed to
    [addIncumbent] with the objective that the column check summed,
    cost times value over the columns. *)
Theorem trySolution_checks_then_adds {World : Type}
    (C : Collaborators World) (st st' : HighsMipSolverData World)
    (solution : list double) (solution_source : SolutionSource)
    (accepted : bool) :
  trySolution C st solution solution_source = Some (accepted, st') ->
  (checkSolution st solution = Some false
   /\ accepted = false /\ st' = st)
  \/ (checkSolution st solution = Some true
      /\ (accepted, st')
         = addIncumbent C st solution
             (col_objective st solution (num_col_ (model_ (mipsolver st))))
             solution_source).
Proof.
  unfold trySolution, checkSolution.
  destruct (solutionColFeasible st solution) as [[obj |] |] eqn:Hcol;
    [| intro H; injection H as <- <-; auto | discriminate].
  destruct (solutionRowFeasible st solution) as [[|] |] eqn:Hrow;
    cbn [negb]; [| intro H; injection H as <- <-; auto | discriminate].
  intro H. injection H as H. right. split; [reflexivity |].
  apply solutionColFeasible_objective in Hcol. rewrite <- Hcol.
  symmetry. exact H.
Qed.

Lemma trySolution_checks_then_adds_witness :
  let C := Sim.collaborators Sim.no_repair in
  let st := Sim.init (Sim.solver (Sim.one_column kInteger) Sim.options)
              Sim.quiet in
  checkSolution st [Fin 11] = Some false
  /\ trySolution C st [Fin 11] kSolutionSourceOther = Some (false, st).
Proof.
  cbv zeta.
  assert (H : trySolution (Sim.collaborators Sim.no_repair)
                (Sim.init (Sim.solver (Sim.one_column kInteger) Sim.options)
                   Sim.quiet) [Fin 11] kSolutionSourceOther
              = Some (false,
                      Sim.init (Sim.solver (Sim.one_column kInteger)
                                  Sim.options) Sim.quiet))
    by (vm_compute; reflexivity).
  destruct (trySolution_checks_then_adds _ _ _ _ _ _ H)
    as [(Hc & _) | (Hc & _)].
  - split; [exact Hc | exact H].
  - vm_compute in Hc. discriminate.
Defined.

(* ================================================================== *)
(** * The violation check of the original space                        *)
(* ================================================================== *)

Lemma std_max_not_nan (a b : double) :
  is_nan a = false -> is_nan (std_max a b) = false.
Proof.
  intro Ha. unfold std_max. destruct (a <? b)%D eqn:E; [| exact Ha].
  apply dlt_not_nan_r in E. exact E.
Qed.

Lemma std_min_not_nan (a b : double) :
  is_nan a = false -> is_nan (std_min a b) = false.
Proof.
  intro Ha. unfold std_min. destruct (b <? a)%D eqn:E; [| exact Ha].
  apply dlt_not_nan_l in E. exact E.
Qed.

Lemma dle_not_nan_l (x y : double) : (x <=? y)%D = true -> is_nan x = false.
Proof. destruct x, y; d_cases. Qed.

Lemma dlt_dle_false (x y : double) :
  (x <? y)%D = true -> (y <=? x)%D = false.
Proof. destruct x, y; d_cases. Qed.

(** A value below [lower - tol] is at a distance of more than [tol]
    from [lower], and likewise above [upper + tol]. *)
Lemma below_distance (value lower tol : double) :
  is_finite tol = true ->
  (value <? lower - tol)%D = true ->
  is_nan (lower - value)%D = false /\ (tol <? lower - value)%D = true.
Proof. destruct value, lower, tol; d_cases; split; d_cases. Qed.

Lemma above_distance (value upper tol : double) :
  is_finite tol = true ->
  (value >? upper + tol)%D = true ->
  is_nan (value - upper)%D = false /\ (tol <? value - upper)%D = true.
Proof. unfold dgt. destruct value, upper, tol; d_cases; split; d_cases. Qed.

(** An accumulator that [std::max] only raises: if it ends within
    [tol], every step of the fold was fine. *)
Lemma fold_max_sound {A : Type} (step : A -> Z -> A) (proj : A -> double)
    (good ok : Z -> Prop) (tol : double) :
  (forall (a : A) (i : Z),
     good i -> is_nan (proj a) = false ->
     is_nan (proj (step a i)) = false
     /\ (proj a <=? proj (step a i))%D = true
     /\ ((proj (step a i) <=? tol)%D = true -> ok i)) ->
  forall (iters : list Z) (a : A),
    (forall i : Z, In i iters -> good i) ->
    is_nan (proj a) = false ->
    is_nan (proj (fold_left step iters a)) = false
    /\ (proj a <=? proj (fold_left step iters a))%D = true
    /\ ((proj (fold_left step iters a) <=? tol)%D = true ->
        forall i : Z, In i iters -> ok i).
Proof.
  intro Hstep. induction iters as [| i rest IH]; intros a Hgood Ha;
    cbn [fold_left].
  - split; [exact Ha |]. split; [apply dle_refl, Ha |]. intros _ i [].
  - destruct (Hstep a i (Hgood i (or_introl eq_refl)) Ha)
      as (Hn & Hle & Hok).
    destruct (IH (step a i) (fun j Hj => Hgood j (or_intror Hj)) Hn)
      as (Hn' & Hle' & Hok').
    split; [exact Hn' |]. split; [eapply dle_trans; eassumption |].
    intros Hfin j [<- | Hj]; [| apply Hok'; assumption].
    apply Hok. eapply dle_trans; eassumption.
Qed.

Section Violations.
Variables (orig : HighsLp) (options : HighsOptions) (solution : HighsSolution).
Let tol := mip_feasibility_tolerance options.
Hypothesis tol_finite : is_finite tol = true.

(** The bound violation after one column. *)
Lemma column_step_bound_sound (acc : double * double * double) (i : Z) :
  is_nan (snd acc) = false ->
  let value := vget NaN (col_value solution) i in
  is_nan (snd (column_step orig options solution acc i)) = false
  /\ (snd acc <=? snd (column_step orig options solution acc i))%D = true
  /\ ((snd (column_step orig options solution acc i) <=? tol)%D = true ->
      (value <? vget NaN (col_lower_ orig) i - tol)%D = false
      /\ (value >? vget NaN (col_upper_ orig) i + tol)%D = false).
Proof.
  destruct acc as [[o iv] b]. cbn [snd]. intros Hb. cbv zeta.
  unfold column_step. fold tol.
  destruct (vget NaN (col_value solution) i
            <? vget NaN (col_lower_ orig) i - tol)%D eqn:Hlo.
  - cbn [snd]. destruct (below_distance _ _ _ tol_finite Hlo) as [Hn Hd].
    split; [apply std_max_not_nan, Hb |].
    split; [apply std_max_dle_l, Hb |].
    intro Hfin. exfalso.
    pose proof (std_max_dle_r b _ Hb Hn) as Hr.
    pose proof (dle_trans _ _ _ Hr Hfin) as Hle.
    apply dlt_dle_false in Hd. congruence.
  - destruct (vget NaN (col_value solution) i
              >? vget NaN (col_upper_ orig) i + tol)%D eqn:Hup.
    + cbn [snd]. destruct (above_distance _ _ _ tol_finite Hup) as [Hn Hd].
      split; [apply std_max_not_nan, Hb |].
      split; [apply std_max_dle_l, Hb |].
      intro Hfin. exfalso.
      pose proof (std_max_dle_r b _ Hb Hn) as Hr.
      pose proof (dle_trans _ _ _ Hr Hfin) as Hle.
      apply dlt_dle_false in Hd. congruence.
    + cbn [snd]. split; [exact Hb |]. split; [apply dle_refl, Hb |]. auto.
Qed.

(** The integrality violation after one column whose value is finite
    if the column is integer. *)
Lemma column_step_integrality_sound (acc : double * double * double)
    (i : Z) :
  let value := vget NaN (col_value solution) i in
  let integer := is_kInteger (vget kContinuous (integrality_ orig) i) in
  (integer = true -> is_finite value = true) ->
  is_nan (snd (fst acc)) = false ->
  is_nan (snd (fst (column_step orig options solution acc i))) = false
  /\ (snd (fst acc)
      <=? snd (fst (column_step orig options solution acc i)))%D = true
  /\ ((snd (fst (column_step orig options solution acc i)) <=? tol)%D = true ->
      integer = true ->
      (dabs (dfloor (value + dhalf) - value) <=? tol)%D = true).
Proof.
  destruct acc as [[o iv] b]. cbn [fst snd]. cbv zeta. intros Hfin Hiv.
  assert (Hshape :
    snd (fst (column_step orig options solution (o, iv, b) i))
    = if is_kInteger (vget kContinuous (integrality_ orig) i)
      then std_max
             (dabs (dfloor (vget NaN (col_value solution) i + dhalf)
                    - vget NaN (col_value solution) i)) iv
      else iv).
  { unfold column_step. split_ifs; reflexivity. }
  rewrite Hshape.
  destruct (is_kInteger (vget kContinuous (integrality_ orig) i)) eqn:Hty.
  - specialize (Hfin eq_refl).
    assert (Hn : is_nan (dabs (dfloor (vget NaN (col_value solution) i
                                       + dhalf)
                               - vget NaN (col_value solution) i)) = false).
    { destruct (vget NaN (col_value solution) i); try discriminate.
      reflexivity. }
    split; [apply std_max_not_nan, Hn |].
    split; [apply std_max_dle_r; assumption |].
    intros Hle _. eapply dle_trans; [| exact Hle].
    apply std_max_dle_l, Hn.
  - split; [exact Hiv |]. split; [apply dle_refl, Hiv |]. discriminate.
Qed.

Lemma row_step_sound (row_violation : double) (i : Z) :
  is_nan row_violation = false ->
  let value := vget NaN (row_value solution) i in
  is_nan (row_step orig options solution row_violation i) = false
  /\ (row_violation <=? row_step orig options solution row_violation i)%D
     = true
  /\ ((row_step orig options solution row_violation i <=? tol)%D = true ->
      (value <? vget NaN (row_lower_ orig) i - tol)%D = false
      /\ (value >? vget NaN (row_upper_ orig) i + tol)%D = false).
Proof.
  intros Hb. cbv zeta. unfold row_step. fold tol.
  destruct (vget NaN (row_value solution) i
            <? vget NaN (row_lower_ orig) i - tol)%D eqn:Hlo.
  - destruct (below_distance _ _ _ tol_finite Hlo) as [Hn Hd].
    split; [apply std_max_not_nan, Hb |].
    split; [apply std_max_dle_l, Hb |].
    intro Hfin. exfalso.
    pose proof (std_max_dle_r row_violation _ Hb Hn) as Hr.
    pose proof (dle_trans _ _ _ Hr Hfin) as Hle.
    apply dlt_dle_false in Hd. congruence.
  - destruct (vget NaN (row_value solution) i
              >? vget NaN (row_upper_ orig) i + tol)%D eqn:Hup.
    + destruct (above_distance _ _ _ tol_finite Hup) as [Hn Hd].
      split; [apply std_max_not_nan, Hb |].
      split; [apply std_max_dle_l, Hb |].
      intro Hfin. exfalso.
      pose proof (std_max_dle_r row_violation _ Hb Hn) as Hr.
      pose proof (dle_trans _ _ _ Hr Hfin) as Hle.
      apply dlt_dle_false in Hd. congruence.
    + split; [exact Hb |]. split; [apply dle_refl, Hb |]. auto.
Qed.

(** The verdict of the violation pass, read column by column and row by
    row. *)
Lemma violations_feasible_sound :
  violations_feasible options (measure_violations orig options solution)
  = true ->
  (forall i : Z, (0 <= i < num_col_ orig)%Z ->
     let value := vget NaN (col_value solution) i in
     (value <? vget NaN (col_lower_ orig) i - tol)%D = false
     /\ (value >? vget NaN (col_upper_ orig) i + tol)%D = false)
  /\ (forall i : Z, (0 <= i < num_row_ orig)%Z ->
        let value := vget NaN (row_value solution) i in
        (value <? vget NaN (row_lower_ orig) i - tol)%D = false
        /\ (value >? vget NaN (row_upper_ orig) i + tol)%D = false)
  /\ ((forall i : Z, (0 <= i < num_col_ orig)%Z ->
         is_kInteger (vget kContinuous (integrality_ orig) i) = true ->
         is_finite (vget NaN (col_value solution) i) = true) ->
      forall i : Z, (0 <= i < num_col_ orig)%Z ->
        is_kInteger (vget kContinuous (integrality_ orig) i) = true ->
        let value := vget NaN (col_value solution) i in
        (dabs (dfloor (value + dhalf) - value) <=? tol)%D = true).
Proof.
  unfold violations_feasible, measure_violations. fold tol.
  destruct (fold_left (column_step orig options solution)
              (indices (num_col_ orig)) (offset_ orig, d0, d0))
    as [[objective iv] bv] eqn:Hfold.
  cbn [v_bound_violation_ v_integrality_violation_ v_row_violation_].
  intro H. apply andb_prop in H. destruct H as [H Hrow].
  apply andb_prop in H. destruct H as [Hbound Hint].
  split; [| split].
  - intros i Hi.
    pose proof (fold_max_sound (column_step orig options solution) snd
                  (fun _ => True)
                  (fun i =>
                     (vget NaN (col_value solution) i
                      <? vget NaN (col_lower_ orig) i - tol)%D = false
                     /\ (vget NaN (col_value solution) i
                         >? vget NaN (col_upper_ orig) i + tol)%D = false)
                  tol
                  (fun a j _ Ha => column_step_bound_sound a j Ha)
                  (indices (num_col_ orig)) (offset_ orig, d0, d0)
                  (fun _ _ => I) eq_refl) as (_ & _ & Hok).
    rewrite Hfold in Hok. apply (Hok Hbound), indices_spec, Hi.
  - intros i Hi.
    pose proof (fold_max_sound (row_step orig options solution)
                  (fun x => x) (fun _ => True)
                  (fun i =>
                     (vget NaN (row_value solution) i
                      <? vget NaN (row_lower_ orig) i - tol)%D = false
                     /\ (vget NaN (row_value solution) i
                         >? vget NaN (row_upper_ orig) i + tol)%D = false)
                  tol
                  (fun a j _ Ha => row_step_sound a j Ha)
                  (indices (num_row_ orig)) d0
                  (fun _ _ => I) eq_refl) as (_ & _ & Hok).
    apply (Hok Hrow), indices_spec, Hi.
  - intros Hfinite i Hi Hty.
    pose proof (fold_max_sound (column_step orig options solution)
                  (fun a => snd (fst a))
                  (fun i =>
                     is_kInteger (vget kContinuous (integrality_ orig) i)
                     = true ->
                     is_finite (vget NaN (col_value solution) i) = true)
                  (fun i =>
                     is_kInteger (vget kContinuous (integrality_ orig) i)
                     = true ->
                     (dabs (dfloor (vget NaN (col_value solution) i + dhalf)
                            - vget NaN (col_value solution) i) <=? tol)%D
                     = true)
                  tol
                  (fun a j Hg Ha => column_step_integrality_sound a j Hg Ha)
                  (indices (num_col_ orig)) (offset_ orig, d0, d0)
                  (fun j Hj => Hfinite j (proj1 (indices_spec _ _) Hj))
                  eq_refl) as (_ & _ & Hok).
    rewrite Hfold in Hok. cbn [fst snd] in Hok.
    apply (Hok Hint i); [apply indices_spec, Hi | exact Hty].
Qed.

End Violations.

Section CheckedCandidate.
Context {World : Type} (C : Collaborators World).
Implicit Type st : HighsMipSolverData World.

(** The violations kept with the checked candidate are those of the
    solution kept with it. *)
Lemma checked_candidate_violations st (sol : list double) :
  ta_violations (checked_candidate C st sol)
  = measure_violations (orig_model_ (mipsolver st))
      (options_mip_ (mipsolver st))
      (ta_solution (checked_candidate C st sol)).
Proof.
  unfold checked_candidate. rewrite try_again_cases. cbv zeta.
  destruct (violations_feasible _ _); [reflexivity |].
  destruct (fst (tmpSolver_run C _ _)); reflexivity.
Qed.

End CheckedCandidate.

(** X4.  What the violation check of
    [transformNewIntegerFeasibleSolution] certifies.  If the candidate
    is found feasible, then in the solution that is kept (the
    postsolved candidate, or the point of the repair LP) no column value
    is below the lower bound of the original model minus
    [mip_feasibility_tolerance] or above the upper bound plus the
    tolerance, and no row value is outside the sides of its row by more
    than the tolerance; and if the values of the integer columns are
    finite, each is within the tolerance of the nearest integer. *)
Theorem candidate_feasible_sound {World : Type} (C : Collaborators World)
    (st : HighsMipSolverData World) (sol : list double) :
  let orig := orig_model_ (mipsolver st) in
  let tol := mip_feasibility_tolerance (options_mip_ (mipsolver st)) in
  let x := ta_solution (checked_candidate C st sol) in
  is_finite tol = true ->
  candidate_feasible C st sol = true ->
  (forall i : Z, (0 <= i < num_col_ orig)%Z ->
     let value := vget NaN (col_value x) i in
     (value <? vget NaN (col_lower_ orig) i - tol)%D = false
     /\ (value >? vget NaN (col_upper_ orig) i + tol)%D = false)
  /\ (forall i : Z, (0 <= i < num_row_ orig)%Z ->
        let value := vget NaN (row_value x) i in
        (value <? vget NaN (row_lower_ orig) i - tol)%D = false
        /\ (value >? vget NaN (row_upper_ orig) i + tol)%D = false)
  /\ ((forall i : Z, (0 <= i < num_col_ orig)%Z ->
         is_kInteger (vget kContinuous (integrality_ orig) i) = true ->
         is_finite (vget NaN (col_value x) i) = true) ->
      forall i : Z, (0 <= i < num_col_ orig)%Z ->
        is_kInteger (vget kContinuous (integrality_ orig) i) = true ->
        let value := vget NaN (col_value x) i in
        (dabs (dfloor (value + dhalf) - value) <=? tol)%D = true).
Proof.
  cbv zeta. intros Htol Hfeas. unfold candidate_feasible in Hfeas.
  rewrite checked_candidate_violations in Hfeas.
  exact (violations_feasible_sound _ _ _ Htol Hfeas).
Qed.

Lemma candidate_feasible_sound_witness :
  let C := Sim.collaborators Sim.no_repair in
  let st := Sim.init (Sim.solver (Sim.one_column kInteger) Sim.options)
              Sim.quiet in
  candidate_feasible C st [Fin 7] = true
  /\ (Fin 7 >? Fin 10 + Sim.tol6)%D = false
  /\ (dabs (dfloor (Fin 7 + dhalf) - Fin 7) <=? Sim.tol6)%D = true.
Proof.
  cbv zeta.
  assert (H : candidate_feasible (Sim.collaborators Sim.no_repair)
                (Sim.init (Sim.solver (Sim.one_column kInteger) Sim.options)
                   Sim.quiet) [Fin 7] = true)
    by (vm_compute; reflexivity).
  split; [exact H |].
  pose proof (candidate_feasible_sound (Sim.collaborators Sim.no_repair)
                (Sim.init (Sim.solver (Sim.one_column kInteger) Sim.options)
                   Sim.quiet) [Fin 7] eq_refl H) as S.
  cbv zeta in S. destruct S as (Hcol & _ & Hint).
  split.
  - exact (proj2 (Hcol 0%Z ltac:(cbn; lia))).
  - refine (Hint _ 0%Z ltac:(cbn; lia) eq_refl).
    intros i Hi _.
    assert (i = 0%Z) as -> by (cbn in Hi; lia). reflexivity.
Defined.

(* ================================================================== *)
(** * What [addIncumbent] stores and counts                            *)
(* ================================================================== *)

Section Stored.
Context {World : Type} (C : Collaborators World).
Implicit Type st : HighsMipSolverData World.

(** Destructs the pair that [performBounding] returns. *)
Ltac bounding_pair :=
  try match goal with
      | |- context [nodequeue_performBounding ?c ?l ?w] =>
          destruct (nodequeue_performBounding c l w)
      end.

(** The solver kept in [mipsolver] after [addIncumbent] is the one that
    [transformNewIntegerFeasibleSolution] left, if the candidate was
    transformed in order to be stored, and the old one otherwise. *)
Lemma addIncumbent_mipsolver st (sol : list double) (solobj : double)
    (solution_source : SolutionSource) :
  mipsolver (snd (addIncumbent C st sol solobj solution_source))
  = if (solobj <? upper_bound st)%D
    then mipsolver (snd (transformNewIntegerFeasibleSolution C st sol true))
    else mipsolver st.
Proof.
  unfold addIncumbent.
  destruct (solobj <? upper_bound st)%D; cbn [orb].
  - destruct (transformNewIntegerFeasibleSolution C st sol true)
      as [t st1]. cbn [fst snd].
    split_ifs; bounding_pair; st_simpl; reflexivity.
  - pose proof (transform_frame C st sol false) as F. cbv zeta in F.
    rewrite transformNewIntegerFeasibleSolution_eq in F |- *.
    cbn [fst snd] in F |- *.
    split_ifs; destruct (incumbent st); st_simpl; reflexivity.
Qed.


(** A call that takes the candidate as the bounding incumbent keeps it
    in [incumbent]. *)
Lemma addIncumbent_accept st (sol : list double) (solobj : double)
    (solution_source : SolutionSource) :
  (solobj <? upper_bound st)%D = true ->
  (fst (transformNewIntegerFeasibleSolution C st sol true)
   >=? upper_bound st)%D = false ->
  incumbent (snd (addIncumbent C st sol solobj solution_source)) = sol.
Proof.
  intros Hlt Hge. unfold addIncumbent. rewrite Hlt. cbn [orb].
  pose proof (transform_frame C st sol true) as F. cbv zeta in F.
  destruct (transformNewIntegerFeasibleSolution C st sol true)
    as [t st1]. cbn [fst snd] in F, Hge |- *.
  destruct F as (_ & (_ & Hub & _) & _). rewrite Hub, Hge.
  split_ifs; bounding_pair; st_simpl; reflexivity.
Qed.

(** The limits and the counter of improving solutions: all three stay,
    or the candidate was taken, [upper_limit] is lowered to the limit
    computed with zero gaps, [optimality_limit] is the limit computed
    with the gaps of the options, and the counter goes up by one. *)
Lemma addIncumbent_limits st (sol : list double) (solobj : double)
    (solution_source : SolutionSource) :
  let r := addIncumbent C st sol solobj solution_source in
  (upper_limit (snd r) = upper_limit st
   /\ optimality_limit (snd r) = optimality_limit st
   /\ numImprovingSols (snd r) = numImprovingSols st)
  \/ (fst r = true
      /\ (upper_limit (snd r) <? upper_limit st)%D = true
      /\ numImprovingSols (snd r) = (numImprovingSols st + 1)%Z
      /\ exists st1 : HighsMipSolverData World,
           (objectiveFunction st1 = objectiveFunction st
            /\ feastol st1 = feastol st /\ epsilon st1 = epsilon st
            /\ model_ (mipsolver st1) = model_ (mipsolver st)
            /\ options_mip_ (mipsolver st1) = options_mip_ (mipsolver st))
           /\ upper_limit (snd r)
              = computeNewUpperLimit C st1 (upper_bound (snd r)) d0 d0
           /\ optimality_limit (snd r)
              = computeNewUpperLimit C st1 (upper_bound (snd r))
                  (mip_abs_gap (options_mip_ (mipsolver st)))
                  (mip_rel_gap (options_mip_ (mipsolver st)))).
Proof.
  cbv zeta. unfold addIncumbent.
  destruct (solobj <? upper_bound st)%D; cbn [orb].
  - pose proof (transform_frame C st sol true) as F. cbv zeta in F.
    destruct (transformNewIntegerFeasibleSolution C st sol true)
      as [t st1]. cbn [fst snd] in F |- *.
    destruct F as ((_ & Hf & He & Ho) & (_ & _ & Hul & Hol)
                   & (_ & _ & Hn & _) & (Hm & _ & Hopt & _)).
    destruct (t >=? upper_bound st1)%D; [left; auto |].
    destruct (computeNewUpperLimit C
                (set_incumbent sol (set_upper_bound t st1)) t d0 d0
              <? upper_limit (set_incumbent sol (set_upper_bound t st1)))%D
      eqn:Hnew; [| left; st_simpl; auto].
    right.
    assert (Hshape :
      exists st2 : HighsMipSolverData World,
        (objectiveFunction st2 = objectiveFunction st
         /\ feastol st2 = feastol st /\ epsilon st2 = epsilon st
         /\ model_ (mipsolver st2) = model_ (mipsolver st)
         /\ options_mip_ (mipsolver st2) = options_mip_ (mipsolver st))
        /\ computeNewUpperLimit C
             (set_incumbent sol (set_upper_bound t st1)) t d0 d0
           = computeNewUpperLimit C st2 t d0 d0
        /\ computeNewUpperLimit C
             (set_upper_limit
                (computeNewUpperLimit C
                   (set_incumbent sol (set_upper_bound t st1)) t d0 d0)
                (set_numImprovingSols
                   (numImprovingSols
                      (set_incumbent sol (set_upper_bound t st1)) + 1)
                   (set_incumbent sol (set_upper_bound t st1))))
             t
             (mip_abs_gap (options_mip_ (mipsolver st)))
             (mip_rel_gap (options_mip_ (mipsolver st)))
           = computeNewUpperLimit C st2 t
               (mip_abs_gap (options_mip_ (mipsolver st)))
               (mip_rel_gap (options_mip_ (mipsolver st)))).
    { exists (set_incumbent sol (set_upper_bound t st1)).
      st_simpl. repeat split; auto. }
    destruct Hshape as (st2 & Hsame & Hl0 & Hl1).
    st_simpl. rewrite Hopt in *. rewrite Hul in Hnew.
    split_ifs; bounding_pair; st_simpl;
      (split; [reflexivity |]); (split; [exact Hnew |]);
      (split; [rewrite Hn; reflexivity |]);
      exists st2; (split; [exact Hsame |]); split; assumption.
  - left.
    pose proof (transform_frame C st sol false) as F. cbv zeta in F.
    split_ifs.
    all: destruct (transformNewIntegerFeasibleSolution C st sol false)
           as [t st1]; cbn [fst snd] in F |- *;
         destruct F as (_ & (_ & _ & Hul & Hol) & (_ & _ & Hn & _) & _);
         destruct (incumbent st1); st_simpl; auto.
    all: destruct (incumbent st); st_simpl; auto.
Qed.

End Stored.

(** X5.  A feasible solution kept in [mipsolver] is replaced by
    feasible candidates only.  If the stored solution has a finite
    objective and stored violations within
    [mip_feasibility_tolerance], then after any call of [addIncumbent]
    the stored violations are still within the tolerance: the stored
    solution is the old one, or it is the checked candidate, which then
    passed the violation check. *)
Theorem addIncumbent_keeps_stored_feasible {World : Type}
    (C : Collaborators World) (st : HighsMipSolverData World)
    (sol : list double) (solobj : double)
    (solution_source : SolutionSource) :
  currentFeasible (mipsolver st) = true ->
  let ms' := mipsolver (snd (addIncumbent C st sol solobj solution_source)) in
  stored_within_tolerance ms' = true
  /\ (ms' = mipsolver st
      \/ (candidate_feasible C st sol = true
          /\ ms' = candidate_stored C st sol)).
Proof.
  intro Hcur. cbv zeta. rewrite addIncumbent_mipsolver.
  assert (Hold : stored_within_tolerance (mipsolver st) = true).
  { unfold currentFeasible in Hcur. unfold stored_within_tolerance.
    destruct (solution_objective_ (mipsolver st) !=? kHighsInf)%D;
      [exact Hcur | discriminate]. }
  destruct (solobj <? upper_bound st)%D; [| auto].
  rewrite transformNewIntegerFeasibleSolution_eq, Hcur.
  destruct (candidate_feasible C st sol) eqn:Hfeas; cbn [snd]; [| auto].
  st_simpl. split; [exact Hfeas | auto].
Qed.

Lemma addIncumbent_keeps_stored_feasible_witness :
  let C := Sim.collaborators Sim.no_repair in
  currentFeasible (mipsolver cutoff_state) = true
  /\ stored_within_tolerance
       (mipsolver (snd (addIncumbent C cutoff_state [Fin (1 # 2)]
                          (Fin (1 # 2)) kSolutionSourceOther))) = true.
Proof.
  cbv zeta.
  assert (H : currentFeasible (mipsolver cutoff_state) = true)
    by (vm_compute; reflexivity).
  split; [exact H |].
  exact (proj1 (addIncumbent_keeps_stored_feasible
                  (Sim.collaborators Sim.no_repair) cutoff_state
                  [Fin (1 # 2)] (Fin (1 # 2)) kSolutionSourceOther H)).
Defined.

(** X6.  [upper_bound] is only ever set from a candidate that passed
    the violation check.  If a call of [addIncumbent] changes
    [upper_bound], the call returns [true], the candidate was found
    feasible in the original space, the new [upper_bound] is its
    objective in the transformed space, the solution stored in
    [mipsolver] is the checked candidate with its violations and
    objective, and [incumbent] is the solution that was passed. *)
Theorem addIncumbent_accepts_checked {World : Type}
    (C : Collaborators World) (st : HighsMipSolverData World)
    (sol : list double) (solobj : double)
    (solution_source : SolutionSource) :
  let r := addIncumbent C st sol solobj solution_source in
  upper_bound (snd r) <> upper_bound st ->
  fst r = true
  /\ candidate_feasible C st sol = true
  /\ upper_bound (snd r) = candidate_objective C st sol
  /\ mipsolver (snd r) = candidate_stored C st sol
  /\ incumbent (snd r) = sol.
Proof.
  cbv zeta. intro Hchanged.
  destruct (addIncumbent_upper_bound C st sol solobj solution_source)
    as [Hsame | (Hlt & Hge & Hret & Hub)]; [contradiction |].
  pose proof (addIncumbent_accept C st sol solobj solution_source Hlt Hge)
    as Hinc.
  pose proof (addIncumbent_mipsolver C st sol solobj solution_source)
    as Hms.
  rewrite Hlt in Hms.
  rewrite transformNewIntegerFeasibleSolution_eq in Hge, Hub, Hms.
  destruct (candidate_feasible C st sol).
  - cbn [fst snd] in Hub, Hms. st_simpl. auto.
  - exfalso. apply dlt_not_nan_r in Hlt.
    destruct (currentFeasible (mipsolver st)); cbn [fst] in Hge;
      destruct (upper_bound st); d_simpl; discriminate.
Qed.

Lemma addIncumbent_accepts_checked_witness :
  let C := Sim.collaborators Sim.no_repair in
  let r := addIncumbent C cutoff_state [Fin 7] (Fin 7)
             kSolutionSourceOther in
  upper_bound (snd r) <> upper_bound cutoff_state
  /\ candidate_feasible C cutoff_state [Fin 7] = true
  /\ upper_bound (snd r) = candidate_objective C cutoff_state [Fin 7].
Proof.
  cbv zeta.
  assert (H : upper_bound
                (snd (addIncumbent (Sim.collaborators Sim.no_repair)
                        cutoff_state [Fin 7] (Fin 7) kSolutionSourceOther))
              <> upper_bound cutoff_state)
    by (vm_compute; discriminate).
  split; [exact H |].
  destruct (addIncumbent_accepts_checked (Sim.collaborators Sim.no_repair)
              cutoff_state [Fin 7] (Fin 7) kSolutionSourceOther H)
    as (_ & Hfeas & Hub & _).
  split; [exact Hfeas | exact Hub].
Defined.



(** X8.  [numImprovingSols] counts the calls that lower [upper_limit].
    A call of [addIncumbent] leaves [upper_limit], [optimality_limit]
    and [numImprovingSols] as they were, or it returns [true], lowers
    [upper_limit] strictly and adds exactly one to
    [numImprovingSols]. *)
Theorem addIncumbent_counts_improvements {World : Type}
    (C : Collaborators World) (st : HighsMipSolverData World)
    (sol : list double) (solobj : double)
    (solution_source : SolutionSource) :
  let r := addIncumbent C st sol solobj solution_source in
  (upper_limit (snd r) = upper_limit st
   /\ optimality_limit (snd r) = optimality_limit st
   /\ numImprovingSols (snd r) = numImprovingSols st)
  \/ (fst r = true
      /\ (upper_limit (snd r) <? upper_limit st)%D = true
      /\ numImprovingSols (snd r) = (numImprovingSols st + 1)%Z).
Proof.
  cbv zeta.
  destruct (addIncumbent_limits C st sol solobj solution_source)
    as [H | (Hret & Hlt & Hn & _)]; [left; exact H | right; auto].
Qed.

(* ================================================================== *)
(** * The cutoff and the gaps                                          *)
(* ================================================================== *)

Lemma dadd_not_nan_l (a b : double) :
  is_nan (a + b)%D = false -> is_nan a = false.
Proof. destruct a, b; d_cases. Qed.

Lemma dadd_dle_mono_r (a b t : double) :
  is_finite t = true ->
  (a <=? b)%D = true -> (a + t <=? b + t)%D = true.
Proof. destruct a, b, t; d_cases. Qed.

(** A limit lowered by [std::min] when a gap is set. *)
Lemma gap_min_dle (limit gap x : double) :
  is_nan limit = false ->
  let limit' := if (gap !=? d0)%D then std_min limit x else limit in
  is_nan limit' = false /\ (limit' <=? limit)%D = true.
Proof.
  intro Hn. cbv zeta. destruct (gap !=? d0)%D.
  - split; [apply std_min_not_nan, Hn | apply std_min_dle_l, Hn].
  - split; [exact Hn | apply dle_refl, Hn].
Qed.

Section Gaps.
Context {World : Type} (C : Collaborators World).
Implicit Type st : HighsMipSolverData World.

(** The limit computed with gaps is at most the limit computed without
    them. *)
Lemma computeNewUpperLimit_gaps_dle st (ub mip_abs_gap mip_rel_gap : double) :
  is_finite (feastol st) = true ->
  is_nan (computeNewUpperLimit C st ub d0 d0) = false ->
  (computeNewUpperLimit C st ub mip_abs_gap mip_rel_gap
   <=? computeNewUpperLimit C st ub d0 d0)%D = true.
Proof.
  intros Htol Hn.
  destruct (isIntegral (objectiveFunction st)) eqn:Hint.
  - rewrite (cutoff_integral_zero_gaps C st ub Hint) in Hn |- *.
    apply dadd_not_nan_l in Hn.
    unfold computeNewUpperLimit. rewrite Hint.
    apply dadd_dle_mono_r; [exact Htol |].
    match goal with
    | |- ((if _ then std_min (if _ then std_min ?l ?x else _) ?y else _)
          <=? _)%D = true =>
        destruct (gap_min_dle l mip_rel_gap x Hn) as [Hn1 Hle1];
        cbv zeta in Hn1, Hle1;
        destruct (gap_min_dle _ mip_abs_gap y Hn1) as [_ Hle2];
        cbv zeta in Hle2
    end.
    eapply dle_trans; eassumption.
  - rewrite (cutoff_nonintegral_zero_gaps C st ub Hint) in Hn |- *.
    unfold computeNewUpperLimit. rewrite Hint.
    match goal with
    | |- ((if _ then std_min (if _ then std_min ?l ?x else _) ?y else _)
          <=? _)%D = true =>
        destruct (gap_min_dle l mip_rel_gap x Hn) as [Hn1 Hle1];
        cbv zeta in Hn1, Hle1;
        destruct (gap_min_dle _ mip_abs_gap y Hn1) as [_ Hle2];
        cbv zeta in Hle2
    end.
    eapply dle_trans; eassumption.
Qed.

(** [computeNewUpperLimit] reads the objective function, the
    tolerances and the offset of the model, and nothing else of the
    solver data. *)
Lemma computeNewUpperLimit_ext st st' (ub mip_abs_gap mip_rel_gap : double) :
  objectiveFunction st' = objectiveFunction st ->
  feastol st' = feastol st -> epsilon st' = epsilon st ->
  model_ (mipsolver st') = model_ (mipsolver st) ->
  computeNewUpperLimit C st' ub mip_abs_gap mip_rel_gap
  = computeNewUpperLimit C st ub mip_abs_gap mip_rel_gap.
Proof.
  intros Ho Hf He Hm. unfold computeNewUpperLimit.
  rewrite Ho, Hf, He, Hm. reflexivity.
Qed.

End Gaps.

(** X9.  After an improving incumbent the limit used for declaring
    optimality is not above the cutoff.  If the feasibility tolerance
    is finite and a call of [addIncumbent] changes [upper_limit], then
    afterwards [optimality_limit <= upper_limit]; both are
    [computeNewUpperLimit] of the new [upper_bound], the first with the
    gaps of the options and the second with zero gaps. *)
Theorem addIncumbent_optimality_limit_below {World : Type}
    (C : Collaborators World) (st : HighsMipSolverData World)
    (sol : list double) (solobj : double)
    (solution_source : SolutionSource) :
  let r := addIncumbent C st sol solobj solution_source in
  is_finite (feastol st) = true ->
  upper_limit (snd r) <> upper_limit st ->
  (optimality_limit (snd r) <=? upper_limit (snd r))%D = true
  /\ upper_limit (snd r)
     = computeNewUpperLimit C st (upper_bound (snd r)) d0 d0
  /\ optimality_limit (snd r)
     = computeNewUpperLimit C st (upper_bound (snd r))
         (mip_abs_gap (options_mip_ (mipsolver st)))
         (mip_rel_gap (options_mip_ (mipsolver st))).
Proof.
  cbv zeta. intros Htol Hchanged.
  destruct (addIncumbent_limits C st sol solobj solution_source)
    as [(Hsame & _) | (_ & Hlt & _ & st1 & (Ho & Hf & He & Hm & _)
                       & Hul & Hol)];
    [contradiction |].
  rewrite (computeNewUpperLimit_ext C st st1 _ _ _ Ho Hf He Hm) in Hul.
  rewrite (computeNewUpperLimit_ext C st st1 _ _ _ Ho Hf He Hm) in Hol.
  split; [| split; assumption].
  rewrite Hol, Hul. apply computeNewUpperLimit_gaps_dle; [exact Htol |].
  rewrite <- Hul. apply dlt_not_nan_l in Hlt. exact Hlt.
Qed.

Lemma addIncumbent_optimality_limit_below_witness :
  let C := Sim.collaborators Sim.no_repair in
  let r := addIncumbent C cutoff_state [Fin 7] (Fin 7)
             kSolutionSourceOther in
  upper_limit (snd r) <> upper_limit cutoff_state
  /\ (optimality_limit (snd r) <=? upper_limit (snd r))%D = true.
Proof.
  cbv zeta.
  assert (H : upper_limit
                (snd (addIncumbent (Sim.collaborators Sim.no_repair)
                        cutoff_state [Fin 7] (Fin 7) kSolutionSourceOther))
              <> upper_limit cutoff_state)
    by (vm_compute; discriminate).
  split; [exact H |].
  exact (proj1 (addIncumbent_optimality_limit_below
                  (Sim.collaborators Sim.no_repair) cutoff_state [Fin 7]
                  (Fin 7) kSolutionSourceOther eq_refl H)).
Defined.




(* ================================================================== *)
(** * The display line and [limitsToBounds]                            *)
(* ================================================================== *)

Lemma canonical_eq (a b : Q) :
  canonical (Fin a) -> canonical (Fin b) -> a == b -> Fin a = Fin b.
Proof.
  cbn. intros Ha Hb E. rewrite <- Ha, <- Hb.
  f_equal. apply Qred_complete, E.
Qed.

Lemma dadd_canonical (a b : double) : canonical (a + b)%D.
Proof.
  destruct a, b; cbn [dadd canonical]; auto.
  apply Qred_complete, Qred_correct.
Qed.

Lemma deq_refl (x : double) : is_nan x = false -> (x ==? x)%D = true.
Proof. destruct x; d_cases. Qed.

Lemma dle_not_nan_r (x y : double) : (x <=? y)%D = true -> is_nan y = false.
Proof. destruct x, y; d_cases. Qed.

(** [std::min] with its arguments swapped gives an equal value. *)
Lemma std_min_swap_deq (a b : double) :
  is_nan a = false -> is_nan b = false ->
  (std_min a b ==? (if (a <? b)%D then a else b))%D = true.
Proof.
  unfold std_min. destruct a as [| | p |], b as [| | q |]; d_simpl;
    try discriminate; try reflexivity; intros _ _;
    try (apply Qeq_bool_iff; reflexivity).
  destruct (Qltb q p) eqn:E1, (Qltb p q) eqn:E2; d_simpl; q_props; lra.
Qed.

Lemma std_min_swap_canonical (a b : double) :
  is_nan a = false -> is_nan b = false -> canonical a -> canonical b ->
  std_min a b = std_min b a.
Proof.
  unfold std_min. destruct a as [| | p |], b as [| | q |]; d_simpl;
    try discriminate; try reflexivity.
  intros _ _ Ha Hb.
  destruct (Qltb q p) eqn:E1, (Qltb p q) eqn:E2; try reflexivity.
  - q_props. lra.
  - apply canonical_eq; [assumption .. |]. q_props. lra.
Qed.

(** The factor [(int)sense] of the display line against the sign flip
    of [limitsToBounds]. *)
Lemma sense_factor_deq (s : ObjSense) (x y : double) :
  (x ==? y)%D = true ->
  ((if is_kMaximize s then (- x)%D else x)
   ==? of_Z (int_of_sense s) * y)%D = true.
Proof.
  destruct s, x as [| | p |], y as [| | q |];
    cbn [is_kMaximize int_of_sense of_Z dneg dmul deq dsign sign_mul
         inf_of_sign];
    try discriminate; try reflexivity; intro E; apply Qeq_bool_iff in E;
    apply Qeq_bool_iff; rewrite ?Qred_correct; rewrite E; ring.
Qed.

Lemma display_gap_self (q : Q) : display_gap (Fin q) (Fin q) = d0.
Proof.
  unfold display_gap. cbn [deq d0].
  destruct (Qeq_bool q 0) eqn:Eq0; [reflexivity |].
  apply Qeq_bool_neq_iff in Eq0.
  pose proof (Qabs_pos_of_nonzero q Eq0) as Hpos.
  cbn [dsub dneg dadd dmul d100 dabs ddiv].
  destruct (Qeq_bool (Qred (Qabs q)) 0) eqn:Eabs.
  - apply Qeq_bool_iff in Eabs. rewrite Qred_correct in Eabs. lra.
  - unfold d0. f_equal. transitivity (Qred 0); [| reflexivity].
    apply Qred_complete. rewrite !Qred_correct. field. lra.
Qed.

Section DisplayLine.
Context {World : Type}.
Implicit Type st : HighsMipSolverData World.

(** [limitsToBounds] through the shifted and snapped bounds. *)
Lemma limitsToBounds_snapped st :
  limitsToBounds st
  = (let cap := std_min (objective_bound (options_mip_ (mipsolver st))) in
     let dual := snapped st (lower_bound st) in
     if (upper_bound st !=? kHighsInf)%D then
       let primal := snapped st (upper_bound st) in
       (display_sign st (std_min dual primal), display_sign st (cap primal),
        display_gap primal (std_min dual primal))
     else
       (display_sign st dual, display_sign st (cap kHighsInf), kHighsInf)).
Proof.
  unfold limitsToBounds, snapped, display_sign, display_gap.
  destruct (upper_bound st !=? kHighsInf)%D;
    destruct (is_kMaximize (sense_ (orig_model_ (mipsolver st))));
    reflexivity.
Qed.

(** The values of the display line, likewise. *)
Lemma printDisplayLine_bounds_snapped st :
  printDisplayLine_bounds st
  = (let bound := objective_bound (options_mip_ (mipsolver st)) in
     let cap := fun ub => if (bound <? ub)%D then bound else ub in
     let lb := snapped st (lower_bound st) in
     if (upper_bound st !=? kHighsInf)%D then
       let ub := snapped st (upper_bound st) in
       (std_min ub lb, cap ub, display_gap ub (std_min ub lb))
     else (lb, cap kHighsInf, kHighsInf)).
Proof.
  unfold printDisplayLine_bounds, snapped, display_gap.
  destruct (upper_bound st !=? kHighsInf)%D; reflexivity.
Qed.

Lemma snapped_canonical st (bound : double) : canonical (snapped st bound).
Proof.
  unfold snapped.
  destruct (dabs (bound + offset_ (model_ (mipsolver st))) <=? epsilon st)%D;
    [reflexivity | apply dadd_canonical].
Qed.

Lemma snapped_not_nan st (bound : double) :
  is_nan (bound + offset_ (model_ (mipsolver st)))%D = false ->
  is_nan (snapped st bound) = false.
Proof.
  unfold snapped. intro H.
  destruct (dabs (bound + offset_ (model_ (mipsolver st))) <=? epsilon st)%D;
    [reflexivity | exact H].
Qed.

Lemma snapped_finite st (bound : double) :
  is_finite (bound + offset_ (model_ (mipsolver st)))%D = true ->
  is_finite (snapped st bound) = true.
Proof.
  unfold snapped. intro H.
  destruct (dabs (bound + offset_ (model_ (mipsolver st))) <=? epsilon st)%D;
    [reflexivity | exact H].
Qed.

(** Snapping to zero keeps the order of two finite bounds. *)
Lemma snapped_monotone st (l u o e : Q) :
  offset_ (model_ (mipsolver st)) = Fin o -> epsilon st = Fin e ->
  0 <= e -> u <= l ->
  exists p d : Q,
    snapped st (Fin u) = Fin p /\ snapped st (Fin l) = Fin d /\ p <= d.
Proof.
  intros Ho He He0 Hul. unfold snapped. rewrite Ho, He.
  cbn [dadd dabs dle d0].
  pose proof (Qabs_Qle_condition (u + o) e) as Cu.
  pose proof (Qabs_Qle_condition (l + o) e) as Cl.
  destruct (Qle_bool (Qred (Qabs (Qred (u + o)))) e) eqn:Eu,
           (Qle_bool (Qred (Qabs (Qred (l + o)))) e) eqn:El;
    q_props; do 2 eexists; (split; [reflexivity |]);
    (split; [reflexivity |]); rewrite ?Qred_correct.
  - lra.
  - apply Cu in Eu.
    destruct (Qlt_le_dec (l + o) 0) as [Hneg | Hpos]; [| exact Hpos].
    exfalso. rewrite Qabs_neg in El by lra. lra.
  - apply Cl in El.
    destruct (Qlt_le_dec 0 (u + o)) as [Hpos | Hneg]; [| exact Hneg].
    exfalso. rewrite Qabs_pos in Eu by lra. lra.
  - lra.
Qed.

End DisplayLine.

(** X11.  The gap is exactly zero once the lower bound has reached the
    upper bound.  With finite bounds, a finite offset and an [epsilon]
    that is not negative, if [upper_bound <= lower_bound] then
    [limitsToBounds] reports a relative gap of [0], and the dual bound
    it reports is the shifted upper bound, the dual bound being clamped
    to the primal one. *)
Theorem limitsToBounds_gap_closed {World : Type}
    (st : HighsMipSolverData World) (l u o e : Q) :
  lower_bound st = Fin l -> upper_bound st = Fin u ->
  offset_ (model_ (mipsolver st)) = Fin o -> epsilon st = Fin e ->
  0 <= e -> u <= l ->
  limitsToBounds st
  = (display_sign st (snapped st (upper_bound st)),
     display_sign st
       (std_min (objective_bound (options_mip_ (mipsolver st)))
          (snapped st (upper_bound st))),
     d0).
Proof.
  intros Hl Hu Ho He He0 Hul.
  rewrite limitsToBounds_snapped. cbv zeta. rewrite Hl, Hu.
  cbn [dne deq kHighsInf negb].
  pose proof (snapped_canonical st (Fin u)) as Cp.
  pose proof (snapped_canonical st (Fin l)) as Cd.
  destruct (snapped_monotone st l u o e Ho He He0 Hul)
    as (p & d & Hp & Hd & Hpd).
  rewrite Hp, Hd in *.
  assert (Hmin : std_min (Fin d) (Fin p) = Fin p).
  { unfold std_min. cbn [dlt]. destruct (Qltb p d) eqn:E; [reflexivity |].
    apply canonical_eq; [assumption .. |]. q_props. lra. }
  rewrite Hmin, display_gap_self. reflexivity.
Qed.

Lemma limitsToBounds_gap_closed_witness :
  limitsToBounds closed_gap_state = (Fin 10, Fin 10, d0).
Proof.
  exact (limitsToBounds_gap_closed closed_gap_state 10 10 0
           (1 # 1000000000) eq_refl eq_refl eq_refl eq_refl
           ltac:(discriminate) ltac:(discriminate)).
Defined.

(** X12.  The assertions of [printDisplayLine] hold.  The display line
    computes its bounds and its gap on its own, and then asserts that
    they are equal to the result of [limitsToBounds], the bounds up to
    the factor of the optimisation sense.  If the shifted lower bound
    is not NaN, the shifted upper bound is finite whenever there is an
    incumbent, and [objective_bound] is not NaN, the three assertions
    hold. *)
Theorem printDisplayLine_agrees_with_limitsToBounds {World : Type}
    (st : HighsMipSolverData World) :
  is_nan (lower_bound st + offset_ (model_ (mipsolver st)))%D = false ->
  ((upper_bound st !=? kHighsInf)%D = true ->
   is_finite (upper_bound st + offset_ (model_ (mipsolver st)))%D = true) ->
  is_nan (objective_bound (options_mip_ (mipsolver st))) = false ->
  printDisplayLine_asserts st = true.
Proof.
  intros Hlb Hub Hob. unfold printDisplayLine_asserts.
  rewrite printDisplayLine_bounds_snapped, limitsToBounds_snapped.
  cbv zeta. unfold display_sign.
  pose proof (snapped_not_nan st _ Hlb) as Hl.
  pose proof (snapped_canonical st (lower_bound st)) as Cl.
  pose proof (snapped_canonical st (upper_bound st)) as Cu.
  destruct (upper_bound st !=? kHighsInf)%D.
  - pose proof (snapped_finite st _ (Hub eq_refl)) as Hu.
    destruct (snapped st (upper_bound st)) as [| | p |] eqn:Ep;
      try discriminate.
    rewrite (std_min_swap_canonical (Fin p) _ eq_refl Hl Cu Cl).
    pose proof (clamped_gap_nonneg p _ Hl) as Hgap.
    apply dle_not_nan_r in Hgap.
    assert (Hmin : is_nan (std_min (snapped st (lower_bound st)) (Fin p))
                   = false) by (apply std_min_not_nan, Hl).
    rewrite (sense_factor_deq _ _ _ (deq_refl _ Hmin)).
    rewrite (sense_factor_deq _ _ _
               (std_min_swap_deq _ (Fin p) Hob eq_refl)).
    rewrite (deq_refl _ Hgap). reflexivity.
  - rewrite (sense_factor_deq _ _ _ (deq_refl _ Hl)).
    rewrite (sense_factor_deq _ _ _
               (std_min_swap_deq _ kHighsInf Hob eq_refl)).
    reflexivity.
Qed.

Lemma printDisplayLine_agrees_with_limitsToBounds_witness :
  printDisplayLine_asserts cutoff_state = true.
Proof.
  exact (printDisplayLine_agrees_with_limitsToBounds cutoff_state
           eq_refl (fun _ => eq_refl) eq_refl).
Defined.

(* ================================================================== *)
(** * The limits in a sub-MIP, and the objective target                *)
(* ================================================================== *)

(** X13.  In a sub-MIP [checkLimits] consults neither the user
    callback nor the objective target: the only statuses it can write
    are [kSolutionLimit], for the three counters, and [kTimeLimit]. *)
Theorem checkLimits_submip {World : Type} (C : Collaborators World)
    (st : HighsMipSolverData World) (nodeOffset : Z) :
  submip (mipsolver st) = true ->
  let status' := modelstatus_ (mipsolver (snd (checkLimits C st nodeOffset))) in
  status' = modelstatus_ (mipsolver st)
  \/ status' = kSolutionLimit
  \/ status' = kTimeLimit.
Proof.
  intro Hsub. cbv zeta. rewrite checkLimits_status.
  unfold first_limit_hit, limit_conditions. rewrite Hsub.
  cbn [negb andb find fst].
  split_ifs; auto;
    destruct (modelstatus_ (mipsolver st)); cbn [status_after_limit]; auto.
Qed.

Lemma checkLimits_submip_witness :
  let C := Sim.collaborators Sim.no_repair in
  submip (mipsolver submip_state) = true
  /\ modelstatus_ (mipsolver (snd (checkLimits C submip_state 0)))
     = kSolutionLimit.
Proof.
  cbv zeta. split; [reflexivity |].
  destruct (checkLimits_submip (Sim.collaborators Sim.no_repair)
              submip_state 0 eq_refl) as [H | [H | H]].
  - vm_compute in H. discriminate.
  - exact H.
  - vm_compute in H. discriminate.
Defined.

(** X14.  The objective target follows the sense of the original
    problem.  Outside a sub-MIP, without a user callback, with no
    status set yet, a stored solution of finite objective [q] and a
    finite target [tau]: [checkLimits] sets [kObjectiveTarget] exactly
    when [q < tau] for a minimisation and when [q > tau] for a
    maximisation, whatever the counters and the clock say. *)
Theorem checkLimits_objective_target {World : Type}
    (C : Collaborators World) (st : HighsMipSolverData World)
    (nodeOffset : Z) (q tau : Q) :
  submip (mipsolver st) = false ->
  user_callback (callback_ (mipsolver st)) = false ->
  modelstatus_ (mipsolver st) = kNotset ->
  solution_objective_ (mipsolver st) = Fin q ->
  objective_target (options_mip_ (mipsolver st)) = Fin tau ->
  modelstatus_ (mipsolver (snd (checkLimits C st nodeOffset)))
  = kObjectiveTarget
  <-> (if is_kMaximize (sense_ (orig_model_ (mipsolver st)))
       then tau < q else q < tau).
Proof.
  intros Hsub Hcb Hstatus Hobj Htarget.
  rewrite checkLimits_status, Hstatus.
  unfold first_limit_hit, limit_conditions.
  rewrite Hsub, Hcb, Hobj, Htarget.
  cbn [negb andb find fst dlt dgt dneg kHighsInf].
  assert (Hsense :
    (of_Z (int_of_sense (sense_ (orig_model_ (mipsolver st)))) * Fin q
     <? of_Z (int_of_sense (sense_ (orig_model_ (mipsolver st)))) * Fin tau)%D
    = true
    <-> (if is_kMaximize (sense_ (orig_model_ (mipsolver st)))
         then tau < q else q < tau)).
  { destruct (sense_ (orig_model_ (mipsolver st)));
      cbn [int_of_sense of_Z dmul dlt is_kMaximize];
      rewrite Qltb_lt, !Qred_correct;
      [change (inject_Z 1) with 1 | change (inject_Z (-1)) with (-1 # 1)];
      split; intro H; lra. }
  destruct (of_Z (int_of_sense (sense_ (orig_model_ (mipsolver st)))) * Fin q
            <? of_Z (int_of_sense (sense_ (orig_model_ (mipsolver st))))
               * Fin tau)%D.
  - cbn [status_after_limit]. split; [intros _; apply Hsense |]; reflexivity.
  - split; [| intro H; apply Hsense in H; discriminate].
    split_ifs; cbn [status_after_limit]; discriminate.
Qed.

Lemma checkLimits_objective_target_witness :
  modelstatus_
    (mipsolver (snd (checkLimits (Sim.collaborators Sim.no_repair)
                       target_state 0)))
  = kObjectiveTarget.
Proof.
  apply (checkLimits_objective_target (Sim.collaborators Sim.no_repair)
           target_state 0 3 5 eq_refl eq_refl eq_refl eq_refl eq_refl).
  reflexivity.
Defined.

(* ================================================================== *)
(** * The leaf counted by [evaluateRootLp]                             *)
(* ================================================================== *)

Section LeafCount.
Context {World : Type} (C : Collaborators World).
Implicit Type st : HighsMipSolverData World.

Lemma same_counts_refl st : same_counts st st.
Proof. unfold same_counts. auto. Qed.

Lemma same_counts_trans st st' st'' :
  same_counts st st' -> same_counts st' st'' -> same_counts st st''.
Proof. unfold same_counts. intros (-> & ->) (-> & ->). auto. Qed.

Lemma addIncumbent_same_counts st (sol : list double) (solobj : double)
    (solution_source : SolutionSource) :
  same_counts st (snd (addIncumbent C st sol solobj solution_source)).
Proof.
  unfold same_counts, addIncumbent.
  destruct (solobj <? upper_bound st)%D; cbn [orb].
  - pose proof (transform_frame C st sol true) as F. cbv zeta in F.
    destruct (transformNewIntegerFeasibleSolution C st sol true)
      as [t st1]. cbn [fst snd] in F |- *.
    destruct F as (_ & _ & (_ & _ & _ & Hn & Hl) & _).
    split_ifs;
      try match goal with
          | |- context [nodequeue_performBounding ?c ?l ?w] =>
              destruct (nodequeue_performBounding c l w)
          end;
      st_simpl; auto.
  - pose proof (transform_frame C st sol false) as F. cbv zeta in F.
    split_ifs.
    all: destruct (transformNewIntegerFeasibleSolution C st sol false)
           as [t st1]; cbn [fst snd] in F |- *;
         destruct F as (_ & _ & (_ & _ & _ & Hn & Hl) & _);
         destruct (incumbent st1); st_simpl; auto.
    all: destruct (incumbent st); st_simpl; auto.
Qed.

Lemma evaluateRootLp_tail_leaf st (status : Status.t) (lpWasSolved : bool) :
  leaf_verdict st (evaluateRootLp_tail C st status lpWasSolved).
Proof.
  unfold leaf_verdict, evaluateRootLp_tail, count_leaf, same_counts.
  destruct (Status.eqb status Status.kInfeasible) eqn:Hs.
  - right. st_simpl. destruct status; try discriminate. auto.
  - split_ifs; st_simpl; auto 6;
      left; (split; [auto |]); try discriminate;
      intro H; injection H as ->; discriminate.
Qed.

Lemma leaf_verdict_from st st' r :
  same_counts st st' -> leaf_verdict st' r -> leaf_verdict st r.
Proof.
  unfold leaf_verdict, same_counts. intros (Hn & Hl) [((Hn' & Hl') & Hs) | H].
  - left. rewrite Hn', Hl'. auto.
  - right. rewrite <- Hn, <- Hl. exact H.
Qed.

Lemma evaluateRootLp_body_leaf st :
  leaf_verdict st (evaluateRootLp_body C st).
Proof.
  unfold evaluateRootLp_body.
  assert (H1 : same_counts st (evaluateRootLp_propagate C st)).
  { unfold same_counts, evaluateRootLp_propagate. split_ifs; st_simpl; auto. }
  set (st1 := evaluateRootLp_propagate C st) in *.
  apply (leaf_verdict_from st st1 _ H1).
  destruct (domain_infeasible C (world st1)).
  { right. unfold count_leaf. st_simpl. auto. }
  assert (H2 : same_counts st1 (snd (evaluateRootLp_flush C st1))).
  { unfold same_counts, evaluateRootLp_flush, removeFixedIndices.
    split_ifs; st_simpl; auto. }
  destruct (evaluateRootLp_flush C st1) as [lpBoundsChanged st2].
  cbn [snd] in H2. apply (leaf_verdict_from st1 st2 _ H2).
  destruct (lpBoundsChanged || lp_solver_modelstatus_notset C (world st2));
    [| apply evaluateRootLp_tail_leaf].
  assert (H3 : same_counts st2 (snd (evaluateRootLp_resolve C st2))).
  { unfold same_counts, evaluateRootLp_resolve.
    destruct (lp_resolveLp C (world st2)); st_simpl; auto. }
  destruct (evaluateRootLp_resolve C st2) as [status st3].
  cbn [snd] in H3. apply (leaf_verdict_from st2 st3 _ H3).
  destruct (Status.eqb status Status.kUnbounded) eqn:Hunb.
  { right. unfold evaluateRootLp_unbounded, count_leaf.
    destruct status; try discriminate.
    destruct (solution_ (mipsolver st3)); st_simpl; auto. }
  destruct (Status.eqb status Status.kOptimal
            && lp_getFractionalIntegers_empty C (world st3));
    [| apply evaluateRootLp_tail_leaf].
  pose proof (addIncumbent_same_counts st3
                (lp_solution_col_value C (world st3))
                (lp_getObjective C (world st3)) kSolutionSourceEvaluateNode)
    as H4.
  destruct (addIncumbent C st3 (lp_solution_col_value C (world st3))
              (lp_getObjective C (world st3)) kSolutionSourceEvaluateNode)
    as [added st4].
  cbn [snd] in H4. apply (leaf_verdict_from st3 st4 _ H4).
  destruct added; [| apply evaluateRootLp_tail_leaf].
  right. unfold count_leaf. st_simpl. auto.
Qed.

(** A pass that goes round the loop leaves the counters. *)
Lemma evaluateRootLp_body_continue_counts st st' :
  evaluateRootLp_body C st = (st', None) -> same_counts st st'.
Proof.
  intro H. pose proof (evaluateRootLp_body_leaf st) as V.
  rewrite H in V. unfold leaf_verdict in V. cbn [fst snd] in V.
  destruct V as [(Hs & _) | (_ & _ & _ & [Hr | Hr])];
    [exact Hs | discriminate ..].
Qed.

End LeafCount.

(** X15.  [evaluateRootLp] counts the root as a leaf exactly in the
    cases in which the root is finished.  For a call that returns:
    either the counters of nodes and leaves are as before and the
    status returned is not [kInfeasible]; or both counters went up by
    one, [pruned_treeweight] is one, and the status returned is
    [kInfeasible] or, when the LP was found unbounded, [kUnbounded]. *)
Theorem evaluateRootLp_counts_leaf {World : Type} (C : Collaborators World)
    (fuel : nat) (st st' : HighsMipSolverData World) (status : Status.t) :
  evaluateRootLp C fuel st = Some (status, st') ->
  (num_nodes st' = num_nodes st /\ num_leaves st' = num_leaves st
   /\ status <> Status.kInfeasible)
  \/ (num_nodes st' = (num_nodes st + 1)%Z
      /\ num_leaves st' = (num_leaves st + 1)%Z
      /\ pruned_treeweight st' = d1
      /\ (status = Status.kInfeasible \/ status = Status.kUnbounded)).
Proof.
  revert st. induction fuel as [| fuel IH]; intros st H;
    cbn [evaluateRootLp] in H; [discriminate |].
  pose proof (evaluateRootLp_body_leaf C st) as V.
  destruct (evaluateRootLp_body C st) as [st1 [s |]] eqn:Hbody.
  - injection H as <- <-. unfold leaf_verdict, same_counts in V.
    cbn [fst snd] in V.
    destruct V as [((Hn & Hl) & Hs) | (Hn & Hl & Hp & Hs)].
    + left. repeat split; auto. intros ->. apply Hs. reflexivity.
    + right. repeat split; auto.
      destruct Hs as [Hs | Hs]; injection Hs as ->; auto.
  - apply evaluateRootLp_body_continue_counts in Hbody.
    destruct Hbody as (Hn & Hl). apply IH in H.
    rewrite Hn, Hl in H. exact H.
Qed.

Lemma evaluateRootLp_counts_leaf_witness :
  let C := Sim.collaborators Sim.no_repair in
  exists st' : HighsMipSolverData Sim.SimWorld,
    evaluateRootLp C 1 cutoff_state = Some (Status.kInfeasible, st')
    /\ num_leaves st' = (num_leaves cutoff_state + 1)%Z
    /\ pruned_treeweight st' = d1.
Proof.
  cbv zeta.
  destruct (evaluateRootLp (Sim.collaborators Sim.no_repair) 1 cutoff_state)
    as [[status st'] |] eqn:H; [| vm_compute in H; discriminate].
  assert (Hs : status = Status.kInfeasible).
  { vm_compute in H. injection H as <- _. reflexivity. }
  subst status. exists st'. split; [reflexivity |].
  destruct (evaluateRootLp_counts_leaf (Sim.collaborators Sim.no_repair)
              1 cutoff_state st' Status.kInfeasible H)
    as [(_ & _ & Habs) | (_ & Hl & Hp & _)].
  - exfalso. apply Habs. reflexivity.
  - split; [exact Hl | exact Hp].
Defined.

(* ================================================================== *)
(** * The bookkeeping of a restart                                     *)
(* ================================================================== *)

Section RunCounters.
Context {World : Type} (C : Collaborators World).
Implicit Type st : HighsMipSolverData World.

Lemma same_run_counters_refl st : same_run_counters st st.
Proof. unfold same_run_counters. tauto. Qed.

Lemma same_run_counters_trans st st' st'' :
  same_run_counters st st' -> same_run_counters st' st'' ->
  same_run_counters st st''.
Proof.
  unfold same_run_counters.
  intros ((-> & -> & -> & -> & -> & ->) & (-> & -> & -> & -> & -> & ->) & ->)
         ((-> & -> & -> & -> & -> & ->) & (-> & -> & -> & -> & -> & ->) & ->).
  tauto.
Qed.

Lemma transform_run_counters st (sol : list double) (flag : bool) :
  same_run_counters st
    (snd (transformNewIntegerFeasibleSolution C st sol flag)).
Proof.
  rewrite transformNewIntegerFeasibleSolution_eq. unfold same_run_counters.
  split_ifs; st_simpl; tauto.
Qed.

Lemma addIncumbent_run_counters st (sol : list double) (solobj : double)
    (solution_source : SolutionSource) :
  same_run_counters st (snd (addIncumbent C st sol solobj solution_source)).
Proof.
  unfold addIncumbent.
  destruct (solobj <? upper_bound st)%D; cbn [orb].
  - pose proof (transform_run_counters st sol true) as F.
    destruct (transformNewIntegerFeasibleSolution C st sol true)
      as [t st1]. cbn [fst snd] in F |- *.
    apply (same_run_counters_trans _ _ _ F). unfold same_run_counters.
    split_ifs;
      try match goal with
          | |- context [nodequeue_performBounding ?c ?l ?w] =>
              destruct (nodequeue_performBounding c l w)
          end;
      st_simpl; tauto.
  - rewrite transformNewIntegerFeasibleSolution_eq. unfold same_run_counters.
    split_ifs; destruct (incumbent st); st_simpl; tauto.
Qed.

Lemma checkLimits_run_counters st (nodeOffset : Z) :
  same_run_counters st (snd (checkLimits C st nodeOffset)).
Proof.
  rewrite checkLimits_first_limit_hit. unfold same_run_counters.
  destruct (first_limit_hit C st nodeOffset); cbn [snd];
    split_ifs; st_simpl; tauto.
Qed.

Lemma runSetup_start_solution_run_counters st :
  same_run_counters st (runSetup_start_solution C st).
Proof.
  unfold runSetup_start_solution, same_run_counters.
  split_ifs; st_simpl; tauto.
Qed.

Lemma runSetup_run_counters st (st' : HighsMipSolverData World) :
  runSetup C st = Some st' -> same_run_counters st st'.
Proof.
  unfold runSetup. cbv zeta.
  match goal with
  | |- context [runSetup_start_solution C ?s] =>
      pose proof (runSetup_start_solution_run_counters s) as H2;
      assert (H1 : same_run_counters st s)
        by (unfold same_run_counters; st_simpl; tauto);
      set (s2 := runSetup_start_solution C s) in *
  end.
  pose proof (same_run_counters_trans _ _ _ H1 H2) as H12. clear H1 H2.
  match goal with
  | |- context [if ?c then snd (addIncumbent C s2 ?a ?b ?src) else s2] =>
      assert (H3 :
        same_run_counters st
          (if c then snd (addIncumbent C s2 a b src) else s2));
      [| set (s3 := if c then snd (addIncumbent C s2 a b src) else s2) in * ]
  end.
  { destruct (num_col_ (model_ (mipsolver st)) =? 0)%Z; [| exact H12].
    apply (same_run_counters_trans _ _ _ H12).
    apply addIncumbent_run_counters. }
  destruct (highsSparseTranspose C _ _ _) as [[start index] value].
  match goal with
  | |- context [checkLimits C ?s 0] =>
      pose proof (checkLimits_run_counters s 0) as H4;
      assert (H5 : same_run_counters s3 s)
        by (unfold same_run_counters; st_simpl; tauto);
      destruct (checkLimits C s 0) as [stop s4]
  end.
  cbn [snd] in H4.
  pose proof (same_run_counters_trans _ _ _ H3
                (same_run_counters_trans _ _ _ H5 H4)) as H6.
  assert (H7 : same_run_counters st s3 -> forall s,
            same_run_counters s3 s -> same_run_counters st s)
    by (intros; eapply same_run_counters_trans; eassumption).
  st_simpl.
  split_ifs.
  - intro H; injection H as <-. apply (H7 H3).
    unfold same_run_counters. st_simpl. tauto.
  - intro H; injection H as <-. apply (H7 H3).
    unfold same_run_counters. st_simpl. tauto.
  - intro H; injection H as <-. exact H6.
  - destruct (classify_columns _ _ _ _ _ _) as [[[[i1 i2] i3] i4] |];
      [| discriminate].
    intro H; injection H as <-.
    apply (same_run_counters_trans _ _ _ H6).
    unfold same_run_counters. st_simpl. tauto.
Qed.

End RunCounters.

(** X16.  What a restart does to the counters.  A call of
    [performRestart] that returns adds one to [numRestarts], leaves the
    counters of nodes, leaves and LP iterations as they were, and sets
    each snapshot to the current value of its counter, so that the
    counts of the new run start at zero; this holds whether presolve
    decides the problem or the search is set up again. *)
Theorem performRestart_counters {World : Type} (C : Collaborators World)
    (st st' : HighsMipSolverData World) :
  performRestart C st = Some st' ->
  numRestarts st' = (numRestarts st + 1)%Z
  /\ (num_nodes st' = num_nodes st /\ num_leaves st' = num_leaves st
      /\ total_lp_iterations st' = total_lp_iterations st
      /\ heuristic_lp_iterations st' = heuristic_lp_iterations st
      /\ sepa_lp_iterations st' = sepa_lp_iterations st
      /\ sb_lp_iterations st' = sb_lp_iterations st)
  /\ (num_nodes_before_run st' = num_nodes st'
      /\ num_leaves_before_run st' = num_leaves st'
      /\ total_lp_iterations_before_run st' = total_lp_iterations st'
      /\ heuristic_lp_iterations_before_run st' = heuristic_lp_iterations st'
      /\ sepa_lp_iterations_before_run st' = sepa_lp_iterations st'
      /\ sb_lp_iterations_before_run st' = sb_lp_iterations st').
Proof.
  set (s0 := snapshot_before_run (set_numRestarts (numRestarts st + 1)%Z st)).
  assert (Hgoal : forall s : HighsMipSolverData World,
            same_run_counters s0 s ->
            numRestarts s = (numRestarts st + 1)%Z
            /\ (num_nodes s = num_nodes st /\ num_leaves s = num_leaves st
                /\ total_lp_iterations s = total_lp_iterations st
                /\ heuristic_lp_iterations s = heuristic_lp_iterations st
                /\ sepa_lp_iterations s = sepa_lp_iterations st
                /\ sb_lp_iterations s = sb_lp_iterations st)
            /\ (num_nodes_before_run s = num_nodes s
                /\ num_leaves_before_run s = num_leaves s
                /\ total_lp_iterations_before_run s = total_lp_iterations s
                /\ heuristic_lp_iterations_before_run s
                   = heuristic_lp_iterations s
                /\ sepa_lp_iterations_before_run s = sepa_lp_iterations s
                /\ sb_lp_iterations_before_run s = sb_lp_iterations s)).
  { unfold same_run_counters, s0. st_simpl.
    intros s ((-> & -> & -> & -> & -> & ->) & (-> & -> & -> & -> & -> & ->)
              & ->).
    tauto. }
  unfold performRestart, runPresolve. cbv zeta. fold s0.
  destruct (presolve_run C _) as [[status presolved] w].
  st_simpl.
  destruct (negb (HighsModelStatus_eqb status kNotset)).
  - assert (Hfin : forall (s : HighsMipSolverData World) (c : bool)
                          (ms : HighsMipSolver),
              same_run_counters s0 s ->
              (if c then Some (set_mipsolver ms s) else Some s) = Some st' ->
              same_run_counters s0 st').
    { intros s c ms Hs H. destruct c; injection H as <-; [| exact Hs].
      apply (same_run_counters_trans _ _ _ Hs).
      unfold same_run_counters. st_simpl. tauto. }
    destruct (HighsModelStatus_eqb status kOptimal).
    + match goal with
      | |- context [transformNewIntegerFeasibleSolution C ?s ?a ?b] =>
          pose proof (transform_run_counters C s a b) as F;
          assert (H0 : same_run_counters s0 s)
            by (unfold same_run_counters, s0; st_simpl; tauto);
          destruct (transformNewIntegerFeasibleSolution C s a b) as [v s1]
      end.
      cbn [snd] in F |- *.
      pose proof (same_run_counters_trans _ _ _ H0 F) as H1.
      intro H. apply Hgoal.
      refine (Hfin (set_lower_bound (upper_bound s1) s1) _ _ _ H).
      apply (same_run_counters_trans _ _ _ H1).
      unfold same_run_counters. st_simpl. tauto.
    + intro H. apply Hgoal.
      refine (Hfin _ _ _ _ H).
      unfold same_run_counters, s0. st_simpl. tauto.
  - match goal with
    | |- context [runSetup C ?s] =>
        assert (H0 : same_run_counters s0 s)
          by (unfold same_run_counters, s0; st_simpl; tauto);
        destruct (runSetup C s) as [s1 |] eqn:Hsetup; [| discriminate]
    end.
    apply runSetup_run_counters in Hsetup.
    intro H; injection H as <-. apply Hgoal.
    apply (same_run_counters_trans _ _ _ H0).
    apply (same_run_counters_trans _ _ _ Hsetup).
    unfold same_run_counters. st_simpl. tauto.
Qed.

Lemma performRestart_counters_witness :
  let C := Sim.collaborators Sim.no_repair in
  exists st' : HighsMipSolverData Sim.SimWorld,
    performRestart C node_limit_state = Some st'
    /\ numRestarts st' = 1%Z
    /\ num_nodes st' = 95%Z
    /\ num_nodes_before_run st' = 95%Z.
Proof.
  cbv zeta.
  destruct (performRestart (Sim.collaborators Sim.no_repair) node_limit_state)
    as [st' |] eqn:H; [| vm_compute in H; discriminate].
  exists st'. split; [reflexivity |].
  destruct (performRestart_counters (Sim.collaborators Sim.no_repair)
              node_limit_state st' H)
    as (Hr & (Hn & _) & (Hb & _)).
  split; [exact Hr |]. split; [exact Hn |]. rewrite Hb. exact Hn.
Defined.

(* ================================================================== *)
(** * The classification of the columns                                *)
(* ================================================================== *)

Lemma classify_columns_filter (model : HighsLp) (iters : list Z) :
  forall integral integer implint continuous : list Z,
    classify_columns model iters integral integer implint continuous
    = if forallb (fun i => negb (is_semi (variableType model i))) iters
      then
        Some
          (integral
           ++ filter (fun i => is_kInteger (variableType model i)
                               || is_kImplicitInteger (variableType model i))
                iters,
           integer
           ++ filter (fun i => is_kInteger (variableType model i)) iters,
           implint
           ++ filter (fun i => is_kImplicitInteger (variableType model i))
                iters,
           continuous
           ++ filter (fun i => is_kContinuous (variableType model i)) iters)
      else None.
Proof.
  induction iters as [| i rest IH]; intros a b c d;
    cbn [classify_columns forallb filter].
  - rewrite !app_nil_r. reflexivity.
  - change (vget kContinuous (integrality_ model) i)
      with (variableType model i).
    destruct (variableType model i);
      cbn [is_semi negb andb is_kInteger is_kImplicitInteger is_kContinuous
           orb];
      try reflexivity; rewrite IH;
      destruct (forallb _ rest); try reflexivity;
      rewrite <- ?app_assoc; reflexivity.
Qed.

Lemma filter_three_way {A : Type} (f g h : A -> bool) (l : list A) :
  (forall x, In x l ->
     (f x = true /\ g x = false /\ h x = false)
     \/ (f x = false /\ g x = true /\ h x = false)
     \/ (f x = false /\ g x = false /\ h x = true)) ->
  (length (filter f l) + length (filter g l) + length (filter h l)
   = length l)%nat.
Proof.
  induction l as [| x l IH]; intro H; [reflexivity |].
  cbn [filter length].
  specialize (IH (fun y Hy => H y (or_intror Hy))).
  destruct (H x (or_introl eq_refl))
    as [(-> & -> & ->) | [(-> & -> & ->) | (-> & -> & ->)]];
    cbn [length]; lia.
Qed.

(** X17.  The column lists of [runSetup] partition the columns by
    type.  The loop of lines 586-623 throws exactly when some column is
    semi-continuous or semi-integer.  Otherwise [integer_cols],
    [implint_cols] and [continuous_cols] are the columns of type
    integer, implied integer and continuous, each in increasing order,
    [integral_cols] is the increasing list of the columns of the first
    two types, and every column is in exactly one of the three lists:
    their lengths add up to the number of columns. *)
Theorem classify_columns_partition (model : HighsLp) (n : Z) :
  let cols := indices n in
  let ty := variableType model in
  classify_columns model cols [] [] [] []
  = (if forallb (fun i => negb (is_semi (ty i))) cols
     then
       Some
         (filter (fun i => is_kInteger (ty i) || is_kImplicitInteger (ty i))
            cols,
          filter (fun i => is_kInteger (ty i)) cols,
          filter (fun i => is_kImplicitInteger (ty i)) cols,
          filter (fun i => is_kContinuous (ty i)) cols)
     else None)
  /\ (forallb (fun i => negb (is_semi (ty i))) cols = true ->
      (length (filter (fun i => is_kInteger (ty i)) cols)
       + length (filter (fun i => is_kImplicitInteger (ty i)) cols)
       + length (filter (fun i => is_kContinuous (ty i)) cols)
       = Z.to_nat n)%nat).
Proof.
  cbv zeta. split; [apply classify_columns_filter |].
  intro Hall. rewrite filter_three_way.
  - unfold indices. rewrite length_map, length_seq. reflexivity.
  - intros i Hi. rewrite forallb_forall in Hall. specialize (Hall i Hi).
    destruct (variableType model i); cbn in Hall |- *; try discriminate;
      auto.
Qed.

Lemma classify_columns_partition_witness :
  classify_columns two_row_model (indices 2) [] [] [] []
  = Some ([0%Z], [0%Z], [], [1%Z])
  /\ (length [0%Z] + length (@nil Z) + length [1%Z] = 2)%nat.
Proof.
  split; [vm_compute; reflexivity |].
  exact (proj2 (classify_columns_partition two_row_model 2) eq_refl).
Defined.

(* ================================================================== *)
(** * The budget of the heuristics                                     *)
(* ================================================================== *)

(** The factor of line 297 is a number between [3/8] and [1]. *)
Lemma late_effort_factor_range (w : double) :
  exists f : Q, late_effort_factor w = Fin f /\ 3 # 8 <= f /\ f <= 1.
Proof.
  assert (Hd : forall a : Q,
            (Fin a / Fin (8 # 10))%D = Fin (Qred (a / (8 # 10))))
    by reflexivity.
  unfold late_effort_factor, std_min, std_max.
  destruct w as [| | q |]; cbn [dlt].
  - eexists. split; [vm_compute; reflexivity | split; discriminate].
  - eexists. split; [vm_compute; reflexivity | split; discriminate].
  - destruct (Qltb (8 # 10) q) eqn:E.
    + eexists. split; [vm_compute; reflexivity | split; discriminate].
    + rewrite !Hd. cbn [dlt].
      destruct (Qltb (Qred ((3 # 10) / (8 # 10))) (Qred (q / (8 # 10))))
        eqn:E2.
      * eexists. split; [reflexivity |]. q_props.
        assert (H : q / (8 # 10) == q * (10 # 8)) by (field; discriminate).
        assert (H' : (3 # 10) / (8 # 10) == 3 # 8) by reflexivity.
        rewrite H in *. rewrite H' in E2. split; lra.
      * eexists. split; [reflexivity |]. rewrite Qred_correct.
        split; discriminate.
  - eexists. split; [vm_compute; reflexivity | split; discriminate].
Qed.

Lemma dmul_fin_mono (a e e' : Q) :
  0 <= a -> e <= e' -> (Fin a * Fin e <=? Fin a * Fin e')%D = true.
Proof.
  intros Ha He. cbn [dmul dle]. apply Qle_bool_iff.
  rewrite !Qred_correct. rewrite !(Qmult_comm a).
  apply Qmult_le_compat_r; assumption.
Qed.

Section Heuristics.
Context {World : Type}.
Implicit Type st : HighsMipSolverData World.

(** [moreHeuristicsAllowed] through the factor of the late regime. *)
Lemma moreHeuristicsAllowed_late st (heuristic_effort : double) :
  submip (mipsolver st) = false ->
  (pruned_treeweight st <? Fin (1 # 1000))%D
  && (num_leaves st - num_leaves_before_run st <? 10)%Z
  && (num_nodes st - num_nodes_before_run st <? 1000)%Z = false ->
  moreHeuristicsAllowed st heuristic_effort = true ->
  exists estim : double,
    forall effort : double,
      moreHeuristicsAllowed st effort
      = (estim <? late_effort_factor (pruned_treeweight st) * effort)%D.
Proof.
  intros Hsub Hearly. unfold moreHeuristicsAllowed.
  rewrite Hsub, Hearly.
  destruct (heuristic_lp_iterations st
            <? 100000
               + Z.shiftr (total_lp_iterations st
                           - heuristic_lp_iterations st
                           - sb_lp_iterations st) 1)%Z; [| discriminate].
  intros _. cbv zeta. unfold late_effort_factor.
  eexists. intro effort.
  match goal with
  | |- (if ?c then true else false) = _ =>
      transitivity c; [destruct c; reflexivity |]
  end.
  reflexivity.
Qed.

End Heuristics.

(** X18.  More heuristic effort never forbids what less effort allows.
    With a total of LP iterations that is not negative, if
    [moreHeuristicsAllowed] holds for the effort [e] it holds for every
    effort [e' >= e], in a sub-MIP, early in the search and late in
    the search alike. *)
Theorem moreHeuristicsAllowed_monotone {World : Type}
    (st : HighsMipSolverData World) (e e' : Q) :
  (0 <= total_lp_iterations st)%Z -> e <= e' ->
  moreHeuristicsAllowed st (Fin e) = true ->
  moreHeuristicsAllowed st (Fin e') = true.
Proof.
  intros Htotal Hee H.
  assert (Ht : 0 <= inject_Z (total_lp_iterations st))
    by (change 0 with (inject_Z 0); rewrite <- Zle_Qle; exact Htotal).
  pose proof (dmul_fin_mono _ e e' Ht Hee) as Hmul.
  destruct (submip (mipsolver st)) eqn:Hsub.
  - unfold moreHeuristicsAllowed in *. rewrite Hsub in *.
    eapply dlt_dle_trans; [exact H | exact Hmul].
  - destruct ((pruned_treeweight st <? Fin (1 # 1000))%D
              && (num_leaves st - num_leaves_before_run st <? 10)%Z
              && (num_nodes st - num_nodes_before_run st <? 1000)%Z)
      eqn:Hearly.
    + unfold moreHeuristicsAllowed in *. rewrite Hsub, Hearly in *.
      destruct (of_Z (heuristic_lp_iterations st)
                <? of_Z (total_lp_iterations st) * Fin e + of_Z 10000)%D
        eqn:Hlt; [| discriminate].
      assert (Hle : (of_Z (total_lp_iterations st) * Fin e + of_Z 10000
                     <=? of_Z (total_lp_iterations st) * Fin e'
                         + of_Z 10000)%D = true)
        by (apply dadd_dle_mono_r; [reflexivity | exact Hmul]).
      rewrite (dlt_dle_trans _ _ _ Hlt Hle). reflexivity.
    + destruct (moreHeuristicsAllowed_late st (Fin e) Hsub Hearly H)
        as [estim Heq].
      rewrite Heq in H |- *.
      destruct (late_effort_factor_range (pruned_treeweight st))
        as (f & Hfac & Hf & _).
      rewrite Hfac in H |- *.
      eapply dlt_dle_trans; [exact H |].
      apply dmul_fin_mono; [lra | exact Hee].
Qed.

Lemma moreHeuristicsAllowed_monotone_witness :
  moreHeuristicsAllowed early_state (Fin (1 # 20)) = true
  /\ moreHeuristicsAllowed early_state (Fin 1) = true.
Proof.
  assert (H : moreHeuristicsAllowed early_state (Fin (1 # 20)) = true)
    by (vm_compute; reflexivity).
  split; [exact H |].
  exact (moreHeuristicsAllowed_monotone early_state (1 # 20) 1
           ltac:(discriminate) ltac:(discriminate) H).
Defined.

(** X19.  The initial offset of the main solver.  Outside a sub-MIP,
    while less than a thousandth of the tree is pruned and the current
    run has seen fewer than 10 leaves and fewer than 1000 nodes,
    heuristics are allowed as long as they have used fewer than 10000
    LP iterations, whatever the effort (not negative) and the total of
    LP iterations (not negative) are. *)
Theorem moreHeuristicsAllowed_initial_offset {World : Type}
    (st : HighsMipSolverData World) (effort : Q) :
  submip (mipsolver st) = false ->
  (pruned_treeweight st <? Fin (1 # 1000))%D = true ->
  (num_leaves st - num_leaves_before_run st < 10)%Z ->
  (num_nodes st - num_nodes_before_run st < 1000)%Z ->
  (0 <= total_lp_iterations st)%Z -> 0 <= effort ->
  (heuristic_lp_iterations st < 10000)%Z ->
  moreHeuristicsAllowed st (Fin effort) = true.
Proof.
  intros Hsub Hw Hl Hn Htotal He Hh.
  unfold moreHeuristicsAllowed. rewrite Hsub, Hw.
  apply Z.ltb_lt in Hl, Hn. rewrite Hl, Hn. cbn [andb].
  assert (Ht : 0 <= inject_Z (total_lp_iterations st))
    by (change 0 with (inject_Z 0); rewrite <- Zle_Qle; exact Htotal).
  assert (Hq : inject_Z (heuristic_lp_iterations st) < inject_Z 10000)
    by (rewrite <- Zlt_Qlt; exact Hh).
  assert (Hlt : (of_Z (heuristic_lp_iterations st)
                 <? of_Z (total_lp_iterations st) * Fin effort
                    + of_Z 10000)%D = true).
  { cbn [of_Z dmul dadd dlt]. apply Qltb_lt. rewrite !Qred_correct.
    pose proof (Qmult_le_0_compat _ _ Ht He). lra. }
  rewrite Hlt. reflexivity.
Qed.

Lemma moreHeuristicsAllowed_initial_offset_witness :
  moreHeuristicsAllowed early_state (Fin 0) = true.
Proof.
  exact (moreHeuristicsAllowed_initial_offset early_state 0 eq_refl eq_refl
           ltac:(reflexivity) ltac:(reflexivity) ltac:(discriminate)
           ltac:(discriminate) ltac:(reflexivity)).
Defined.

(** X20.  The percentage of inactive integers is a percentage.  If the
    number of substitutions is at most the number of integer columns
    still tracked, which is at most [numintegercols], a positive
    [HighsInt], then [percentageInactiveIntegers] is
    [100 * (1 - (size - substitutions) / numintegercols)], a number
    between 0 and 100; it is 0 when nothing was removed or
    substituted. *)
Theorem percentageInactiveIntegers_range {World : Type}
    (st : HighsMipSolverData World) (substitutions : Z) :
  let size := Z.of_nat (length (integer_cols st)) in
  (0 <= substitutions <= size)%Z ->
  (size <= numintegercols st)%Z ->
  (0 < numintegercols st <= kHighsIInf)%Z ->
  exists q : Q,
    percentageInactiveIntegers st substitutions = Fin q
    /\ q == 100 * (1 - inject_Z (size - substitutions)
                       / inject_Z (numintegercols st))
    /\ 0 <= q /\ q <= 100
    /\ ((size - substitutions = numintegercols st)%Z -> q == 0).
Proof.
  cbv zeta. intros Hsub Hsize Hn.
  unfold percentageInactiveIntegers.
  assert (Hmod : ((Z.of_nat (length (integer_cols st)) - substitutions)
                  mod 2 ^ 64
                  = Z.of_nat (length (integer_cols st)) - substitutions)%Z).
  { apply Z.mod_small. unfold kHighsIInf in Hn. lia. }
  rewrite Hmod.
  set (k := (Z.of_nat (length (integer_cols st)) - substitutions)%Z) in *.
  assert (Hk : (0 <= k <= numintegercols st)%Z) by (unfold k; lia).
  assert (Hn0 : 0 < inject_Z (numintegercols st))
    by (change 0 with (inject_Z 0); rewrite <- Zlt_Qlt; lia).
  assert (Hk0 : 0 <= inject_Z k)
    by (change 0 with (inject_Z 0); rewrite <- Zle_Qle; lia).
  assert (Hkn : inject_Z k <= inject_Z (numintegercols st))
    by (rewrite <- Zle_Qle; lia).
  cbn [of_Z ddiv].
  assert (Hne : Qeq_bool (inject_Z (numintegercols st)) 0 = false)
    by (apply Qeq_bool_neq_iff; lra).
  rewrite Hne. cbn [d1 d100 dsub dneg dadd dmul].
  eexists. split; [reflexivity |].
  assert (Hfrac0 : 0 <= inject_Z k / inject_Z (numintegercols st))
    by (apply Qle_shift_div_l; [exact Hn0 | lra]).
  assert (Hfrac1 : inject_Z k / inject_Z (numintegercols st) <= 1)
    by (apply Qle_shift_div_r; [exact Hn0 | lra]).
  rewrite !Qred_correct.
  split; [ring |]. split; [lra |]. split; [lra |].
  intro Heq. rewrite Heq. field. lra.
Qed.

Lemma percentageInactiveIntegers_range_witness :
  exists q : Q,
    percentageInactiveIntegers
      (set_numintegercols 4
         (set_cols [1%Z; 2%Z; 3%Z] [1%Z; 2%Z; 3%Z] [] [] early_state)) 1
    = Fin q
    /\ 0 <= q /\ q <= 100.
Proof.
  destruct (percentageInactiveIntegers_range
              (set_numintegercols 4
                 (set_cols [1%Z; 2%Z; 3%Z] [1%Z; 2%Z; 3%Z] [] []
                    early_state)) 1
              ltac:(vm_compute; split; discriminate)
              ltac:(vm_compute; discriminate)
              ltac:(vm_compute; split; [reflexivity | discriminate]))
    as (q & Hq & _ & H0 & H100 & _).
  exists q. split; [exact Hq | split; assumption].
Defined.

(* ================================================================== *)
(** * The row data of [runSetup] and [setupDomainPropagation]          *)
(* ================================================================== *)

Lemma dabs_not_nan (x : double) : is_nan x = false -> is_nan (dabs x) = false.
Proof. destruct x; d_cases. Qed.

(** The loop of lines 1886-1887: the result is not below the start
    value or the absolute value of any entry, and it is one of them. *)
Lemma maxabsval_loop_spec (ARvalue : list double) (iters : list Z) :
  forall m0 m : double,
    maxabsval_loop ARvalue iters m0 = Some m ->
    is_nan m0 = false ->
    is_nan m = false
    /\ (m0 <=? m)%D = true
    /\ (forall j : Z, In j iters ->
          is_nan (vget NaN ARvalue j) = false ->
          (dabs (vget NaN ARvalue j) <=? m)%D = true)
    /\ (m = m0 \/ exists j : Z, In j iters /\ m = dabs (vget NaN ARvalue j)).
Proof.
  induction iters as [| j rest IH]; intros m0 m H Hn;
    cbn [maxabsval_loop] in H.
  - injection H as <-. split; [exact Hn |].
    split; [apply dle_refl, Hn |]. split; [intros j [] | auto].
  - destruct (vread ARvalue j) as [v |] eqn:Ev; [| discriminate].
    pose proof (vread_vget NaN _ _ _ Ev) as Hv.
    destruct (IH _ _ H (std_max_not_nan _ (dabs v) Hn))
      as (Hm & Hle & Hall & Hone).
    split; [exact Hm |].
    split; [eapply dle_trans; [apply std_max_dle_l, Hn | exact Hle] |].
    split.
    + intros k [<- | Hk] Hnan; [| apply Hall; assumption].
      rewrite Hv in *. eapply dle_trans; [| exact Hle].
      apply std_max_dle_r; [exact Hn | apply dabs_not_nan, Hnan].
    + destruct Hone as [-> | (k & Hk & ->)].
      * destruct (std_max_cases m0 (dabs v)) as [-> | ->]; [auto |].
        right. exists j. rewrite Hv.
        split; [left; reflexivity | reflexivity].
      * right. exists k. split; [right; exact Hk | reflexivity].
Qed.

(** The loop of [runSetup] computes the same maximum. *)
Lemma runSetup_row_loop_maxabsval (integrality : list HighsVarType)
    (ARindex : list Z) (ARvalue : list double) (epsilon : double)
    (iters : list Z) :
  forall (integral integral' : bool) (m0 m : double),
    runSetup_row_loop integrality ARindex ARvalue epsilon iters integral m0
    = Some (integral', m) ->
    maxabsval_loop ARvalue iters m0 = Some m.
Proof.
  induction iters as [| j rest IH]; intros b b' m0 m H;
    cbn [runSetup_row_loop maxabsval_loop] in *.
  - injection H as _ <-. reflexivity.
  - destruct (if b then _ else _) as [b1 |]; [| discriminate].
    destruct (vread ARvalue j) as [v |]; [| discriminate].
    eapply IH. exact H.
Qed.

(** Once an entry has made the row non-integral it stays so. *)
Lemma runSetup_row_loop_false (integrality : list HighsVarType)
    (ARindex : list Z) (ARvalue : list double) (epsilon : double)
    (iters : list Z) :
  forall (integral' : bool) (m0 m : double),
    runSetup_row_loop integrality ARindex ARvalue epsilon iters false m0
    = Some (integral', m) ->
    integral' = false.
Proof.
  induction iters as [| j rest IH]; intros b' m0 m H;
    cbn [runSetup_row_loop] in H.
  - injection H as <- _. reflexivity.
  - destruct (vread ARvalue j) as [v |]; [| discriminate].
    eapply IH. exact H.
Qed.

(** A row found integral has integral coefficients on columns that are
    not continuous. *)
Lemma runSetup_row_loop_integral (integrality : list HighsVarType)
    (ARindex : list Z) (ARvalue : list double) (epsilon : double)
    (iters : list Z) :
  forall m0 m : double,
    runSetup_row_loop integrality ARindex ARvalue epsilon iters true m0
    = Some (true, m) ->
    forall j : Z, In j iters ->
      let v := vget NaN ARvalue j in
      is_kContinuous (vget kContinuous integrality (vget 0%Z ARindex j))
      = false
      /\ (dabs (v - dfloor (v + dhalf)) >? epsilon)%D = false.
Proof.
  induction iters as [| j rest IH]; intros m0 m H k Hk;
    cbn [runSetup_row_loop] in H; [destruct Hk |].
  destruct (vread ARindex j) as [col |] eqn:Ec; [| discriminate].
  destruct (vread integrality col) as [ty |] eqn:Et; [| discriminate].
  destruct (vread ARvalue j) as [v |] eqn:Ev;
    [| destruct ty; discriminate].
  assert (Hthis :
    is_kContinuous ty = false
    /\ (dabs (v - dfloor (v + dhalf)) >? epsilon)%D = false
    /\ runSetup_row_loop integrality ARindex ARvalue epsilon rest true
         (std_max m0 (dabs v)) = Some (true, m)).
  { destruct ty; cbv beta iota in H;
      try (apply runSetup_row_loop_false in H; discriminate);
      destruct (dabs (v - dfloor (v + dhalf)) >? epsilon)%D;
      try (apply runSetup_row_loop_false in H; discriminate);
      auto. }
  destruct Hthis as (Hty & Hcoef & Hrest).
  destruct Hk as [<- | Hk]; [| eapply IH; eassumption].
  cbv zeta. rewrite (vread_vget 0%Z _ _ _ Ec),
    (vread_vget kContinuous _ _ _ Et), (vread_vget NaN _ _ _ Ev).
  auto.
Qed.

Lemma Qceiling_le_Z (x : Q) (z : Z) :
  x <= inject_Z z -> (Qceiling x <= z)%Z.
Proof.
  intro H. rewrite <- (Qceiling_Z z). apply Qceiling_resp_le, H.
Qed.

Lemma Qfloor_ge_Z (x : Q) (z : Z) :
  inject_Z z <= x -> (z <= Qfloor x)%Z.
Proof.
  intro H. rewrite <- (Qfloor_Z z). apply Qfloor_resp_le, H.
Qed.

(** Rounding the sides of an integral row keeps every integer that was
    within the tolerance of the row. *)
Lemma round_row_lower_sound (t : Q) (row_lower : double) (z : Z) :
  (row_lower - Fin t <=? of_Z z)%D = true ->
  (round_row_lower (Fin t) row_lower <=? of_Z z)%D = true.
Proof.
  unfold round_row_lower.
  destruct row_lower as [| | l |]; cbn; try discriminate; try reflexivity.
  intro H. apply Qle_bool_iff in H. apply Qle_bool_iff.
  rewrite <- Zle_Qle. apply Qceiling_le_Z, H.
Qed.

Lemma round_row_upper_sound (t : Q) (row_upper : double) (z : Z) :
  (of_Z z <=? row_upper + Fin t)%D = true ->
  (of_Z z <=? round_row_upper (Fin t) row_upper)%D = true.
Proof.
  unfold round_row_upper.
  destruct row_upper as [| | u |]; cbn; try discriminate; try reflexivity.
  intro H. apply Qle_bool_iff in H. apply Qle_bool_iff.
  rewrite <- Zle_Qle. apply Qfloor_ge_Z, H.
Qed.

(** X21.  [maxAbsRowCoef] is the largest absolute coefficient of the
    row, and [runSetup] and [setupDomainPropagation] agree on it.  The
    value that [setupDomainPropagation] stores for a row is not
    negative, it is at least the absolute value of every entry of the
    row that is a number, and it is zero or the absolute value of one
    of the entries; [runSetup], whose loop also looks at the
    integrality of the row, stores the same value. *)
Theorem maxAbsRowCoef_is_row_maximum (integrality : list HighsVarType)
    (ARstart ARindex : list Z) (ARvalue row_lower row_upper : list double)
    (epsilon feastol : double) (i : Z) (m : double) :
  setupDomainPropagation_row ARstart ARvalue i = Some m ->
  (exists entries : list Z,
     row_entries ARstart i = Some entries
     /\ (d0 <=? m)%D = true
     /\ (forall j : Z, In j entries ->
           is_nan (vget NaN ARvalue j) = false ->
           (dabs (vget NaN ARvalue j) <=? m)%D = true)
     /\ (m = d0
         \/ exists j : Z, In j entries /\ m = dabs (vget NaN ARvalue j)))
  /\ (forall r : RowSetup,
        runSetup_row integrality ARstart ARindex ARvalue row_lower
          row_upper epsilon feastol i = Some r ->
        rs_maxAbsRowCoef r = m).
Proof.
  unfold setupDomainPropagation_row, runSetup_row.
  destruct (row_entries ARstart i) as [entries |]; [| discriminate].
  intro H. split.
  - exists entries. split; [reflexivity |].
    destruct (maxabsval_loop_spec _ _ _ _ H eq_refl)
      as (_ & Hle & Hall & Hone). auto.
  - intros r Hr.
    destruct (runSetup_row_loop integrality ARindex ARvalue epsilon entries
                true d0) as [[integral maxabsval] |] eqn:Hloop;
      [| discriminate].
    apply runSetup_row_loop_maxabsval in Hloop.
    rewrite H in Hloop. injection Hloop as ->.
    destruct integral.
    + destruct (vread row_lower i); [| discriminate].
      destruct (vread row_upper i); [| discriminate].
      injection Hr as <-. reflexivity.
    + injection Hr as <-. reflexivity.
Qed.

Lemma maxAbsRowCoef_is_row_maximum_witness :
  setupDomainPropagation_row two_rows_ARstart two_rows_ARvalue 1
  = Some (Fin 2)
  /\ (d0 <=? Fin 2)%D = true.
Proof.
  assert (H : setupDomainPropagation_row two_rows_ARstart two_rows_ARvalue 1
              = Some (Fin 2)) by (vm_compute; reflexivity).
  split; [exact H |].
  destruct (proj1 (maxAbsRowCoef_is_row_maximum
                     [kInteger; kInteger] two_rows_ARstart two_rows_ARindex
                     two_rows_ARvalue [d1; d1] [Fin 6; Fin 4]
                     (Fin (1 # 1000000000)) Sim.tol6 1 (Fin 2) H))
    as (entries & _ & Hle & _).
  exact Hle.
Defined.

(** X22.  What [runSetup] does to an integral row.  If the pass over
    row [i] finds the row integral, every entry of the row is on a
    column that is not continuous and its coefficient is within
    [epsilon] of an integer; the sides of the row are then rounded, the
    lower side up after subtracting the tolerance and the upper side
    down after adding it, and no integer that was within the tolerance
    of the old sides is outside the new ones. *)
Theorem runSetup_row_integral_rounding (integrality : list HighsVarType)
    (ARstart ARindex : list Z) (ARvalue row_lower row_upper : list double)
    (epsilon : double) (t : Q) (i : Z) (r : RowSetup) :
  runSetup_row integrality ARstart ARindex ARvalue row_lower row_upper
    epsilon (Fin t) i = Some r ->
  rs_rowintegral r = true ->
  (exists entries : list Z,
     row_entries ARstart i = Some entries
     /\ forall j : Z, In j entries ->
          let v := vget NaN ARvalue j in
          is_kContinuous (vget kContinuous integrality (vget 0%Z ARindex j))
          = false
          /\ (dabs (v - dfloor (v + dhalf)) >? epsilon)%D = false)
  /\ rs_row_lower r = round_row_lower (Fin t) (vget NaN row_lower i)
  /\ rs_row_upper r = round_row_upper (Fin t) (vget NaN row_upper i)
  /\ forall z : Z,
       (vget NaN row_lower i - Fin t <=? of_Z z)%D = true ->
       (of_Z z <=? vget NaN row_upper i + Fin t)%D = true ->
       (rs_row_lower r <=? of_Z z)%D = true
       /\ (of_Z z <=? rs_row_upper r)%D = true.
Proof.
  unfold runSetup_row.
  destruct (row_entries ARstart i) as [entries |]; [| discriminate].
  destruct (runSetup_row_loop integrality ARindex ARvalue epsilon entries
              true d0) as [[integral maxabsval] |] eqn:Hloop;
    [| discriminate].
  destruct integral.
  - destruct (vread row_lower i) as [lo |] eqn:El; [| discriminate].
    destruct (vread row_upper i) as [up |] eqn:Eu; [| discriminate].
    intros H _. injection H as <-. cbn [rs_row_lower rs_row_upper].
    rewrite (vread_vget NaN _ _ _ El), (vread_vget NaN _ _ _ Eu).
    split; [exists entries; split; [reflexivity |] |].
    + eapply runSetup_row_loop_integral. exact Hloop.
    + split; [reflexivity |]. split; [reflexivity |].
      intros z Hlo Hup.
      split; [apply round_row_lower_sound, Hlo
             | apply round_row_upper_sound, Hup].
  - intros H Hint. injection H as <-. discriminate.
Qed.

Lemma runSetup_row_integral_rounding_witness :
  exists r : RowSetup,
    runSetup_row [kInteger; kInteger] two_rows_ARstart two_rows_ARindex
      two_rows_ARvalue [d1; Fin (1 # 2)] [Fin 6; Fin (7 # 2)]
      (Fin (1 # 1000000000)) (Fin (1 # 1000000)) 1 = Some r
    /\ rs_rowintegral r = true
    /\ (rs_row_lower r <=? of_Z 3)%D = true
    /\ (of_Z 3 <=? rs_row_upper r)%D = true.
Proof.
  destruct (runSetup_row [kInteger; kInteger] two_rows_ARstart
              two_rows_ARindex two_rows_ARvalue [d1; Fin (1 # 2)]
              [Fin 6; Fin (7 # 2)] (Fin (1 # 1000000000))
              (Fin (1 # 1000000)) 1) as [r |] eqn:H;
    [| vm_compute in H; discriminate].
  assert (Hint : rs_rowintegral r = true).
  { vm_compute in H. injection H as <-. reflexivity. }
  exists r. split; [reflexivity |]. split; [exact Hint |].
  destruct (runSetup_row_integral_rounding _ _ _ _ _ _ _ _ _ _ H Hint)
    as (_ & _ & _ & Hz).
  exact (Hz 3%Z eq_refl eq_refl).
Defined.

(* ================================================================== *)
(** * The root basis across a restart                                  *)
(* ================================================================== *)

Lemma vread_vset_same {A : Type} (v : list A) (i : Z) (a : A) :
  (0 <= i < Z.of_nat (length v))%Z -> vread (vset v i a) i = Some a.
Proof.
  intros [H0 H1]. unfold vread, vset.
  destruct (i <? 0)%Z eqn:E; [apply Z.ltb_lt in E; lia |].
  apply nth_error_list_set_same. lia.
Qed.

Lemma vread_vset_other {A : Type} (v : list A) (i j : Z) (a : A) :
  i <> j -> vread (vset v i a) j = vread v j.
Proof.
  intro Hij. unfold vread, vset.
  destruct (i <? 0)%Z eqn:Ei; [reflexivity |].
  destruct (j <? 0)%Z eqn:Ej; [reflexivity |].
  apply Z.ltb_ge in Ei, Ej.
  apply nth_error_list_set_other. lia.
Qed.

Lemma vwrite_Some {A : Type} (v v' : list A) (i : Z) (a : A) :
  vwrite v i a = Some v' ->
  (0 <= i < Z.of_nat (length v))%Z /\ v' = vset v i a.
Proof.
  unfold vwrite.
  destruct (i <? 0)%Z eqn:E0; [discriminate |].
  destruct (Z.of_nat (length v) <=? i)%Z eqn:E1; [discriminate |].
  cbn [orb]. intro H. injection H as <-.
  apply Z.ltb_ge in E0. apply Z.leb_gt in E1. auto.
Qed.

Lemma vread_repeat {A : Type} (x y : A) (n : nat) (k : Z) :
  vread (repeat x n) k = Some y -> y = x.
Proof.
  unfold vread. destruct (k <? 0)%Z; [discriminate |].
  intro H. apply nth_error_In in H. eapply repeat_spec. exact H.
Qed.

(** The writes [dst[origIndex(i)] = src[i]] of the expansion, for an
    index map that is injective on the indices written. *)
Lemma expand_status_spec (origIndex : Z -> Z) (src : list HighsBasisStatus)
    (iters : list Z) :
  forall dst dst' : list HighsBasisStatus,
    expand_status origIndex src iters dst = Some dst' ->
    NoDup iters ->
    (forall i i' : Z, In i iters -> In i' iters ->
       origIndex i = origIndex i' -> i = i') ->
    length dst' = length dst
    /\ (forall i : Z, In i iters ->
          vread dst' (origIndex i) = vread src i /\ vread src i <> None)
    /\ (forall k : Z, (forall i : Z, In i iters -> origIndex i <> k) ->
          vread dst' k = vread dst k).
Proof.
  induction iters as [| i rest IH]; intros dst dst' H Hnd Hinj;
    cbn [expand_status] in H.
  - injection H as <-. split; [reflexivity |].
    split; [intros i [] | reflexivity].
  - destruct (vread src i) as [s |] eqn:Es; [| discriminate].
    destruct (vwrite dst (origIndex i) s) as [dst1 |] eqn:Ew;
      [| discriminate].
    apply vwrite_Some in Ew. destruct Ew as [Hrange ->].
    apply NoDup_cons_iff in Hnd. destruct Hnd as [Hnotin Hnd].
    destruct (IH _ _ H Hnd
                (fun a b Ha Hb => Hinj a b (or_intror Ha) (or_intror Hb)))
      as (Hlen & Hwritten & Hother).
    rewrite length_vset in Hlen.
    split; [exact Hlen |]. split.
    + intros k [<- | Hk]; [| apply Hwritten, Hk].
      rewrite Hother.
      * rewrite vread_vset_same by exact Hrange. rewrite Es.
        split; [reflexivity | discriminate].
      * intros i' Hi' Heq. apply Hnotin.
        rewrite (Hinj i i' (or_introl eq_refl) (or_intror Hi')
                   (eq_sym Heq)).
        exact Hi'.
    + intros k Hk. rewrite Hother.
      * apply vread_vset_other. apply Hk. left. reflexivity.
      * intros i' Hi'. apply Hk. right. exact Hi'.
Qed.

(** The writes [dst[i] = src[origIndex(i)]] of the transfer. *)
Lemma reduce_status_spec (origIndex : Z -> Z) (src : list HighsBasisStatus)
    (iters : list Z) :
  forall dst dst' : list HighsBasisStatus,
    reduce_status origIndex src iters dst = Some dst' ->
    NoDup iters ->
    length dst' = length dst
    /\ (forall j : Z, In j iters ->
          vread dst' j = vread src (origIndex j)
          /\ vread src (origIndex j) <> None).
Proof.
  induction iters as [| j rest IH]; intros dst dst' H Hnd;
    cbn [reduce_status] in H.
  - injection H as <-. split; [reflexivity | intros j []].
  - destruct (vread src (origIndex j)) as [s |] eqn:Es; [| discriminate].
    destruct (vwrite dst j s) as [dst1 |] eqn:Ew; [| discriminate].
    apply vwrite_Some in Ew. destruct Ew as [Hrange ->].
    apply NoDup_cons_iff in Hnd. destruct Hnd as [Hnotin Hnd].
    assert (Hkeep : forall rest' d d',
              reduce_status origIndex src rest' d = Some d' ->
              ~ In j rest' -> vread d' j = vread d j).
    { induction rest' as [| k rest' IH']; intros d d' Hd Hn;
        cbn [reduce_status] in Hd.
      - injection Hd as <-. reflexivity.
      - destruct (vread src (origIndex k)) as [sk |]; [| discriminate].
        destruct (vwrite d k sk) as [d1 |] eqn:Ek; [| discriminate].
        apply vwrite_Some in Ek. destruct Ek as [_ ->].
        rewrite (IH' _ _ Hd (fun Hin => Hn (or_intror Hin))).
        apply vread_vset_other. intros ->. apply Hn. left. reflexivity. }
    destruct (IH _ _ H Hnd) as (Hlen & Hwritten).
    rewrite length_vset in Hlen.
    split; [exact Hlen |].
    intros k [<- | Hk]; [| apply Hwritten, Hk].
    rewrite (Hkeep _ _ _ H Hnotin), vread_vset_same by exact Hrange.
    rewrite Es. split; [reflexivity | discriminate].
Qed.

(** One vector of statuses through the expansion and the transfer. *)
Lemma expand_then_reduce (f g : Z -> Z) (fill : HighsBasisStatus)
    (old_status : list HighsBasisStatus) (n origNum m : Z)
    (expanded new_status : list HighsBasisStatus) :
  expand_status f old_status (indices n) (resize origNum fill [])
  = Some expanded ->
  reduce_status g expanded (indices m) (repeat kNonbasic (Z.to_nat m))
  = Some new_status ->
  (forall i i' : Z, (0 <= i < n)%Z -> (0 <= i' < n)%Z ->
     f i = f i' -> i = i') ->
  length new_status = Z.to_nat m
  /\ (forall j i : Z, (0 <= j < m)%Z -> (0 <= i < n)%Z -> g j = f i ->
        vread new_status j = vread old_status i)
  /\ (forall j : Z, (0 <= j < m)%Z ->
        (forall i : Z, (0 <= i < n)%Z -> f i <> g j) ->
        vread new_status j = Some fill).
Proof.
  intros He Hr Hinj.
  destruct (expand_status_spec f old_status (indices n) _ _ He
              (indices_NoDup n)
              (fun i i' Hi Hi' =>
                 Hinj i i' (proj1 (indices_spec _ _) Hi)
                   (proj1 (indices_spec _ _) Hi')))
    as (_ & Hwritten & Hother).
  destruct (reduce_status_spec g expanded (indices m) _ _ Hr
              (indices_NoDup m)) as (Hlen & Hread).
  rewrite repeat_length in Hlen.
  split; [exact Hlen |]. split.
  - intros j i Hj Hi Hgf.
    destruct (Hread j (proj2 (indices_spec _ _) Hj)) as [-> _].
    rewrite Hgf. apply Hwritten, indices_spec, Hi.
  - intros j Hj Hfresh.
    destruct (Hread j (proj2 (indices_spec _ _) Hj)) as [Hv Hsome].
    rewrite Hv in *.
    rewrite Hother in Hsome |- *
      by (intros i Hi; apply Hfresh, indices_spec, Hi).
    unfold resize in *. cbn [firstn app length] in *.
    rewrite firstn_nil in *. cbn [app] in *.
    destruct (vread (repeat fill (Z.to_nat origNum - 0)) (g j)) as [y |] eqn:Ey;
      [| contradiction].
    apply vread_repeat in Ey. subst y. reflexivity.
Qed.

(** X23.  A basis status survives the restart.  Let the basis of the
    root LP be expanded to the original space by [performRestart],
    into a basis that starts without statuses, with index maps that are injective on the columns and on the rows
    of the basis, and let [basisTransfer] then build the basis of the
    new presolved model from it.  The new basis is valid and alien and
    has one status for each column and row of the new model.  A column
    or row of the new model that comes from the same original index as
    a column or row of the old one has the status it had in the old
    basis; a column that comes from an original index that no old
    column had is at its lower bound, and such a row is basic. *)
Theorem basis_survives_restart (maps maps' : IndexMaps)
    (num_col numRow' numCol' : Z)
    (firstrootbasis root_basis firstrootbasis' rootbasis basis' : HighsBasis) :
  let numRow := Z.of_nat (length (row_status firstrootbasis)) in
  col_status root_basis = [] -> row_status root_basis = [] ->
  performRestart_root_basis maps num_col firstrootbasis root_basis
  = Some (Some rootbasis) ->
  basisTransfer maps' numRow' numCol' (Some rootbasis) firstrootbasis'
  = Some basis' ->
  (forall i i' : Z, (0 <= i < num_col)%Z -> (0 <= i' < num_col)%Z ->
     getOrigColIndex maps i = getOrigColIndex maps i' -> i = i') ->
  (forall i i' : Z, (0 <= i < numRow)%Z -> (0 <= i' < numRow)%Z ->
     getOrigRowIndex maps i = getOrigRowIndex maps i' -> i = i') ->
  (valid basis' = true /\ alien basis' = true
   /\ length (col_status basis') = Z.to_nat numCol'
   /\ length (row_status basis') = Z.to_nat numRow')
  /\ (forall j i : Z, (0 <= j < numCol')%Z -> (0 <= i < num_col)%Z ->
        getOrigColIndex maps' j = getOrigColIndex maps i ->
        vread (col_status basis') j = vread (col_status firstrootbasis) i)
  /\ (forall j i : Z, (0 <= j < numRow')%Z -> (0 <= i < numRow)%Z ->
        getOrigRowIndex maps' j = getOrigRowIndex maps i ->
        vread (row_status basis') j = vread (row_status firstrootbasis) i)
  /\ (forall j : Z, (0 <= j < numCol')%Z ->
        (forall i : Z, (0 <= i < num_col)%Z ->
           getOrigColIndex maps i <> getOrigColIndex maps' j) ->
        vread (col_status basis') j = Some kLower)
  /\ (forall j : Z, (0 <= j < numRow')%Z ->
        (forall i : Z, (0 <= i < numRow)%Z ->
           getOrigRowIndex maps i <> getOrigRowIndex maps' j) ->
        vread (row_status basis') j = Some kBasic).
Proof.
  cbv zeta. intros Hc0 Hr0. unfold performRestart_root_basis, basisTransfer.
  rewrite Hc0, Hr0.
  destruct (valid firstrootbasis); [| discriminate].
  destruct (expand_status (getOrigColIndex maps) (col_status firstrootbasis)
              (indices num_col) (resize (getOrigNumCol maps) kLower []))
    as [cols |] eqn:Hcols; [| discriminate].
  destruct (expand_status (getOrigRowIndex maps) (row_status firstrootbasis)
              (indices (Z.of_nat (length (row_status firstrootbasis))))
              (resize (getOrigNumRow maps) kBasic []))
    as [rows |] eqn:Hrows; [| discriminate].
  intro H. injection H as <-. cbn [col_status row_status].
  destruct (reduce_status (getOrigRowIndex maps') rows (indices numRow')
              (repeat kNonbasic (Z.to_nat numRow')))
    as [rows' |] eqn:Hrows'; [| discriminate].
  destruct (reduce_status (getOrigColIndex maps') cols (indices numCol')
              (repeat kNonbasic (Z.to_nat numCol')))
    as [cols' |] eqn:Hcols'; [| discriminate].
  intro H. injection H as <-. cbn [valid alien col_status row_status].
  intros Hinjc Hinjr.
  destruct (expand_then_reduce _ _ _ _ _ _ _ _ _ Hcols Hcols' Hinjc)
    as (Hlc & Hc & Hfc).
  destruct (expand_then_reduce _ _ _ _ _ _ _ _ _ Hrows Hrows' Hinjr)
    as (Hlr & Hr & Hfr).
  repeat split; assumption.
Qed.

Lemma basis_survives_restart_witness :
  exists rootbasis basis' : HighsBasis,
    performRestart_root_basis shift_maps 2 root_lp_basis fresh_basis
    = Some (Some rootbasis)
    /\ basisTransfer shift_maps 2 2 (Some rootbasis) fresh_basis
       = Some basis'
    /\ vread (col_status basis') 1 = vread (col_status root_lp_basis) 1.
Proof.
  destruct (performRestart_root_basis shift_maps 2 root_lp_basis fresh_basis)
    as [[rootbasis |] |] eqn:H1;
    [| vm_compute in H1; discriminate | vm_compute in H1; discriminate].
  destruct (basisTransfer shift_maps 2 2 (Some rootbasis) fresh_basis)
    as [basis' |] eqn:H2.
  - exists rootbasis, basis'. split; [reflexivity |].
    split; [exact H2 |].
    destruct (basis_survives_restart shift_maps shift_maps 2 2 2
                root_lp_basis fresh_basis fresh_basis rootbasis basis'
                eq_refl eq_refl H1 H2
                ltac:(cbn; intros; lia) ltac:(cbn; intros; lia))
      as (_ & Hcol & _).
    apply Hcol; [lia | lia | reflexivity].
  - exfalso. vm_compute in H1. injection H1 as <-.
    vm_compute in H2. discriminate.
Defined.

(* ================================================================== *)
(** * Further properties of the checks, the limits and the lists       *)
(* ================================================================== *)

Lemma vread_in_range {A : Type} (d : A) (v : list A) (i : Z) :
  (0 <= i < Z.of_nat (length v))%Z -> vread v i = Some (vget d v i).
Proof.
  intros [H0 H1]. unfold vget, vread.
  destruct (i <? 0)%Z eqn:E; [apply Z.ltb_lt in E; lia |].
  destruct (nth_error v (Z.to_nat i)) eqn:En; [reflexivity |].
  apply nth_error_None in En. lia.
Qed.

Section MoreChecks.
Context {World : Type} (C : Collaborators World).
Implicit Type st : HighsMipSolverData World.

Lemma solutionColFeasible_loop_complete st (solution : list double)
    (iters : list Z) :
  let model := model_ (mipsolver st) in
  (forall i : Z, In i iters ->
     (0 <= i < Z.of_nat (length solution))%Z
     /\ (0 <= i < Z.of_nat (length (col_lower_ model)))%Z
     /\ (0 <= i < Z.of_nat (length (col_upper_ model)))%Z
     /\ (0 <= i < Z.of_nat (length (integrality_ model)))%Z
     /\ (0 <= i < Z.of_nat (length (col_cost_ model)))%Z) ->
  (forall i : Z, In i iters ->
     let s := vget NaN solution i in
     (s <? vget NaN (col_lower_ model) i - feastol st)%D = false
     /\ (s >? vget NaN (col_upper_ model) i + feastol st)%D = false
     /\ (is_kInteger (vget kContinuous (integrality_ model) i) = true ->
         (dabs (s - dfloor (s + dhalf)) >? feastol st)%D = false)) ->
  forall obj0 : double,
    solutionColFeasible_loop st solution iters obj0
    = Some
        (Some
           (fold_left
              (fun o i =>
                 (o + vget NaN (col_cost_ model) i * vget NaN solution i)%D)
              iters obj0)).
Proof.
  cbv zeta. induction iters as [| i rest IH]; intros Hrange Hok obj0;
    cbn [solutionColFeasible_loop fold_left]; [reflexivity |].
  destruct (Hrange i (or_introl eq_refl)) as (Rs & Rl & Ru & Rt & Rc).
  destruct (Hok i (or_introl eq_refl)) as (Hlo & Hup & Hint).
  rewrite (vread_in_range NaN _ _ Rs), (vread_in_range NaN _ _ Rl), Hlo,
    (vread_in_range NaN _ _ Ru), Hup, (vread_in_range kContinuous _ _ Rt),
    (vread_in_range NaN _ _ Rc).
  destruct (is_kInteger (vget kContinuous
                           (integrality_ (model_ (mipsolver st))) i)).
  - rewrite (Hint eq_refl). cbn [andb].
    apply IH; intros j Hj; [apply Hrange | apply Hok]; right; exact Hj.
  - cbn [andb].
    apply IH; intros j Hj; [apply Hrange | apply Hok]; right; exact Hj.
Qed.

Lemma column_step_objective (orig : HighsLp) (options : HighsOptions)
    (solution : HighsSolution) (acc : double * double * double) (i : Z) :
  fst (fst (column_step orig options solution acc i))
  = (fst (fst acc)
     + vget NaN (col_cost_ orig) i * vget NaN (col_value solution) i)%D.
Proof.
  destruct acc as [[o iv] b]. unfold column_step.
  split_ifs; reflexivity.
Qed.

Lemma fold_column_step_objective (orig : HighsLp) (options : HighsOptions)
    (solution : HighsSolution) (iters : list Z) :
  forall acc : double * double * double,
    fst (fst (fold_left (column_step orig options solution) iters acc))
    = fold_left
        (fun obj i =>
           (obj + vget NaN (col_cost_ orig) i
                  * vget NaN (col_value solution) i)%D)
        iters (fst (fst acc)).
Proof.
  induction iters as [| i rest IH]; intro acc; cbn [fold_left];
    [reflexivity |].
  rewrite IH, column_step_objective. reflexivity.
Qed.

(** The objective that the violation pass returns is the objective of
    the original model at the solution. *)
Lemma measure_violations_objective (orig : HighsLp) (options : HighsOptions)
    (solution : HighsSolution) :
  v_objective_value (measure_violations orig options solution)
  = orig_objective orig (col_value solution).
Proof.
  unfold measure_violations, orig_objective.
  pose proof (fold_column_step_objective orig options solution
                (indices (num_col_ orig)) (offset_ orig, d0, d0)) as H.
  destruct (fold_left (column_step orig options solution)
              (indices (num_col_ orig)) (offset_ orig, d0, d0))
    as [[objective iv] bv].
  cbn [fst v_objective_value] in *. exact H.
Qed.

End MoreChecks.

(** X24.  [solutionColFeasible] rejects only for a reason.  If the
    solution has one value for each column, the vectors of the model
    are as long as the model has columns, and every value is within
    the bounds of its column up to the tolerance and, on an integer
    column, within the tolerance of an integer, then
    [solutionColFeasible] returns [true] with the objective summed over
    the columns. *)
Theorem solutionColFeasible_complete {World : Type}
    (st : HighsMipSolverData World) (solution : list double) :
  let model := model_ (mipsolver st) in
  let n := num_col_ model in
  Z.of_nat (length solution) = n ->
  (n <= Z.of_nat (length (col_lower_ model))
   /\ n <= Z.of_nat (length (col_upper_ model))
   /\ n <= Z.of_nat (length (integrality_ model))
   /\ n <= Z.of_nat (length (col_cost_ model)))%Z ->
  (forall i : Z, (0 <= i < n)%Z ->
     let s := vget NaN solution i in
     (s <? vget NaN (col_lower_ model) i - feastol st)%D = false
     /\ (s >? vget NaN (col_upper_ model) i + feastol st)%D = false
     /\ (is_kInteger (vget kContinuous (integrality_ model) i) = true ->
         (dabs (s - dfloor (s + dhalf)) >? feastol st)%D = false)) ->
  solutionColFeasible st solution
  = Some (Some (col_objective st solution n)).
Proof.
  cbv zeta. intros Hlen (Hl & Hu & Ht & Hc) Hok.
  unfold solutionColFeasible. cbv zeta.
  apply Z.eqb_eq in Hlen. rewrite Hlen. cbn [negb].
  apply Z.eqb_eq in Hlen.
  apply solutionColFeasible_loop_complete.
  - intros i Hi. apply indices_spec in Hi. lia.
  - intros i Hi. apply Hok, indices_spec, Hi.
Qed.

Lemma solutionColFeasible_complete_witness :
  solutionColFeasible two_row_state [Fin 2; Fin (5 # 2)]
  = Some (Some (col_objective two_row_state [Fin 2; Fin (5 # 2)] 2)).
Proof.
  apply (solutionColFeasible_complete two_row_state [Fin 2; Fin (5 # 2)]).
  - reflexivity.
  - cbn. lia.
  - intros i Hi.
    assert (i = 0 \/ i = 1)%Z as [-> | ->] by (cbn in Hi; lia);
      vm_compute; repeat split; intros; try reflexivity; discriminate.
Defined.

(** X25.  The objective kept with the stored solution is the objective
    of that solution.  If a call of [addIncumbent] replaces the
    solution stored in [mipsolver], the objective stored with it is the
    objective of the original model at the stored column values,
    offset included; and if the call changes [upper_bound], the new
    [upper_bound] is that objective in the transformed space:
    [objective - offset] for a minimisation and
    [-(objective + offset)] for a maximisation, the offset being that
    of the presolved model. *)
Theorem addIncumbent_objective_agreement {World : Type}
    (C : Collaborators World) (st : HighsMipSolverData World)
    (sol : list double) (solobj : double)
    (solution_source : SolutionSource) :
  let r := addIncumbent C st sol solobj solution_source in
  let ms := mipsolver st in
  let ms' := mipsolver (snd r) in
  (ms' <> ms ->
   solution_objective_ ms' = orig_objective (orig_model_ ms) (solution_ ms'))
  /\ (upper_bound (snd r) <> upper_bound st ->
      upper_bound (snd r)
      = if is_kMaximize (sense_ (orig_model_ ms))
        then (- (solution_objective_ ms' + offset_ (model_ ms)))%D
        else (solution_objective_ ms' - offset_ (model_ ms))%D).
Proof.
  cbv zeta.
  assert (Hstored :
    solution_objective_ (candidate_stored C st sol)
    = orig_objective (orig_model_ (mipsolver st))
        (solution_ (candidate_stored C st sol))).
  { unfold candidate_stored. st_simpl.
    rewrite checked_candidate_violations.
    apply measure_violations_objective. }
  split.
  - intro Hchanged. rewrite addIncumbent_mipsolver in Hchanged |- *.
    destruct (solobj <? upper_bound st)%D; [| contradiction].
    rewrite transformNewIntegerFeasibleSolution_eq in Hchanged |- *.
    destruct (candidate_feasible C st sol); cbn [snd] in Hchanged |- *;
      [st_simpl; exact Hstored |].
    destruct (currentFeasible (mipsolver st)); cbn [snd] in Hchanged |- *;
      [contradiction | st_simpl; exact Hstored].
  - intro Hchanged.
    destruct (addIncumbent_upper_bound C st sol solobj solution_source)
      as [Hsame | (Hlt & Hge & _ & Hub)]; [contradiction |].
    rewrite addIncumbent_mipsolver, Hlt.
    rewrite transformNewIntegerFeasibleSolution_eq in Hge, Hub |- *.
    destruct (candidate_feasible C st sol).
    + cbn [fst snd] in Hub |- *. st_simpl. rewrite Hub.
      unfold candidate_objective, candidate_stored. st_simpl. reflexivity.
    + exfalso. apply dlt_not_nan_r in Hlt.
      destruct (currentFeasible (mipsolver st)); cbn [fst] in Hge;
        destruct (upper_bound st); d_simpl; discriminate.
Qed.

Lemma addIncumbent_objective_agreement_witness :
  let C := Sim.collaborators Sim.no_repair in
  let r := addIncumbent C cutoff_state [Fin 7] (Fin 7)
             kSolutionSourceOther in
  upper_bound (snd r) <> upper_bound cutoff_state
  /\ upper_bound (snd r)
     = (solution_objective_ (mipsolver (snd r)) - d0)%D.
Proof.
  cbv zeta.
  assert (H : upper_bound
                (snd (addIncumbent (Sim.collaborators Sim.no_repair)
                        cutoff_state [Fin 7] (Fin 7) kSolutionSourceOther))
              <> upper_bound cutoff_state)
    by (vm_compute; discriminate).
  split; [exact H |].
  exact (proj2 (addIncumbent_objective_agreement
                  (Sim.collaborators Sim.no_repair) cutoff_state [Fin 7]
                  (Fin 7) kSolutionSourceOther) H).
Defined.

(** X26.  The sentinel values switch the limits off.  Outside a
    sub-MIP or in one, without a user callback and with an objective
    target of minus infinity, if the three counter limits are
    [kHighsIInf] and the time limit is plus infinity, then
    [checkLimits] returns [false] and leaves the solver data alone,
    however large the counters are, as long as the clock shows a finite
    time. *)
Theorem checkLimits_without_limits {World : Type} (C : Collaborators World)
    (st : HighsMipSolverData World) (nodeOffset : Z) :
  let options := options_mip_ (mipsolver st) in
  user_callback (callback_ (mipsolver st)) = false ->
  objective_target options = (- kHighsInf)%D ->
  mip_max_nodes options = kHighsIInf ->
  mip_max_leaves options = kHighsIInf ->
  mip_max_improving_sols options = kHighsIInf ->
  time_limit options = kHighsInf ->
  is_finite (timer_read C (world st)) = true ->
  checkLimits C st nodeOffset = (false, st).
Proof.
  cbv zeta. intros Hcb Htarget Hnodes Hleaves Hsols Htime Hclock.
  unfold checkLimits.
  rewrite Hcb, Htarget, Hnodes, Hleaves, Hsols, Htime.
  rewrite Z.eqb_refl. cbn [negb andb].
  rewrite andb_false_r. cbn [andb].
  change ((- kHighsInf >? - kHighsInf)%D) with false.
  rewrite andb_false_r. cbn [andb].
  destruct (timer_read C (world st)); try discriminate. reflexivity.
Qed.

Lemma checkLimits_without_limits_witness :
  checkLimits (Sim.collaborators Sim.no_repair)
    (set_num_nodes 1000000 cutoff_state) 0
  = (false, set_num_nodes 1000000 cutoff_state).
Proof.
  exact (checkLimits_without_limits (Sim.collaborators Sim.no_repair)
           (set_num_nodes 1000000 cutoff_state) 0
           eq_refl eq_refl eq_refl eq_refl eq_refl eq_refl eq_refl).
Defined.

(** X27.  Dropping fixed columns never lowers the percentage of
    inactive integers.  [removeFixedIndices] keeps, in their order, the
    columns of each list that the domain does not report as fixed, and
    leaves [numintegercols]; so, for a number of substitutions that is
    at most the number of integer columns left, the percentage after
    the call is at least the percentage before it. *)
Theorem removeFixedIndices_percentage {World : Type}
    (C : Collaborators World) (st : HighsMipSolverData World)
    (substitutions : Z) :
  let st' := removeFixedIndices C st in
  (0 <= substitutions <= Z.of_nat (length (integer_cols st')))%Z ->
  (Z.of_nat (length (integer_cols st)) <= numintegercols st)%Z ->
  (0 < numintegercols st <= kHighsIInf)%Z ->
  integer_cols st'
  = filter (fun col => negb (domain_isFixed C (world st) col))
      (integer_cols st)
  /\ numintegercols st' = numintegercols st
  /\ (percentageInactiveIntegers st substitutions
      <=? percentageInactiveIntegers st' substitutions)%D = true.
Proof.
  cbv zeta. intros Hsub Hsize Hn.
  assert (Hcols :
    integer_cols (removeFixedIndices C st)
    = filter (fun col => negb (domain_isFixed C (world st) col))
        (integer_cols st)) by reflexivity.
  assert (Hnum : numintegercols (removeFixedIndices C st)
                 = numintegercols st) by reflexivity.
  split; [exact Hcols |]. split; [exact Hnum |].
  pose proof (filter_length_le
                (fun col => negb (domain_isFixed C (world st) col))
                (integer_cols st)) as Hle.
  rewrite <- Hcols in Hle.
  unfold percentageInactiveIntegers. rewrite Hnum.
  set (len := Z.of_nat (length (integer_cols st))) in *.
  set (len' := Z.of_nat (length (integer_cols (removeFixedIndices C st))))
    in *.
  assert (Hll : (len' <= len)%Z) by (unfold len, len'; lia).
  unfold kHighsIInf in Hn.
  rewrite !Z.mod_small by lia.
  assert (Hn0 : 0 < inject_Z (numintegercols st))
    by (change 0 with (inject_Z 0); rewrite <- Zlt_Qlt; lia).
  assert (Hk : inject_Z (len' - substitutions)
               <= inject_Z (len - substitutions))
    by (rewrite <- Zle_Qle; lia).
  cbn [of_Z ddiv].
  assert (Hne : Qeq_bool (inject_Z (numintegercols st)) 0 = false)
    by (apply Qeq_bool_neq_iff; lra).
  rewrite Hne. cbn [d1 d100 dsub dneg dadd dmul dle].
  apply Qle_bool_iff. rewrite !Qred_correct.
  assert (Hdiv : inject_Z (len' - substitutions)
                 / inject_Z (numintegercols st)
                 <= inject_Z (len - substitutions)
                    / inject_Z (numintegercols st)).
  { unfold Qdiv. apply Qmult_le_compat_r; [exact Hk |].
    apply Qlt_le_weak, Qinv_lt_0_compat, Hn0. }
  lra.
Qed.

Lemma removeFixedIndices_percentage_witness :
  let st := set_numintegercols 4
              (set_cols [1%Z; 2%Z; 3%Z] [1%Z; 2%Z; 3%Z] [] [] early_state) in
  (percentageInactiveIntegers st 1
   <=? percentageInactiveIntegers
         (removeFixedIndices (Sim.collaborators Sim.no_repair) st) 1)%D
  = true.
Proof.
  cbv zeta.
  exact (proj2 (proj2 (removeFixedIndices_percentage
                         (Sim.collaborators Sim.no_repair)
                         (set_numintegercols 4
                            (set_cols [1%Z; 2%Z; 3%Z] [1%Z; 2%Z; 3%Z] [] []
                               early_state)) 1
                         ltac:(vm_compute; split; discriminate)
                         ltac:(vm_compute; discriminate)
                         ltac:(vm_compute; split;
                               [reflexivity | discriminate])))).
Defined.

(* ================================================================== *)
(** * The repair model and the status written at the root              *)
(* ================================================================== *)

Lemma std_max_of_dle (a b : double) :
  (a <=? b)%D = true -> (std_max a b ==? b)%D = true.
Proof.
  unfold std_max. destruct a as [| | p |], b as [| | q |]; d_simpl;
    try discriminate; try reflexivity; intro H;
    try (apply Qeq_bool_iff; reflexivity).
  destruct (Qltb p q) eqn:E; d_simpl; q_props; lra.
Qed.

Lemma std_min_of_dle (a b : double) :
  (b <=? a)%D = true -> (std_min a b ==? b)%D = true.
Proof.
  unfold std_min. destruct a as [| | p |], b as [| | q |]; d_simpl;
    try discriminate; try reflexivity; intro H;
    try (apply Qeq_bool_iff; reflexivity).
  destruct (Qltb q p) eqn:E; d_simpl; q_props; lra.
Qed.

Lemma dle_dlt_trans (x y z : double) :
  (x <=? y)%D = true -> (y <? z)%D = true -> (x <? z)%D = true.
Proof. destruct x, y, z; d_cases. Qed.

(** X28.  The model of the repair LP.  [make_fixedModel] drops the
    integrality, leaves the bounds of the columns that are not integer,
    and fixes every integer column whose rounded candidate value lies
    within its bounds to that value: both bounds become the rounded
    value.  If the rounded value is above the upper bound of the
    column, the new lower bound is above the new upper bound, so that
    the repair LP is infeasible. *)
Theorem make_fixedModel_fixes_columns (orig : HighsLp)
    (solution : HighsSolution) (j : Z) :
  let fixedModel := make_fixedModel orig solution in
  let lower := vget NaN (col_lower_ orig) j in
  let upper := vget NaN (col_upper_ orig) j in
  let rounded := dround (vget NaN (col_value solution) j) in
  (0 <= j < num_col_ orig)%Z ->
  (j < Z.of_nat (length (col_lower_ orig)))%Z ->
  (j < Z.of_nat (length (col_upper_ orig)))%Z ->
  integrality_ fixedModel = []
  /\ (is_kInteger (vget kContinuous (integrality_ orig) j) = false ->
      vget NaN (col_lower_ fixedModel) j = lower
      /\ vget NaN (col_upper_ fixedModel) j = upper)
  /\ (is_kInteger (vget kContinuous (integrality_ orig) j) = true ->
      ((lower <=? rounded)%D = true -> (rounded <=? upper)%D = true ->
       (vget NaN (col_lower_ fixedModel) j ==? rounded)%D = true
       /\ (vget NaN (col_upper_ fixedModel) j ==? rounded)%D = true)
      /\ ((lower <=? upper)%D = true -> (upper <? rounded)%D = true ->
          (vget NaN (col_upper_ fixedModel) j
           <? vget NaN (col_lower_ fixedModel) j)%D = true)).
Proof.
  cbv zeta. intros Hj Hl Hu.
  destruct (make_fixedModel_fixes_integers orig solution j Hj Hl Hu)
    as (Hint & Hlow & Hup).
  rewrite Hlow, Hup. unfold fixed_lower, fixed_upper.
  split; [exact Hint |].
  destruct (is_kInteger (vget kContinuous (integrality_ orig) j)).
  - split; [discriminate |]. intros _. split.
    + intros H1 H2.
      split; [apply std_max_of_dle, H1 | apply std_min_of_dle, H2].
    + intros Hle Hlt. unfold std_max, std_min.
      rewrite (dle_dlt_trans _ _ _ Hle Hlt).
      destruct (dround (vget NaN (col_value solution) j)
                <? vget NaN (col_upper_ orig) j)%D eqn:E.
      * exfalso. apply dlt_dle in Hlt. apply dlt_dle_false in E. congruence.
      * exact Hlt.
  - split; [auto | discriminate].
Qed.

Lemma make_fixedModel_fixes_columns_witness :
  let solution := mkHighsSolution true [Fin (7 # 2)] [] in
  (vget NaN
     (col_lower_ (make_fixedModel (Sim.one_column kInteger) solution)) 0
   ==? Fin 4)%D = true
  /\ (vget NaN
        (col_upper_ (make_fixedModel (Sim.one_column kInteger) solution)) 0
      ==? Fin 4)%D = true.
Proof.
  cbv zeta.
  destruct (make_fixedModel_fixes_columns (Sim.one_column kInteger)
              (mkHighsSolution true [Fin (7 # 2)] []) 0
              ltac:(vm_compute; split; [discriminate | reflexivity])
              ltac:(vm_compute; reflexivity)
              ltac:(vm_compute; reflexivity))
    as (_ & _ & Hfix).
  exact (proj1 (Hfix eq_refl) eq_refl eq_refl).
Defined.

Section StatusWrites.
Context {World : Type} (C : Collaborators World).
Implicit Type st : HighsMipSolverData World.

Lemma addIncumbent_modelstatus st (sol : list double) (solobj : double)
    (solution_source : SolutionSource) :
  modelstatus_ (mipsolver (snd (addIncumbent C st sol solobj solution_source)))
  = modelstatus_ (mipsolver st).
Proof.
  rewrite addIncumbent_mipsolver.
  destruct (solobj <? upper_bound st)%D; [| reflexivity].
  apply (transform_frame C st sol true).
Qed.

Lemma status_verdict_from st st' r :
  modelstatus_ (mipsolver st') = modelstatus_ (mipsolver st) ->
  status_verdict st' r -> status_verdict st r.
Proof. unfold status_verdict. intros ->. auto. Qed.

Lemma evaluateRootLp_tail_status st (status : Status.t) (lpWasSolved : bool) :
  status_verdict st (evaluateRootLp_tail C st status lpWasSolved).
Proof.
  unfold status_verdict, evaluateRootLp_tail, count_leaf. left.
  split_ifs; st_simpl; reflexivity.
Qed.

Lemma evaluateRootLp_body_status st :
  status_verdict st (evaluateRootLp_body C st).
Proof.
  unfold evaluateRootLp_body.
  assert (H1 : modelstatus_ (mipsolver (evaluateRootLp_propagate C st))
               = modelstatus_ (mipsolver st)).
  { unfold evaluateRootLp_propagate. split_ifs; st_simpl; reflexivity. }
  set (st1 := evaluateRootLp_propagate C st) in *.
  apply (status_verdict_from st st1 _ H1).
  destruct (domain_infeasible C (world st1)).
  { left. unfold count_leaf. st_simpl. reflexivity. }
  assert (H2 : modelstatus_ (mipsolver (snd (evaluateRootLp_flush C st1)))
               = modelstatus_ (mipsolver st1)).
  { unfold evaluateRootLp_flush, removeFixedIndices.
    split_ifs; st_simpl; reflexivity. }
  destruct (evaluateRootLp_flush C st1) as [lpBoundsChanged st2].
  cbn [snd] in H2. apply (status_verdict_from st1 st2 _ H2).
  destruct (lpBoundsChanged || lp_solver_modelstatus_notset C (world st2));
    [| apply evaluateRootLp_tail_status].
  assert (H3 : modelstatus_ (mipsolver (snd (evaluateRootLp_resolve C st2)))
               = modelstatus_ (mipsolver st2)).
  { unfold evaluateRootLp_resolve.
    destruct (lp_resolveLp C (world st2)); st_simpl; reflexivity. }
  destruct (evaluateRootLp_resolve C st2) as [status st3].
  cbn [snd] in H3. apply (status_verdict_from st2 st3 _ H3).
  destruct (Status.eqb status Status.kUnbounded) eqn:Hunb.
  { right. right. unfold evaluateRootLp_unbounded, count_leaf.
    destruct status; try discriminate.
    destruct (solution_ (mipsolver st3)); st_simpl; auto. }
  destruct (Status.eqb status Status.kOptimal
            && lp_getFractionalIntegers_empty C (world st3));
    [| apply evaluateRootLp_tail_status].
  pose proof (addIncumbent_modelstatus st3
                (lp_solution_col_value C (world st3))
                (lp_getObjective C (world st3)) kSolutionSourceEvaluateNode)
    as H4.
  destruct (addIncumbent C st3 (lp_solution_col_value C (world st3))
              (lp_getObjective C (world st3)) kSolutionSourceEvaluateNode)
    as [added st4].
  cbn [snd] in H4.
  destruct added;
    [| apply (status_verdict_from st3 st4 _ H4),
         evaluateRootLp_tail_status].
  right. left. unfold count_leaf. st_simpl. auto.
Qed.

End StatusWrites.

(** X29.  [evaluateRootLp] declares optimality only with a closed gap.
    For a call that returns, the model status is as before, or it is
    [kOptimal], the call returns [kInfeasible] and [lower_bound] equals
    [upper_bound] (the LP solution was taken as incumbent), or it is
    [kUnbounded] or [kUnboundedOrInfeasible] and the call returns
    [kUnbounded]. *)
Theorem evaluateRootLp_status_writes {World : Type} (C : Collaborators World)
    (fuel : nat) (st st' : HighsMipSolverData World) (status : Status.t) :
  evaluateRootLp C fuel st = Some (status, st') ->
  modelstatus_ (mipsolver st') = modelstatus_ (mipsolver st)
  \/ (modelstatus_ (mipsolver st') = kOptimal
      /\ status = Status.kInfeasible
      /\ lower_bound st' = upper_bound st')
  \/ ((modelstatus_ (mipsolver st') = kUnbounded
       \/ modelstatus_ (mipsolver st') = kUnboundedOrInfeasible)
      /\ status = Status.kUnbounded).
Proof.
  revert st. induction fuel as [| fuel IH]; intros st H;
    cbn [evaluateRootLp] in H; [discriminate |].
  pose proof (evaluateRootLp_body_status C st) as V.
  destruct (evaluateRootLp_body C st) as [st1 [s |]] eqn:Hbody.
  - injection H as <- <-. unfold status_verdict in V. cbn [fst snd] in V.
    destruct V as [V | [(Hm & Hs & Hl) | (Hm & Hs)]].
    + left. exact V.
    + right. left. injection Hs as ->. auto.
    + right. right. injection Hs as ->. auto.
  - unfold status_verdict in V. cbn [fst snd] in V.
    destruct V as [V | [(_ & Hs & _) | (_ & Hs)]]; try discriminate.
    apply IH in H. rewrite V in H. exact H.
Qed.

Lemma evaluateRootLp_status_writes_witness :
  exists st' : HighsMipSolverData Sim.SimWorld,
    evaluateRootLp (Sim.collaborators Sim.no_repair) 1 unbounded_start
    = Some (Status.kUnbounded, st')
    /\ modelstatus_ (mipsolver st') = kUnboundedOrInfeasible.
Proof.
  destruct (evaluateRootLp (Sim.collaborators Sim.no_repair) 1
              unbounded_start) as [[status st'] |] eqn:H;
    [| vm_compute in H; discriminate].
  assert (Hs : status = Status.kUnbounded).
  { vm_compute in H. injection H as <- _. reflexivity. }
  subst status. exists st'. split; [reflexivity |].
  destruct (evaluateRootLp_status_writes (Sim.collaborators Sim.no_repair)
              1 unbounded_start st' Status.kUnbounded H)
    as [Hsame | [(_ & Habs & _) | ([Hu | Hu] & _)]].
  - exfalso. vm_compute in H. injection H as <-.
    vm_compute in Hsame. discriminate.
  - discriminate.
  - exfalso. vm_compute in H. injection H as <-.
    vm_compute in Hu. discriminate.
  - exact Hu.
Defined.
